(** * fast_matrix_market: formatters, parallel read engine, Python binding

    A shallow embedding of
      - [include/fast_matrix_market/formatters.hpp]
        ([triplet_formatter], [csc_formatter], [array_formatter],
        [dense_2d_call_formatter]),
      - the earlier revision of the formatters that still ships
        [row_major_array_formatter],
      - [read_body_threads] with [count_chunk_lines] and [line_count_result],
      - the Python binding: [triplet_numpy_parse_handler] and the argument
        checks and library calls of [read_body_triplet], [write_triplet],
        [write_csc] and [write_array].

    Conventions.  Random-access iterators are positions ([Z]) into the array
    they range over, exactly as the binding's [py_array_iterator] (an array
    reference plus an [int64_t index]).  Dereferencing outside the array is
    undefined behaviour in C++ and is [None] here.  [int64_t] quantities are
    [Z]; signed overflow is undefined behaviour in C++ and no statement below
    depends on values near the 64-bit limits, apart from the conversions
    between [int64_t] and [double], which are modelled on the whole 64-bit
    range.  [std::string] is [string] and [+=] is [String.append].  The
    [reserve] call that opens each chunk's [operator()] sizes the buffer of
    the result and is left out: it does not change the text (it throws for a
    negative size, which no chunk in the statements below has). *)

From Stdlib Require Import ZArith List Lia String Ascii Bool DecimalString.
From Stdlib Require Import Floats.PrimFloat Floats.FloatOps Floats.SpecFloat.
From Stdlib Require Uint63.
From stdpp Require Import base option list strings relations.

Local Open Scope Z_scope.

(** ** Shared vocabulary *)

(** The library's exception used for API misuse. *)
Inductive fmm_error : Type :=
| invalid_argument (what : string).

(** Modelled from the spec: [kSpace] and [kNewline] are declared in
    [fast_matrix_market.hpp], which is not part of the sources at hand; the
    spec fixes the field separator to a space and the line end to LF. *)
Definition kSpace : string := " ".
Definition kNewline : string := String (ascii_of_nat 10) EmptyString.

(** [write_options]: the only field the formatters read. *)
Record write_options : Type := { chunk_size_values : Z }.

(** [*it] for an iterator at position [i] over the array [a]. *)
Definition deref {A : Type} (a : list A) (i : Z) : option A :=
  if i <? 0 then None else a !! Z.to_nat i.

(** Concatenation of a list of strings, left to right. *)
Definition concat_strings (l : list string) : string :=
  fold_right String.append EmptyString l.

(** A string ends with a newline. *)
Definition ends_with_newline (s : string) : Prop :=
  exists p, s = p +:+ kNewline.

Lemma append_cons (x : ascii) (a b : string) :
  String x a +:+ b = String x (a +:+ b).
Proof. reflexivity. Qed.

Lemma append_nil_l (s : string) : "" +:+ s = s.
Proof. reflexivity. Qed.

Lemma append_nil_r (s : string) : s +:+ "" = s.
Proof.
  induction s as [|a s IH]; [reflexivity |].
  now rewrite append_cons, IH.
Qed.

Lemma append_assoc (a b c : string) : (a +:+ b) +:+ c = a +:+ (b +:+ c).
Proof.
  induction a as [|x a IH]; [reflexivity |].
  now rewrite !append_cons, IH.
Qed.

Lemma concat_strings_app (l1 l2 : list string) :
  concat_strings (l1 ++ l2) = concat_strings l1 +:+ concat_strings l2.
Proof.
  induction l1 as [|s l1 IH]; simpl; [reflexivity |].
  now rewrite IH, append_assoc.
Qed.

Lemma deref_lookup {A : Type} (a : list A) (i : nat) :
  deref a (Z.of_nat i) = a !! i.
Proof.
  unfold deref. destruct (Z.ltb_spec (Z.of_nat i) 0) as [E|E]; [lia |].
  now rewrite Nat2Z.id.
Qed.

(** ** Triplet formatter *)

Module Triplet.

(** State of [triplet_formatter]: the five iterator members. *)
Record triplet_formatter : Type := {
  row_iter : Z; row_end : Z;
  col_iter : Z;
  val_iter : Z; val_end : Z
}.

(** State of [triplet_formatter::chunk]. *)
Record chunk : Type := {
  chunk_row_iter : Z; chunk_row_end : Z;
  chunk_col_iter : Z;
  chunk_val_iter : Z; chunk_val_end : Z
}.

(** The constructor: it stores the iterators and throws when the ranges
    disagree in length. *)
Definition make_triplet_formatter
    (row_begin row_end0 col_begin col_end0 val_begin val_end0 : Z)
  : fmm_error + triplet_formatter :=
  if negb (row_end0 - row_begin =? col_end0 - col_begin)
     || (negb (row_end0 - row_begin =? val_end0 - val_begin)
         && negb (val_end0 =? val_begin))
  then inl (invalid_argument
              "Row, column, and value ranges must have equal length.")
  else inr {| row_iter := row_begin; row_end := row_end0;
              col_iter := col_begin;
              val_iter := val_begin; val_end := val_end0 |}.

Definition has_next (f : triplet_formatter) : bool :=
  negb (row_iter f =? row_end f).

(** [next_chunk]: cut the next [min(chunk_size_values, remaining)] records. *)
Definition next_chunk (options : write_options) (f : triplet_formatter)
  : chunk * triplet_formatter :=
  let chunk_size := Z.min (chunk_size_values options) (row_end f - row_iter f) in
  let row_chunk_end := row_iter f + chunk_size in
  let col_chunk_end := col_iter f + chunk_size in
  let val_chunk_end :=
    if negb (val_iter f =? val_end f) then val_iter f + chunk_size
    else val_end f in
  ({| chunk_row_iter := row_iter f; chunk_row_end := row_chunk_end;
      chunk_col_iter := col_iter f;
      chunk_val_iter := val_iter f; chunk_val_end := val_chunk_end |},
   {| row_iter := row_chunk_end; row_end := row_end f;
      col_iter := col_chunk_end;
      val_iter := val_chunk_end; val_end := val_end f |}).

(** The engine's drain loop [while (f.has_next()) cs.push(f.next_chunk(o))].
    [fuel] bounds the number of iterations; [None] is "still running". *)
Fixpoint drain (fuel : nat) (options : write_options) (f : triplet_formatter)
  : option (list chunk * triplet_formatter) :=
  if has_next f then
    match fuel with
    | O => None
    | S fuel' =>
        let cf := next_chunk options f in
        match drain fuel' options (snd cf) with
        | Some (cs, f') => Some (fst cf :: cs, f')
        | None => None
        end
    end
  else Some ([], f).

Section Chunk.

(** The arrays the iterators range over, and the two text conversions of
    [fast_matrix_market.hpp] (not among the sources at hand), kept abstract. *)
Context {VT : Type}.
Variable int_to_string : Z -> string.
Variable value_to_string : VT -> string.
Variable column_value_to_string : Z -> string.
Variable COLUMN_IS_VALUE : bool.
Variables (rows cols : list Z) (vals : list VT).

(** [column_to_str<T, is_value>]: the two overloads selected by the flag. *)
Definition column_to_str (c : Z) : string :=
  if COLUMN_IS_VALUE then column_value_to_string c
  else int_to_string (c + 1).

(** The [for] loop of [chunk::operator()], with the string built so far.
    [None]: out-of-range dereference, or the loop has not ended in [fuel]
    iterations. *)
Fixpoint chunk_loop (fuel : nat) (c : chunk) (out : string) : option string :=
  if negb (chunk_row_iter c =? chunk_row_end c) then
    match fuel with
    | O => None
    | S fuel' =>
        r ← deref rows (chunk_row_iter c);
        cl ← deref cols (chunk_col_iter c);
        let out := out +:+ int_to_string (r + 1) in
        let out := out +:+ kSpace in
        let out := out +:+ column_to_str cl in
        ov ← (if negb (chunk_val_iter c =? chunk_val_end c) then
                 v ← deref vals (chunk_val_iter c);
                 Some ((out +:+ kSpace) +:+ value_to_string v,
                       chunk_val_iter c + 1)
               else Some (out, chunk_val_iter c));
        let out := fst ov +:+ kNewline in
        chunk_loop fuel'
          {| chunk_row_iter := chunk_row_iter c + 1;
             chunk_row_end := chunk_row_end c;
             chunk_col_iter := chunk_col_iter c + 1;
             chunk_val_iter := snd ov;
             chunk_val_end := chunk_val_end c |}
          out
    end
  else Some out.

(** [chunk::operator()]: start from the empty string; the loop gets as many
    iterations as the chunk has rows. *)
Definition chunk_call (c : chunk) : option string :=
  chunk_loop (Z.to_nat (chunk_row_end c - chunk_row_iter c)) c EmptyString.

(** All chunks of a drained formatter, each run, in emission order. *)
Definition run_chunks (cs : list chunk) : option (list string) :=
  mapM chunk_call cs.

End Chunk.

(** What the spec calls the body of a triplet source: one line per record,
    [row+1 col+1] or [row+1 col+1 value].  Written from the spec's words, to
    be compared with the chunks' output. *)
Section SpecBody.
Context {VT : Type}.
Variable int_to_string : Z -> string.
Variable value_to_string : VT -> string.

Definition pattern_line (r c : Z) : string :=
  int_to_string (r + 1) +:+ kSpace +:+ int_to_string (c + 1) +:+ kNewline.

Definition value_line (r c : Z) (v : VT) : string :=
  int_to_string (r + 1) +:+ kSpace +:+ int_to_string (c + 1) +:+ kSpace
    +:+ value_to_string v +:+ kNewline.

(** One line per record, in input order. *)
Fixpoint record_lines (with_values : bool) (rows cols : list Z)
    (vals : list VT) : list string :=
  match rows, cols with
  | r :: rows', c :: cols' =>
      if with_values then
        match vals with
        | v :: vals' =>
            value_line r c v :: record_lines with_values rows' cols' vals'
        | [] => []
        end
      else pattern_line r c :: record_lines with_values rows' cols' vals
  | _, _ => []
  end.

(** The value range is non-empty. *)
Definition has_values (vals : list VT) : bool :=
  match vals with [] => false | _ :: _ => true end.

Definition spec_body (rows cols : list Z) (vals : list VT) : string :=
  concat_strings (record_lines (has_values vals) rows cols vals).

End SpecBody.

(** The formatter over whole arrays, as [write_triplet] builds it: every
    range starts at position 0 and ends at the array's size. *)
Definition formatter_of_arrays {VT : Type} (rows cols : list Z)
    (vals : list VT) : fmm_error + triplet_formatter :=
  make_triplet_formatter 0 (Z.of_nat (length rows))
                         0 (Z.of_nat (length cols))
                         0 (Z.of_nat (length vals)).

(** Number of [next_chunk] calls the drain loop needs for [n] records. *)
Definition ceil_div (n c : Z) : Z := (n + c - 1) / c.

(** *** Constructor *)

(** C7. The constructor throws [invalid_argument] exactly when the row and
    column ranges differ in length, or the value range is non-empty and
    differs in length from the row range; with an empty value range
    ([val_begin = val_end]) and equally long row and column ranges it
    returns the formatter holding the given iterators. *)
Theorem make_triplet_formatter_throws_iff
    (row_begin row_end0 col_begin col_end0 val_begin val_end0 : Z) :
  ((exists e,
       make_triplet_formatter row_begin row_end0 col_begin col_end0
                              val_begin val_end0 = inl e)
   <-> (row_end0 - row_begin <> col_end0 - col_begin
        \/ (val_end0 <> val_begin
            /\ val_end0 - val_begin <> row_end0 - row_begin)))
  /\ make_triplet_formatter row_begin row_end0
       col_begin (col_begin + (row_end0 - row_begin)) val_begin val_begin
     = inr {| row_iter := row_begin; row_end := row_end0;
              col_iter := col_begin;
              val_iter := val_begin; val_end := val_begin |}.
Proof.
  unfold make_triplet_formatter. split.
  - destruct (Z.eqb_spec (row_end0 - row_begin) (col_end0 - col_begin)) as [Hrc|Hrc];
      destruct (Z.eqb_spec (row_end0 - row_begin) (val_end0 - val_begin)) as [Hrv|Hrv];
      destruct (Z.eqb_spec val_end0 val_begin) as [Hv|Hv]; simpl; split;
      try (intros _; eexists; reflexivity);
      try (intros [e He]; discriminate He);
      try (intros _; lia);
      try (intros [H|[H1 H2]]; exfalso; lia).
    all: intros _; right; split; lia.
  - replace (col_begin + (row_end0 - row_begin) - col_begin)
      with (row_end0 - row_begin) by lia.
    rewrite !Z.eqb_refl. simpl. rewrite andb_false_r. reflexivity.
Qed.

(** *** Drain loop *)

Lemma has_next_true (f : triplet_formatter) :
  has_next f = true <-> row_iter f <> row_end f.
Proof.
  unfold has_next. destruct (Z.eqb_spec (row_iter f) (row_end f)); simpl;
    split; intros; congruence.
Qed.

Lemma next_chunk_row_end (o : write_options) (f : triplet_formatter) :
  row_end (snd (next_chunk o f)) = row_end f.
Proof. reflexivity. Qed.

Lemma next_chunk_advance (o : write_options) (f : triplet_formatter) :
  row_iter (snd (next_chunk o f)) - row_iter f
  = Z.min (chunk_size_values o) (row_end f - row_iter f).
Proof. simpl. lia. Qed.

(** Each chunk returned by the loop spans the advance of the row iterator:
    [min(chunk_size_values, remaining)] records, a positive number. *)
Definition chunk_advance_ok (o : write_options) (last : Z) (ch : chunk) : Prop :=
  chunk_row_end ch - chunk_row_iter ch
    = Z.min (chunk_size_values o) (last - chunk_row_iter ch)
  /\ 0 < chunk_row_end ch - chunk_row_iter ch.

(** With [k] the least number such that [k * chunk_size_values] covers the
    remaining records, [k] iterations drain the formatter. *)
Lemma drain_exact (o : write_options) (k : nat) :
  1 <= chunk_size_values o ->
  forall f,
    row_iter f <= row_end f ->
    (Z.of_nat k - 1) * chunk_size_values o < row_end f - row_iter f
      <= Z.of_nat k * chunk_size_values o ->
    exists cs f',
      drain k o f = Some (cs, f')
      /\ length cs = k
      /\ has_next f' = false
      /\ Forall (chunk_advance_ok o (row_end f)) cs.
Proof.
  intros Hc. induction k as [|k IH]; intros f Hle Hk.
  - assert (row_iter f = row_end f) as E by lia.
    exists [], f. simpl. unfold has_next. rewrite E, Z.eqb_refl. simpl.
    repeat split; constructor.
  - assert (row_iter f <> row_end f) as Hne by nia.
    apply has_next_true in Hne as Hn.
    destruct (IH (snd (next_chunk o f))) as (cs & f' & Hd & Hl & Hh & Hall).
    + simpl. lia.
    + simpl. nia.
    + exists (fst (next_chunk o f) :: cs), f'.
      cbn [drain]. rewrite Hn, Hd. repeat split; cbn [length]; auto.
      constructor; [| exact Hall].
      unfold chunk_advance_ok. simpl. split; lia.
Qed.

(** Fewer iterations than that leave the loop running. *)
Lemma drain_short (o : write_options) (k : nat) :
  1 <= chunk_size_values o ->
  forall f,
    row_iter f <= row_end f ->
    Z.of_nat k * chunk_size_values o < row_end f - row_iter f ->
    drain k o f = None.
Proof.
  intros Hc. induction k as [|k IH]; intros f Hle Hk.
  - assert (row_iter f <> row_end f) as Hne by lia.
    apply has_next_true in Hne. simpl. now rewrite Hne.
  - assert (row_iter f <> row_end f) as Hne by nia.
    apply has_next_true in Hne. cbn [drain]. rewrite Hne.
    rewrite IH; [reflexivity | simpl; lia | simpl; nia].
Qed.

Lemma ceil_div_bounds (n c : Z) :
  1 <= c -> 0 <= n ->
  0 <= ceil_div n c /\ (ceil_div n c - 1) * c < n <= ceil_div n c * c.
Proof.
  intros Hc Hn. unfold ceil_div.
  pose proof (Z.div_mod (n + c - 1) c ltac:(lia)) as Hdm.
  pose proof (Z.mod_pos_bound (n + c - 1) c ltac:(lia)) as Hm.
  assert (0 <= (n + c - 1) / c) by (apply Z.div_pos; lia).
  split; [assumption | nia].
Qed.

(** C10. For a formatter built over [n] records and
    [chunk_size_values >= 1], the loop [while has_next(): next_chunk]
    ends after exactly [ceil(n / chunk_size_values)] calls (that many
    iterations end it with [has_next] false; no smaller number does), and
    every call advances the row iterator by
    [min(chunk_size_values, records remaining)], which is positive. *)
Theorem triplet_drain_terminates
    (o : write_options)
    (row_begin row_end0 col_begin col_end0 val_begin val_end0 : Z)
    (f : triplet_formatter) :
  row_begin <= row_end0 ->
  make_triplet_formatter row_begin row_end0 col_begin col_end0
                         val_begin val_end0 = inr f ->
  1 <= chunk_size_values o ->
  let n := row_end0 - row_begin in
  let calls := Z.to_nat (ceil_div n (chunk_size_values o)) in
  (exists cs f',
      drain calls o f = Some (cs, f')
      /\ length cs = calls
      /\ has_next f' = false
      /\ Forall (chunk_advance_ok o row_end0) cs)
  /\ (forall fuel, (fuel < calls)%nat -> drain fuel o f = None).
Proof.
  intros Hrange Hmk Hc n calls.
  unfold make_triplet_formatter in Hmk.
  destruct (_ || _) in Hmk; [discriminate |].
  injection Hmk as <-.
  destruct (ceil_div_bounds n (chunk_size_values o) Hc) as [Hk0 Hk];
    [subst n; lia |].
  split.
  - destruct (drain_exact o calls Hc
                {| row_iter := row_begin; row_end := row_end0;
                   col_iter := col_begin;
                   val_iter := val_begin; val_end := val_end0 |})
      as (cs & f' & H); simpl; try lia.
    exists cs, f'. exact H.
  - intros fuel Hfuel. apply drain_short; simpl; try lia.
    subst calls. fold n. nia.
Qed.

(** *** Text of the chunks *)

Section ChunkText.
Context {VT : Type}.
Variable int_to_string : Z -> string.
Variable value_to_string : VT -> string.
Variable column_value_to_string : Z -> string.
Variables (rows cols : list Z) (vals : list VT).

Local Abbreviation run_loop :=
  (chunk_loop int_to_string value_to_string column_value_to_string false
              rows cols vals).
Local Abbreviation lines := (record_lines int_to_string value_to_string).

(** A chunk placed on records [i, i+m) of the arrays; [hv] says whether the
    value range is non-empty. *)
Definition chunk_on (hv : bool) (i m : nat) (c : chunk) : Prop :=
  chunk_row_iter c = Z.of_nat i
  /\ chunk_row_end c = Z.of_nat (i + m)
  /\ chunk_col_iter c = Z.of_nat i
  /\ (i + m <= length rows)%nat
  /\ (i + m <= length cols)%nat
  /\ if hv then chunk_val_iter c = Z.of_nat i
                /\ chunk_val_end c = Z.of_nat (i + m)
                /\ (i + m <= length vals)%nat
     else chunk_val_iter c = chunk_val_end c.

Lemma record_lines_pattern (rs cs : list Z) (vs vs' : list VT) :
  lines false rs cs vs = lines false rs cs vs'.
Proof.
  revert cs. induction rs as [|r rs IH]; intros [|c cs]; simpl; try reflexivity.
  now rewrite IH.
Qed.

Lemma chunk_loop_lines (hv : bool) (m : nat) :
  forall (i : nat) (c : chunk) (out : string),
    chunk_on hv i m c ->
    run_loop m c out
    = Some (out +:+ concat_strings
                      (lines hv (take m (drop i rows)) (take m (drop i cols))
                             (take m (drop i vals)))).
Proof.
  induction m as [|m IH]; intros i c out (Hri & Hre & Hci & Hlr & Hlc & Hv).
  - simpl. rewrite Hri, Hre, Nat.add_0_r, Z.eqb_refl. simpl.
    now rewrite append_nil_r.
  - cbn [chunk_loop].
    destruct (Z.eqb_spec (chunk_row_iter c) (chunk_row_end c)) as [E|_];
      [lia |]. cbn [negb].
    destruct (lookup_lt_is_Some_2 rows i ltac:(lia)) as [r Hr].
    destruct (lookup_lt_is_Some_2 cols i ltac:(lia)) as [cl Hcl].
    rewrite Hri, Hci, !deref_lookup, Hr, Hcl. cbn [mbind option_bind].
    rewrite (drop_S _ _ _ Hr), (drop_S _ _ _ Hcl). cbn [take].
    destruct hv.
    + destruct Hv as (Hvi & Hve & Hlv).
      destruct (lookup_lt_is_Some_2 vals i ltac:(lia)) as [v Hval].
      destruct (Z.eqb_spec (chunk_val_iter c) (chunk_val_end c)) as [E|_];
        [lia |]. cbn [negb].
      rewrite Hvi, deref_lookup, Hval. cbn [mbind option_bind fst snd].
      rewrite (drop_S _ _ _ Hval). cbn [take lines].
      rewrite (IH (S i)).
      * f_equal. cbn [concat_strings fold_right]. unfold value_line, column_to_str.
        now rewrite !append_assoc.
      * unfold chunk_on. cbn. repeat split; lia.
    + destruct (Z.eqb_spec (chunk_val_iter c) (chunk_val_end c)) as [_|E];
        [| congruence]. cbn [negb mbind option_bind fst snd lines].
      rewrite (IH (S i)).
      * f_equal. cbn [concat_strings fold_right]. unfold pattern_line, column_to_str.
        rewrite !append_assoc.
        now rewrite (record_lines_pattern _ _ (take (S m) (drop i vals))
                       (take m (drop (S i) vals))).
      * unfold chunk_on. cbn. repeat split; lia.
Qed.

Lemma record_lines_no_cols (hv : bool) (rs : list Z) (vs : list VT) :
  lines hv rs [] vs = [].
Proof. destruct rs; reflexivity. Qed.

Lemma record_lines_no_vals (rs cs : list Z) :
  lines true rs cs [] = [].
Proof. destruct rs, cs; reflexivity. Qed.

(** Taking [m] records off the front splits the lines. *)
Lemma record_lines_split (hv : bool) (m : nat) :
  forall (rs cs : list Z) (vs : list VT),
    lines hv rs cs vs
    = lines hv (take m rs) (take m cs) (take m vs)
        ++ lines hv (drop m rs) (drop m cs) (drop m vs).
Proof.
  induction m as [|m IH]; intros rs cs vs; [reflexivity |].
  destruct rs as [|r rs]; [reflexivity |].
  destruct cs as [|c cs]; [cbn; now rewrite record_lines_no_cols |].
  destruct hv.
  - destruct vs as [|v vs]; [cbn; now rewrite record_lines_no_vals |].
    cbn. now rewrite <- IH.
  - cbn [take drop lines]. rewrite (IH rs cs vs).
    rewrite <- app_comm_cons. f_equal. f_equal; apply record_lines_pattern.
Qed.

(** Whatever a chunk returns is empty or ends with a newline. *)
Lemma chunk_loop_newline (cv : bool) (fuel : nat) :
  forall (c : chunk) (out s : string),
    chunk_loop int_to_string value_to_string column_value_to_string cv
               rows cols vals fuel c out = Some s ->
    s = out \/ ends_with_newline s.
Proof.
  induction fuel as [|fuel IH]; intros c out s H; cbn [chunk_loop] in H.
  - destruct (negb _); [discriminate | left; congruence].
  - destruct (negb (chunk_row_iter c =? chunk_row_end c));
      [| left; congruence].
    destruct (deref rows (chunk_row_iter c)) as [r|]; [| discriminate].
    destruct (deref cols (chunk_col_iter c)) as [cl|]; [| discriminate].
    cbn [mbind option_bind] in H.
    match type of H with
    | mbind _ ?x = _ => destruct x as [[o' vi]|] eqn:Ex
    end; [| discriminate].
    cbn [mbind option_bind fst snd] in H.
    right. destruct (IH _ _ _ H) as [-> | Hs]; [| exact Hs].
    now exists o'.
Qed.

Lemma chunk_call_newline (cv : bool) (c : chunk) (s : string) :
  chunk_call int_to_string value_to_string column_value_to_string cv
             rows cols vals c = Some s ->
  s <> EmptyString -> ends_with_newline s.
Proof.
  intros H Hne. destruct (chunk_loop_newline _ _ _ _ _ H); congruence.
Qed.

(** The formatter after [i] records have been handed out. *)
Definition formatter_at (hv : bool) (i : nat) : triplet_formatter :=
  {| row_iter := Z.of_nat i; row_end := Z.of_nat (length rows);
     col_iter := Z.of_nat i;
     val_iter := if hv then Z.of_nat i else 0;
     val_end := if hv then Z.of_nat (length rows) else 0 |}.

Lemma next_chunk_at (hv : bool) (o : write_options) (i : nat) :
  1 <= chunk_size_values o ->
  length cols = length rows ->
  (hv = true -> length vals = length rows) ->
  (i < length rows)%nat ->
  let m := Z.to_nat (Z.min (chunk_size_values o)
                           (Z.of_nat (length rows) - Z.of_nat i)) in
  (0 < m)%nat
  /\ (i + m <= length rows)%nat
  /\ snd (next_chunk o (formatter_at hv i)) = formatter_at hv (i + m)
  /\ chunk_on hv i m (fst (next_chunk o (formatter_at hv i)))
  /\ chunk_row_end (fst (next_chunk o (formatter_at hv i)))
       - chunk_row_iter (fst (next_chunk o (formatter_at hv i)))
     = Z.of_nat m.
Proof.
  intros Hc Hcols Hvals Hi m.
  assert (Z.of_nat m = Z.min (chunk_size_values o)
                             (Z.of_nat (length rows) - Z.of_nat i)) as Em
    by (subst m; lia).
  assert (0 < m)%nat by lia. assert (i + m <= length rows)%nat by lia.
  split; [assumption |]. split; [assumption |].
  assert (negb (Z.of_nat i =? Z.of_nat (length rows)) = true) as Hne
    by (destruct (Z.eqb_spec (Z.of_nat i) (Z.of_nat (length rows)));
        [lia | reflexivity]).
  split; [| split].
  - unfold next_chunk, formatter_at.
    cbn [snd row_iter row_end col_iter val_iter val_end].
    rewrite <- Em. destruct hv.
    + rewrite Hne. f_equal; lia.
    + cbn. f_equal; lia.
  - unfold chunk_on, next_chunk, formatter_at.
    cbn [fst row_iter row_end col_iter val_iter val_end
         chunk_row_iter chunk_row_end chunk_col_iter chunk_val_iter
         chunk_val_end].
    rewrite <- Em.
    split; [reflexivity |]. split; [lia |]. split; [reflexivity |].
    split; [lia |]. split; [lia |].
    destruct hv.
    + rewrite Hne. specialize (Hvals eq_refl).
      split; [reflexivity |]. split; lia.
    + reflexivity.
  - unfold next_chunk, formatter_at.
    cbn [fst row_iter row_end chunk_row_iter chunk_row_end]. lia.
Qed.

Local Abbreviation run :=
  (run_chunks int_to_string value_to_string column_value_to_string false
              rows cols vals).

Lemma drain_text (hv : bool) (o : write_options) (k : nat) :
  1 <= chunk_size_values o ->
  length cols = length rows ->
  (hv = true -> length vals = length rows) ->
  forall i : nat,
    (i <= length rows)%nat ->
    (Z.of_nat k - 1) * chunk_size_values o
      < Z.of_nat (length rows) - Z.of_nat i
      <= Z.of_nat k * chunk_size_values o ->
    exists cs f' strs,
      drain k o (formatter_at hv i) = Some (cs, f')
      /\ run cs = Some strs
      /\ concat_strings strs
         = concat_strings (lines hv (drop i rows) (drop i cols) (drop i vals)).
Proof.
  intros Hc Hcols Hvals. induction k as [|k IH]; intros i Hi Hk.
  - assert (i = length rows) as -> by lia.
    exists [], (formatter_at hv (length rows)), [].
    cbn [drain]. unfold has_next, formatter_at. cbn [row_iter row_end].
    rewrite Z.eqb_refl. cbn [negb].
    split; [reflexivity |]. split; [reflexivity |].
    now rewrite drop_all.
  - assert (i < length rows)%nat as Hlt by nia.
    destruct (next_chunk_at hv o i Hc Hcols Hvals Hlt)
      as (Hm0 & Hm & Hnext & Hon & Hspan).
    set (m := Z.to_nat _) in *.
    destruct (IH (i + m)%nat) as (cs & f' & strs & Hd & Hr & Hcat);
      [lia | nia |].
    pose proof (chunk_loop_lines hv m i _ EmptyString Hon) as Hloop.
    assert (chunk_call int_to_string value_to_string column_value_to_string
              false rows cols vals (fst (next_chunk o (formatter_at hv i)))
            = Some (concat_strings
                      (lines hv (take m (drop i rows)) (take m (drop i cols))
                             (take m (drop i vals))))) as Hcall.
    { unfold chunk_call. rewrite Hspan, Nat2Z.id, Hloop.
      now rewrite append_nil_l. }
    eexists (_ :: cs), f', (_ :: strs).
    split; [| split].
    + cbn [drain].
      assert (has_next (formatter_at hv i) = true) as ->
        by (apply has_next_true; cbn; lia).
      now rewrite Hnext, Hd.
    + unfold run_chunks in *. cbn [mapM].
      rewrite Hcall. cbn [mbind option_bind]. rewrite Hr. reflexivity.
    + cbn [concat_strings fold_right]. fold (concat_strings strs).
      rewrite Hcat.
      rewrite (record_lines_split hv m (drop i rows)).
      rewrite concat_strings_app, !drop_drop. reflexivity.
Qed.

End ChunkText.

Lemma drain_more_fuel (o : write_options) (k : nat) :
  forall (f : triplet_formatter) r (fuel : nat),
    drain k o f = Some r -> (k <= fuel)%nat -> drain fuel o f = Some r.
Proof.
  induction k as [|k IH]; intros f r fuel H Hle.
  - destruct fuel; [exact H |]. cbn in *. destruct (has_next f); [discriminate | exact H].
  - destruct fuel as [|fuel]; [lia |]. cbn [drain] in *.
    destruct (has_next f); [| exact H].
    destruct (drain k o (snd (next_chunk o f))) as [[cs f']|] eqn:E;
      [| discriminate].
    now rewrite (IH _ _ fuel E ltac:(lia)).
Qed.

Lemma drain_has_next (o : write_options) (k : nat) :
  forall (f f' : triplet_formatter) (cs : list chunk),
    drain k o f = Some (cs, f') -> has_next f' = false.
Proof.
  induction k as [|k IH]; intros f f' cs H; cbn [drain] in H.
  - destruct (has_next f) eqn:E; [discriminate | congruence].
  - destruct (has_next f) eqn:E; [| congruence].
    destruct (drain k o (snd (next_chunk o f))) as [[cs0 f0]|] eqn:Ed;
      [| discriminate].
    injection H as _ <-. exact (IH _ _ _ Ed).
Qed.

(** C4. For equally long row and column arrays of [n] records, a value array
    that is empty or of length [n], and [chunk_size_values >= 1]: the
    formatter is built, the drain loop ends, every chunk returns a string,
    and the strings concatenated in the order [next_chunk] returned the
    chunks are the lines [row+1 col+1] (empty value range) or
    [row+1 col+1 value] of the records in input order, each ended by a
    newline.  The right-hand side does not mention [chunk_size_values];
    every chunk that is not empty ends with a newline. *)
Theorem triplet_chunks_concat {VT : Type}
    (int_to_string : Z -> string) (value_to_string : VT -> string)
    (column_value_to_string : Z -> string)
    (rows cols : list Z) (vals : list VT)
    (o : write_options) (fuel : nat) :
  length rows = length cols ->
  vals = [] \/ length vals = length rows ->
  1 <= chunk_size_values o ->
  ceil_div (Z.of_nat (length rows)) (chunk_size_values o) <= Z.of_nat fuel ->
  exists f cs f' strs,
    formatter_of_arrays rows cols vals = inr f
    /\ drain fuel o f = Some (cs, f')
    /\ has_next f' = false
    /\ run_chunks int_to_string value_to_string column_value_to_string false
                  rows cols vals cs = Some strs
    /\ concat_strings strs
       = spec_body int_to_string value_to_string rows cols vals
    /\ Forall (fun s => s <> EmptyString -> ends_with_newline s) strs.
Proof.
  intros Hrc Hv Hc Hfuel.
  set (n := Z.of_nat (length rows)) in *.
  destruct (ceil_div_bounds n (chunk_size_values o) Hc ltac:(lia)) as [Hk0 Hk].
  set (k := Z.to_nat (ceil_div n (chunk_size_values o))).
  assert (formatter_of_arrays rows cols vals
          = inr (formatter_at rows (has_values vals) 0)) as Hmk.
  { unfold formatter_of_arrays, make_triplet_formatter, formatter_at.
    rewrite !Z.sub_0_r, <- Hrc, Z.eqb_refl. cbn [negb orb].
    destruct Hv as [-> | Hv].
    - cbn. now rewrite andb_false_r.
    - rewrite Hv, Z.eqb_refl. cbn [negb andb].
      destruct vals; [destruct rows; [reflexivity | discriminate] |].
      cbn [has_values]. now rewrite <- Hv. }
  destruct (drain_text int_to_string value_to_string column_value_to_string
              rows cols vals (has_values vals) o k Hc (eq_sym Hrc))
    with (i := 0%nat) as (cs & f' & strs & Hd & Hr & Hcat).
  - intros Hhv. destruct Hv as [-> | Hv]; [discriminate | exact Hv].
  - lia.
  - subst k. rewrite Z2Nat.id by lia. fold n. lia.
  - exists (formatter_at rows (has_values vals) 0), cs, f', strs.
    split; [exact Hmk |].
    split; [apply (drain_more_fuel o k); [exact Hd | lia] |].
    split; [exact (drain_has_next _ _ _ _ _ Hd) |].
    split; [exact Hr |].
    split; [exact Hcat |].
    unfold run_chunks in Hr. apply mapM_Some in Hr. clear -Hr.
    induction Hr as [|c s cs' strs' Hc1 _ IH]; constructor; [| exact IH].
    exact (chunk_call_newline _ _ _ _ _ _ _ _ _ Hc1).
Qed.

(** *** Concrete instances *)

(** A decimal integer printer, used to instantiate the abstract
    [int_to_string] and [value_to_string] at concrete inputs. *)
Definition decimal (z : Z) : string := NilZero.string_of_int (Z.to_int z).

Definition options2 : write_options := {| chunk_size_values := 2 |}.

Lemma triplet_drain_terminates_witness :
  (exists cs f',
      drain 3 options2
        {| row_iter := 0; row_end := 5; col_iter := 0;
           val_iter := 0; val_end := 5 |} = Some (cs, f')
      /\ length cs = 3%nat
      /\ has_next f' = false
      /\ Forall (chunk_advance_ok options2 5) cs)
  /\ (forall fuel, (fuel < 3)%nat ->
        drain fuel options2
          {| row_iter := 0; row_end := 5; col_iter := 0;
             val_iter := 0; val_end := 5 |} = None).
Proof.
  apply (triplet_drain_terminates options2 0 5 0 5 0 5).
  - lia.
  - reflexivity.
  - simpl. lia.
Defined.

Lemma triplet_chunks_concat_witness :
  exists f cs f' strs,
    formatter_of_arrays [0; 1; 2] [1; 2; 0] [7; 8; 9] = inr f
    /\ drain 2 options2 f = Some (cs, f')
    /\ has_next f' = false
    /\ run_chunks decimal decimal decimal false
                  [0; 1; 2] [1; 2; 0] [7; 8; 9] cs = Some strs
    /\ concat_strings strs
       = spec_body decimal decimal [0; 1; 2] [1; 2; 0] [7; 8; 9]
    /\ Forall (fun s => s <> EmptyString -> ends_with_newline s) strs.
Proof.
  apply (triplet_chunks_concat decimal decimal decimal
           [0; 1; 2] [1; 2; 0] [7; 8; 9] options2 2).
  - reflexivity.
  - right. reflexivity.
  - simpl. lia.
  - vm_compute. discriminate.
Defined.

(** The same three records written with chunk sizes 1, 2 and 5. *)
Example triplet_text_3_records :
  forall c, In c [1; 2; 5] ->
    (let o := {| chunk_size_values := c |} in
     match formatter_of_arrays [0; 1; 2] [1; 2; 0] [7; 8; 9] with
     | inr f =>
         match drain 3 o f with
         | Some (cs, _) =>
             option_map concat_strings
               (run_chunks decimal decimal decimal false
                           [0; 1; 2] [1; 2; 0] [7; 8; 9] cs)
         | None => None
         end
     | inl _ => None
     end)
    = Some ("1 2 7" +:+ kNewline +:+ "2 3 8" +:+ kNewline
              +:+ "3 1 9" +:+ kNewline).
Proof.
  intros c [<- | [<- | [<- | []]]]; vm_compute; reflexivity.
Qed.

End Triplet.

(** ** Compressed-column formatter *)

Module Csc.

(** [(double)z] for a 64-bit integer [- 2^63 <= z < 2^63]: round to
    nearest, as the hardware conversion does.  [of_uint63] converts a
    magnitude below [2^63]; the one 64-bit integer whose magnitude is not
    below it, [- 2^63], is a power of two and converts exactly. *)
Definition double_of_int64 (z : Z) : float :=
  if z =? - 2 ^ 63 then
    PrimFloat.opp
      (PrimFloat.mul (PrimFloat.of_uint63 (Uint63.of_Z (2 ^ 62)))
                     (PrimFloat.of_uint63 (Uint63.of_Z 2)))
  else if z <? 0 then PrimFloat.opp (PrimFloat.of_uint63 (Uint63.of_Z (- z)))
  else PrimFloat.of_uint63 (Uint63.of_Z z).

(** [(int64_t)x] for a double: truncation toward zero.  NaN, the infinities
    and values outside the 64-bit range are undefined behaviour ([None]). *)
Definition int64_of_double (x : float) : option Z :=
  match Prim2SF x with
  | S754_zero _ => Some 0
  | S754_finite s m e =>
      let a := Z.shiftl (Z.pos m) e in
      let z := if s then - a else a in
      if (- 2 ^ 63 <=? z) && (z <? 2 ^ 63) then Some z else None
  | S754_infinity _ | S754_nan => None
  end.

(** State of [csc_formatter]. *)
Record csc_formatter : Type := {
  ptr_begin : Z; ptr_iter : Z; ptr_end : Z;
  ind_begin : Z;
  val_begin : Z; val_end : Z;
  transpose : bool;
  nnz_per_column : float
}.

(** State of [csc_formatter::chunk]: the columns [chunk_ptr_iter,
    chunk_ptr_end) are the work unit. *)
Record chunk : Type := {
  chunk_ptr_begin : Z; chunk_ptr_iter : Z; chunk_ptr_end : Z;
  chunk_ind_begin : Z;
  chunk_val_begin : Z; chunk_val_end : Z;
  chunk_transpose : bool
}.

(** The constructor: the length check, then the estimate
    [nnz_per_column = (double)nnz / num_columns]. *)
Definition make_csc_formatter
    (ptr_begin0 ptr_end0 ind_begin0 ind_end0 val_begin0 val_end0 : Z)
    (transpose0 : bool) : fmm_error + csc_formatter :=
  if negb (ind_end0 - ind_begin0 =? val_end0 - val_begin0)
     && negb (val_end0 =? val_begin0)
  then inl (invalid_argument
              "Index and value ranges must have equal length.")
  else
    let num_columns := ptr_end0 - ptr_begin0 in
    let nnz := ind_end0 - ind_begin0 in
    inr {| ptr_begin := ptr_begin0; ptr_iter := ptr_begin0;
           ptr_end := ptr_end0;
           ind_begin := ind_begin0;
           val_begin := val_begin0; val_end := val_end0;
           transpose := transpose0;
           nnz_per_column :=
             PrimFloat.div (double_of_int64 nnz)
                           (double_of_int64 num_columns) |}.

Definition has_next (f : csc_formatter) : bool :=
  negb (ptr_iter f =? ptr_end f).

(** [next_chunk]:
    [num_columns = (int64_t)(nnz_per_column * (double)chunk_size_values + 1)],
    capped by the columns that remain. *)
Definition next_chunk (options : write_options) (f : csc_formatter)
  : option (chunk * csc_formatter) :=
  num_columns ←
    int64_of_double
      (PrimFloat.add
         (PrimFloat.mul (nnz_per_column f)
                        (double_of_int64 (chunk_size_values options)))
         (double_of_int64 1));
  let num_columns := Z.min num_columns (ptr_end f - ptr_iter f) in
  let ptr_chunk_end := ptr_iter f + num_columns in
  Some ({| chunk_ptr_begin := ptr_begin f; chunk_ptr_iter := ptr_iter f;
           chunk_ptr_end := ptr_chunk_end;
           chunk_ind_begin := ind_begin f;
           chunk_val_begin := val_begin f; chunk_val_end := val_end f;
           chunk_transpose := transpose f |},
        {| ptr_begin := ptr_begin f; ptr_iter := ptr_chunk_end;
           ptr_end := ptr_end f;
           ind_begin := ind_begin f;
           val_begin := val_begin f; val_end := val_end f;
           transpose := transpose f;
           nnz_per_column := nnz_per_column f |}).

(** Columns in a work unit, and the records they hold according to the
    pointer array [ptrs]. *)
Definition chunk_columns (c : chunk) : Z := chunk_ptr_end c - chunk_ptr_iter c.

Definition chunk_records (ptrs : list Z) (c : chunk) : option Z :=
  hi ← deref ptrs (chunk_ptr_end c);
  lo ← deref ptrs (chunk_ptr_iter c);
  Some (hi - lo).

(** The partition the spec describes, written from its words:
    [ceil(chunk_size_values / nnz_per_column)] columns with
    [nnz_per_column = nnz / ncols], capped by the columns remaining.  In
    exact arithmetic the quotient is [chunk_size_values * ncols / nnz]. *)
Definition spec_columns (nnz ncols chunk_size remaining : Z) : Z :=
  Z.min ((chunk_size * ncols + nnz - 1) / nnz) remaining.

(** A matrix with 10 columns of 10 entries each, written with
    [chunk_size_values = 20]. *)
Definition ptrs_10x10 : list Z := [0; 10; 20; 30; 40; 50; 60; 70; 80; 90; 100].
Definition options20 : write_options := {| chunk_size_values := 20 |}.

(** C5 (evaluation of the code where it departs from the claim).  With
    [nnz = 100], [ncols = 10] and [chunk_size_values = 20] the estimate is
    [nnz_per_column = 10]; [next_chunk] computes [10 * 20 + 1 = 201] columns
    and, after the cap, hands out all 10 columns (100 records) as one work
    unit, where [ceil(20 / 10) = 2] columns (20 records) are claimed.  On a
    sparser matrix ([nnz = 5], [ncols = 10], [chunk_size_values = 4],
    estimate [0.5]) it hands out [0.5 * 4 + 1 = 3] columns where
    [ceil(4 / 0.5) = 8] are claimed. *)
Theorem csc_next_chunk_multiplies :
  (exists f c f',
      make_csc_formatter 0 10 0 100 0 100 false = inr f
      /\ next_chunk options20 f = Some (c, f')
      /\ chunk_columns c = 10
      /\ chunk_records ptrs_10x10 c = Some 100
      /\ has_next f' = false
      /\ spec_columns 100 10 20 10 = 2)
  /\ (exists f c f',
      make_csc_formatter 0 10 0 5 0 5 false = inr f
      /\ next_chunk {| chunk_size_values := 4 |} f = Some (c, f')
      /\ chunk_columns c = 3
      /\ spec_columns 5 10 4 10 = 8).
Proof.
  split.
  - eexists _, _, _. split; [reflexivity |]. split; [vm_compute; reflexivity |].
    repeat split.
  - eexists _, _, _. split; [reflexivity |]. split; [vm_compute; reflexivity |].
    repeat split.
Qed.

End Csc.

(** ** Dense formatters *)

Module Dense.

(** [storage_order] of [fast_matrix_market.hpp]. *)
Inductive storage_order : Type := row_major | col_major.

(** State of [array_formatter]; [values] is the position of the first
    element in the array the iterator ranges over. *)
Record array_formatter : Type := {
  values : Z;
  order : storage_order;
  nrows : Z; ncols : Z;
  cur_col : Z
}.

(** [array_formatter::chunk] has the same members; [cur_col] is the one
    column the chunk writes. *)
Definition make_array_formatter (values0 : Z) (order0 : storage_order)
    (nrows0 ncols0 : Z) : array_formatter :=
  {| values := values0; order := order0; nrows := nrows0; ncols := ncols0;
     cur_col := 0 |}.

Definition has_next (f : array_formatter) : bool :=
  negb (cur_col f =? ncols f).

(** [next_chunk]: [chunk(values, order, nrows, ncols, cur_col++)]. *)
Definition next_chunk (f : array_formatter) : array_formatter * array_formatter :=
  (f, {| values := values f; order := order f; nrows := nrows f;
         ncols := ncols f; cur_col := cur_col f + 1 |}).

Fixpoint drain (fuel : nat) (f : array_formatter)
  : option (list array_formatter) :=
  if has_next f then
    match fuel with
    | O => None
    | S fuel' =>
        let cf := next_chunk f in
        cs ← drain fuel' (snd cf); Some (fst cf :: cs)
    end
  else Some [].

(** State of the older [row_major_array_formatter] (and of its chunk):
    a [std::vector] of values, read by index. *)
Record row_major_array_formatter : Type := {
  rm_nrows : Z; rm_ncols : Z;
  rm_cur_row : Z
}.

Section Arrays.
Context {VT : Type}.
Variable value_to_string : VT -> string.
Variable data : list VT.

(** The [for (row = 0; row < nrows; ++row)] loop of
    [array_formatter::chunk::operator()]. *)
Fixpoint array_chunk_loop (fuel : nat) (c : array_formatter) (row : Z)
    (out : string) : option string :=
  if row <? nrows c then
    match fuel with
    | O => None
    | S fuel' =>
        let offset :=
          match order c with
          | row_major => row * ncols c + cur_col c
          | col_major => cur_col c * nrows c + row
          end in
        v ← deref data (values c + offset);
        let out := out +:+ value_to_string v in
        let out := out +:+ kNewline in
        array_chunk_loop fuel' c (row + 1) out
    end
  else Some out.

Definition array_chunk_call (c : array_formatter) : option string :=
  array_chunk_loop (Z.to_nat (nrows c)) c 0 EmptyString.

(** Drain the formatter and run every chunk, in emission order. *)
Definition array_formatter_text (fuel : nat) (f : array_formatter)
  : option string :=
  cs ← drain fuel f;
  strs ← mapM array_chunk_call cs;
  Some (concat_strings strs).

(** [row_major_array_formatter(values, nrows)]: [ncols] is
    [values.size() / nrows], an unsigned 64-bit division ([nrows] is
    converted to [size_t]); division by zero is undefined behaviour. *)
Definition make_row_major_array_formatter (nrows0 : Z)
  : option row_major_array_formatter :=
  let d := nrows0 mod 2 ^ 64 in
  if d =? 0 then None
  else Some {| rm_nrows := nrows0;
               rm_ncols := Z.of_nat (length data) / d;
               rm_cur_row := 0 |}.

Definition rm_has_next (f : row_major_array_formatter) : bool :=
  negb (rm_cur_row f =? rm_nrows f).

(** [next_chunk]: [chunk(values, nrows, ncols, cur_row++)]. *)
Definition rm_next_chunk (f : row_major_array_formatter)
  : row_major_array_formatter * row_major_array_formatter :=
  (f, {| rm_nrows := rm_nrows f; rm_ncols := rm_ncols f;
         rm_cur_row := rm_cur_row f + 1 |}).

Fixpoint rm_drain (fuel : nat) (f : row_major_array_formatter)
  : option (list row_major_array_formatter) :=
  if rm_has_next f then
    match fuel with
    | O => None
    | S fuel' =>
        let cf := rm_next_chunk f in
        cs ← rm_drain fuel' (snd cf); Some (fst cf :: cs)
    end
  else Some [].

(** The [for (i = 0; i < ncols; ++i)] loop of
    [row_major_array_formatter::chunk::operator()]. *)
Fixpoint rm_chunk_loop (fuel : nat) (c : row_major_array_formatter) (i : Z)
    (out : string) : option string :=
  if i <? rm_ncols c then
    match fuel with
    | O => None
    | S fuel' =>
        v ← deref data (rm_cur_row c * rm_ncols c + i);
        let out := out +:+ value_to_string v in
        let out := out +:+ kNewline in
        rm_chunk_loop fuel' c (i + 1) out
    end
  else Some out.

Definition rm_chunk_call (c : row_major_array_formatter) : option string :=
  rm_chunk_loop (Z.to_nat (rm_ncols c)) c 0 EmptyString.

Definition row_major_array_formatter_text (fuel : nat) (nrows0 : Z)
  : option string :=
  f ← make_row_major_array_formatter nrows0;
  cs ← rm_drain fuel f;
  strs ← mapM rm_chunk_call cs;
  Some (concat_strings strs).

(** Element [(row, col)] of the [nrows]-by-[ncols] matrix stored in [data]
    in the given order. *)
Definition element (o : storage_order) (nrows0 ncols0 row col : nat)
  : option VT :=
  match o with
  | row_major => data !! (row * ncols0 + col)%nat
  | col_major => data !! (col * nrows0 + row)%nat
  end.

(** The body the spec describes, written from its words: one value per
    line, column by column, rows running fastest. *)
Definition column_major_text (o : storage_order) (nrows0 ncols0 : nat)
  : option string :=
  ls ← mapM (fun col =>
               vs ← mapM (fun row => element o nrows0 ncols0 row col)
                         (seq 0 nrows0);
               Some (concat_strings
                       (map (fun v => value_to_string v +:+ kNewline) vs)))
            (seq 0 ncols0);
  Some (concat_strings ls).

End Arrays.

Section ArrayFormatterText.
Context {VT : Type}.
Variable value_to_string : VT -> string.
Variable data : list VT.

Local Abbreviation line := (fun v => value_to_string v +:+ kNewline).

(** The formatter of an [R]-by-[C] matrix stored from position 0, after [j]
    columns have been handed out. *)
Definition array_formatter_at (o : storage_order) (R C j : nat)
  : array_formatter :=
  {| values := 0; order := o; nrows := Z.of_nat R; ncols := Z.of_nat C;
     cur_col := Z.of_nat j |}.

(** Text of column [j] as the spec words it: rows [0 .. R-1] in order. *)
Definition column_text (o : storage_order) (R C j : nat) : option string :=
  vs ← mapM (fun row => element data o R C row j) (seq 0 R);
  Some (concat_strings (map line vs)).

Lemma array_chunk_loop_rows (o : storage_order) (R C j m : nat) :
  forall (r0 : nat) (out : string),
    (r0 + m = R)%nat ->
    array_chunk_loop value_to_string data m (array_formatter_at o R C j)
                     (Z.of_nat r0) out
    = vs ← mapM (fun row => element data o R C row j) (seq r0 m);
      Some (out +:+ concat_strings (map line vs)).
Proof.
  induction m as [|m IH]; intros r0 out Hr.
  - cbn [array_chunk_loop seq mapM]. unfold array_formatter_at. cbn [nrows].
    destruct (Z.ltb_spec (Z.of_nat r0) (Z.of_nat R)); [lia |].
    cbn. now rewrite append_nil_r.
  - cbn [array_chunk_loop seq mapM].
    unfold array_formatter_at at 1. cbn [nrows].
    destruct (Z.ltb_spec (Z.of_nat r0) (Z.of_nat R)); [| lia].
    assert (deref data
              (values (array_formatter_at o R C j)
               + match order (array_formatter_at o R C j) with
                 | row_major => Z.of_nat r0 * ncols (array_formatter_at o R C j)
                                + cur_col (array_formatter_at o R C j)
                 | col_major => cur_col (array_formatter_at o R C j)
                                * nrows (array_formatter_at o R C j)
                                + Z.of_nat r0
                 end)
            = element data o R C r0 j) as ->.
    { unfold array_formatter_at, element. cbn [values order ncols nrows cur_col].
      destruct o.
      - replace (0 + (Z.of_nat r0 * Z.of_nat C + Z.of_nat j))
          with (Z.of_nat (r0 * C + j)) by lia. apply deref_lookup.
      - replace (0 + (Z.of_nat j * Z.of_nat R + Z.of_nat r0))
          with (Z.of_nat (j * R + r0)) by lia. apply deref_lookup. }
    destruct (element data o R C r0 j) as [v|]; [| reflexivity].
    cbn [mbind option_bind].
    replace (Z.of_nat r0 + 1) with (Z.of_nat (S r0)) by lia.
    rewrite IH by lia.
    destruct (mapM _ (seq (S r0) m)) as [vs|]; [| reflexivity].
    cbn. now rewrite !append_assoc.
Qed.

Lemma array_chunk_call_column (o : storage_order) (R C j : nat) :
  array_chunk_call value_to_string data (array_formatter_at o R C j)
  = column_text o R C j.
Proof.
  unfold array_chunk_call, column_text.
  change (nrows (array_formatter_at o R C j)) with (Z.of_nat R).
  rewrite Nat2Z.id.
  pose proof (array_chunk_loop_rows o R C j R 0 EmptyString eq_refl) as H.
  change (Z.of_nat 0) with 0 in H. rewrite H.
  destruct (mapM _ (seq 0 R)); reflexivity.
Qed.

Lemma array_drain_columns (o : storage_order) (R C k : nat) :
  forall j : nat,
    (j + k = C)%nat ->
    drain k (array_formatter_at o R C j)
    = Some (map (array_formatter_at o R C) (seq j k)).
Proof.
  induction k as [|k IH]; intros j Hj; cbn [drain seq map].
  - unfold has_next, array_formatter_at. cbn [cur_col ncols].
    replace j with C by lia. now rewrite Z.eqb_refl.
  - unfold has_next. cbn [array_formatter_at cur_col ncols].
    destruct (Z.eqb_spec (Z.of_nat j) (Z.of_nat C)); [lia |]. cbn [negb].
    assert (snd (next_chunk (array_formatter_at o R C j))
            = array_formatter_at o R C (S j)) as ->.
    { unfold next_chunk, array_formatter_at. cbn. f_equal. lia. }
    rewrite IH by lia. reflexivity.
Qed.

(** [array_formatter] writes column-major text for both storage orders. *)
Lemma array_formatter_column_major (o : storage_order) (R C : nat) :
  array_formatter_text value_to_string data C
    (make_array_formatter 0 o (Z.of_nat R) (Z.of_nat C))
  = column_major_text value_to_string data o R C.
Proof.
  unfold array_formatter_text, column_major_text.
  change (make_array_formatter 0 o (Z.of_nat R) (Z.of_nat C))
    with (array_formatter_at o R C 0).
  rewrite (array_drain_columns o R C C 0) by lia. cbn [mbind option_bind].
  assert (forall l,
             mapM (array_chunk_call value_to_string data)
                  (map (array_formatter_at o R C) l)
             = mapM (fun col =>
                       vs ← mapM (fun row => element data o R C row col)
                                 (seq 0 R);
                       Some (concat_strings (map line vs))) l) as ->;
    [| reflexivity].
  induction l as [|j l IH]; [reflexivity |].
  cbn [map mapM]. rewrite IH, array_chunk_call_column. reflexivity.
Qed.

End ArrayFormatterText.

Section RowMajorFormatterText.
Context {VT : Type}.
Variable value_to_string : VT -> string.
Variable data : list VT.

Local Abbreviation line := (fun v => value_to_string v +:+ kNewline).

Definition row_major_formatter_at (R C i : nat) : row_major_array_formatter :=
  {| rm_nrows := Z.of_nat R; rm_ncols := Z.of_nat C;
     rm_cur_row := Z.of_nat i |}.

(** Text of row [i]: columns [0 .. C-1] in order. *)
Definition row_text (C i : nat) : option string :=
  vs ← mapM (fun col => data !! (i * C + col)%nat) (seq 0 C);
  Some (concat_strings (map line vs)).

Lemma rm_chunk_loop_cols (R C i m : nat) :
  forall (c0 : nat) (out : string),
    (c0 + m = C)%nat ->
    rm_chunk_loop value_to_string data m (row_major_formatter_at R C i)
                  (Z.of_nat c0) out
    = vs ← mapM (fun col => data !! (i * C + col)%nat) (seq c0 m);
      Some (out +:+ concat_strings (map line vs)).
Proof.
  induction m as [|m IH]; intros c0 out Hc.
  - cbn [rm_chunk_loop seq mapM].
    change (rm_ncols (row_major_formatter_at R C i)) with (Z.of_nat C).
    destruct (Z.ltb_spec (Z.of_nat c0) (Z.of_nat C)); [lia |].
    cbn. now rewrite append_nil_r.
  - cbn [rm_chunk_loop seq mapM].
    change (rm_ncols (row_major_formatter_at R C i)) with (Z.of_nat C).
    change (rm_cur_row (row_major_formatter_at R C i)) with (Z.of_nat i).
    destruct (Z.ltb_spec (Z.of_nat c0) (Z.of_nat C)); [| lia].
    replace (Z.of_nat i * Z.of_nat C + Z.of_nat c0)
      with (Z.of_nat (i * C + c0)) by lia.
    rewrite deref_lookup.
    destruct (data !! (i * C + c0)%nat) as [v|]; [| reflexivity].
    cbn [mbind option_bind].
    replace (Z.of_nat c0 + 1) with (Z.of_nat (S c0)) by lia.
    rewrite IH by lia.
    destruct (mapM _ (seq (S c0) m)) as [vs|]; [| reflexivity].
    cbn. now rewrite !append_assoc.
Qed.

Lemma rm_chunk_call_row (R C i : nat) :
  rm_chunk_call value_to_string data (row_major_formatter_at R C i)
  = row_text C i.
Proof.
  unfold rm_chunk_call, row_text.
  change (rm_ncols (row_major_formatter_at R C i)) with (Z.of_nat C).
  rewrite Nat2Z.id.
  pose proof (rm_chunk_loop_cols R C i C 0 EmptyString eq_refl) as H.
  change (Z.of_nat 0) with 0 in H. rewrite H.
  destruct (mapM _ (seq 0 C)); reflexivity.
Qed.

Lemma rm_drain_rows (R C k : nat) :
  forall i : nat,
    (i + k = R)%nat ->
    rm_drain k (row_major_formatter_at R C i)
    = Some (map (row_major_formatter_at R C) (seq i k)).
Proof.
  induction k as [|k IH]; intros i Hi; cbn [rm_drain seq map].
  - unfold rm_has_next, row_major_formatter_at. cbn [rm_cur_row rm_nrows].
    replace i with R by lia. now rewrite Z.eqb_refl.
  - unfold rm_has_next. cbn [row_major_formatter_at rm_cur_row rm_nrows].
    destruct (Z.eqb_spec (Z.of_nat i) (Z.of_nat R)); [lia |]. cbn [negb].
    assert (snd (rm_next_chunk (row_major_formatter_at R C i))
            = row_major_formatter_at R C (S i)) as ->.
    { unfold rm_next_chunk, row_major_formatter_at. cbn. f_equal. lia. }
    rewrite IH by lia. reflexivity.
Qed.

(** [row_major_array_formatter] over an [R]-by-[C] matrix writes the rows
    one after the other, that is, the values in storage order. *)
Lemma row_major_array_formatter_row_major (R C : nat) :
  (0 < R)%nat -> Z.of_nat R < 2 ^ 64 ->
  length data = (R * C)%nat ->
  row_major_array_formatter_text value_to_string data R (Z.of_nat R)
  = ls ← mapM (row_text C) (seq 0 R); Some (concat_strings ls).
Proof.
  intros HR Hfit Hlen.
  unfold row_major_array_formatter_text, make_row_major_array_formatter.
  rewrite Z.mod_small by lia.
  destruct (Z.eqb_spec (Z.of_nat R) 0); [lia |].
  cbn [mbind option_bind].
  assert (Z.of_nat (length data) / Z.of_nat R = Z.of_nat C) as ->.
  { rewrite Hlen, Nat2Z.inj_mul, Z.mul_comm. apply Z.div_mul. lia. }
  change {| rm_nrows := Z.of_nat R; rm_ncols := Z.of_nat C; rm_cur_row := 0 |}
    with (row_major_formatter_at R C 0).
  rewrite (rm_drain_rows R C R 0) by lia. cbn [mbind option_bind].
  assert (forall l,
             mapM (rm_chunk_call value_to_string data)
                  (map (row_major_formatter_at R C) l)
             = mapM (row_text C) l) as ->; [| reflexivity].
  induction l as [|j l IH]; [reflexivity |].
  cbn [map mapM]. rewrite IH, rm_chunk_call_row. reflexivity.
Qed.

End RowMajorFormatterText.

(** One value per line, for the values in [zs]. *)
Definition value_lines (zs : list Z) : string :=
  concat_strings (map (fun z => Triplet.decimal z +:+ kNewline) zs).

(** The 2-by-3 matrix [[1 2 3] [4 5 6]] in row-major storage. *)
Definition m23_row_major : list Z := [1; 2; 3; 4; 5; 6].

(** C2 (evaluation of the code where it departs from the claim).  For the
    2-by-3 matrix [[1 2 3] [4 5 6]] held row-major, column-major order is
    1 4 2 5 3 6.  [array_formatter] with [order = row_major] writes exactly
    that, whereas [row_major_array_formatter] writes the storage order
    1 2 3 4 5 6 (one chunk per row). *)
Theorem row_major_array_formatter_writes_row_major :
  row_major_array_formatter_text Triplet.decimal m23_row_major 2 2
    = Some (value_lines [1; 2; 3; 4; 5; 6])
  /\ column_major_text Triplet.decimal m23_row_major row_major 2 3
    = Some (value_lines [1; 4; 2; 5; 3; 6])
  /\ array_formatter_text Triplet.decimal m23_row_major 3
       (make_array_formatter 0 row_major 2 3)
    = Some (value_lines [1; 4; 2; 5; 3; 6])
  /\ value_lines [1; 2; 3; 4; 5; 6] <> value_lines [1; 4; 2; 5; 3; 6].
Proof.
  split; [vm_compute; reflexivity |].
  split; [vm_compute; reflexivity |].
  split; [vm_compute; reflexivity |].
  vm_compute. discriminate.
Qed.

End Dense.

(** ** Parallel read engine: [read_body_threads] *)

Module ReadEngine.

(** The model has four parts.  The input stream is the list of chunks that
    [get_next_chunk] will return (the chunker is not among the sources at
    hand).  The thread pool is known by its interface only: a submitted
    task finishes at some later time, [get_tasks_total] counts the tasks
    the pool has not yet taken off its count, and [wait_for_tasks] returns
    when that count is zero.  The main thread is a transition function
    that follows [read_body_threads] statement by statement.  A parse task
    is recorded as the call it will make; what the parsers do with a chunk
    is outside this function. *)

(** The header fields [read_body_threads] reads. *)
Inductive object_type : Type := matrix | vector.
Inductive format_type : Type := array | coordinate.

Record matrix_market_header : Type := {
  object : object_type;
  format : format_type;
  nrows : Z;
  ncols : Z;
  header_line_count : Z
}.

Definition newline : ascii := ascii_of_nat 10.

(** Modelled from the spec: [count_lines] lives in [fast_matrix_market.hpp],
    which is not among the sources at hand.  It returns the number of
    newline-terminated lines, plus one if the chunk ends without a trailing
    newline and has content after the last newline.  [partial] records
    whether characters were seen since the last newline. *)
Fixpoint count_lines_from (s : string) (partial : bool) : Z :=
  match s with
  | EmptyString => if partial then 1 else 0
  | String a s' =>
      if Ascii.eqb a newline then 1 + count_lines_from s' false
      else count_lines_from s' true
  end.

Definition count_lines (s : string) : Z := count_lines_from s false.
Arguments count_lines : simpl never.

(** [struct line_count_result] with its default member initialisers. *)
Record line_count_result : Type := {
  chunk : string;
  chunk_line_start : Z;
  chunk_line_count : Z
}.

Definition new_line_count_result (c : string) : line_count_result :=
  {| chunk := c; chunk_line_start := -1; chunk_line_count := -1 |}.

Definition count_chunk_lines (lcr : line_count_result) : line_count_result :=
  {| chunk := chunk lcr;
     chunk_line_start := chunk_line_start lcr;
     chunk_line_count := count_lines (chunk lcr) |}.

(** A [std::future<line_count_result>] of a task submitted to the pool.
    The task holds its argument until a worker has run it; then the future
    holds the result.  The pool takes the task off its count only after the
    task has returned, so a ready future may belong to a task the pool
    still counts ([counted]). *)
Inductive future : Type :=
| pending (arg : line_count_result)
| ready (result : line_count_result) (counted : bool).

Definition is_ready (f : future) : bool :=
  match f with pending _ => false | ready _ _ => true end.

Definition is_counted (f : future) : bool :=
  match f with pending _ => true | ready _ c => c end.

Definition future_chunk (f : future) : string :=
  match f with pending l | ready l _ => chunk l end.

(** The three parse tasks the engine submits.  Each carries what its lambda
    captured: the chunk, [lcr.chunk_line_start], the argument that
    [handler.get_chunk_handler] was called with, and for array files the
    starting [row] and [col]. *)
Inductive parse_call : Type :=
| read_chunk_array (c : string) (line_start handler_offset row col : Z)
| read_chunk_matrix_coordinate (c : string) (line_start handler_offset : Z)
| read_chunk_vector_coordinate (c : string) (line_start handler_offset : Z).

Definition call_chunk (p : parse_call) : string :=
  match p with
  | read_chunk_array c _ _ _ _
  | read_chunk_matrix_coordinate c _ _
  | read_chunk_vector_coordinate c _ _ => c
  end.

Definition call_line_start (p : parse_call) : Z :=
  match p with
  | read_chunk_array _ l _ _ _
  | read_chunk_matrix_coordinate _ l _
  | read_chunk_vector_coordinate _ l _ => l
  end.

Definition call_handler_offset (p : parse_call) : Z :=
  match p with
  | read_chunk_array _ _ o _ _
  | read_chunk_matrix_coordinate _ _ o
  | read_chunk_vector_coordinate _ _ o => o
  end.

Definition call_array_start (p : parse_call) : option (Z * Z) :=
  match p with
  | read_chunk_array _ _ _ row col => Some (row, col)
  | _ => None
  end.

(** Where the main thread stands in the function body. *)
Inductive control : Type :=
| Seeding (seed_i : Z)      (* in the [for] loop that seeds the queue *)
| Looping                   (* at the head of the [while] loop *)
| Popping                   (* in the loop body: the replacement's future
                               is pushed, [front().get()] comes next *)
| Waiting                   (* in [pool.wait_for_tasks()] *)
| Returned (result : Z).    (* after [return line_num] *)

(** The state of one call.  [instream] lists the chunks [get_next_chunk]
    will return, in order; the stream is [good()] while some remain.
    [line_count_futures] is the FIFO, front first.  [retiring] counts the
    line-count tasks whose future has been taken off the FIFO while the
    pool still counts them.  [parse_tasks] lists the parse tasks in
    submission order, each with a flag telling whether a worker has
    finished it. *)
Record engine : Type := {
  pc : control;
  instream : list string;
  line_num : Z;
  line_count_futures : list future;
  retiring : nat;
  parse_tasks : list (parse_call * bool)
}.

Definition good (s : engine) : bool :=
  match instream s with [] => false | _ :: _ => true end.

(** Number of elements of a list that satisfy a test. *)
Fixpoint count_if {A : Type} (p : A -> bool) (l : list A) : nat :=
  match l with
  | [] => 0
  | x :: l' => (if p x then 1 else 0) + count_if p l'
  end.

Definition pending_counts (q : list future) : nat :=
  count_if (fun f => negb (is_ready f)) q.

Definition counted_futures (q : list future) : nat :=
  count_if is_counted q.

Definition unfinished_parses (p : list (parse_call * bool)) : nat :=
  count_if (fun t => negb (snd t)) p.

(** [pool.get_tasks_total()]: tasks submitted that the pool has not yet
    taken off its count. *)
Definition get_tasks_total (s : engine) : Z :=
  Z.of_nat (counted_futures (line_count_futures s) + retiring s
            + unfinished_parses (parse_tasks s)).

(** [const unsigned inflight_count = 10 * pool.get_thread_count()]. *)
Definition inflight_count (thread_count : Z) : Z :=
  (10 * thread_count) mod 2 ^ 32.
Arguments inflight_count : simpl never.

(** [lcr.chunk = get_next_chunk(instream, options);
     line_count_futures.push(pool.submit(count_chunk_lines, lcr))]. *)
Definition read_and_submit (s : engine) : engine :=
  match instream s with
  | [] => s
  | c :: rest =>
      {| pc := pc s; instream := rest; line_num := line_num s;
         line_count_futures :=
           line_count_futures s ++ [pending (new_line_count_result c)];
         retiring := retiring s;
         parse_tasks := parse_tasks s |}
  end.

(** 64-bit [%] and [/]: truncating; a zero divisor is undefined behaviour. *)
Definition int64_rem (a b : Z) : option Z :=
  if b =? 0 then None else Some (Z.rem a b).
Definition int64_quot (a b : Z) : option Z :=
  if b =? 0 then None else Some (Z.quot a b).

Section Steps.
Variable header : matrix_market_header.
Variable thread_count : Z.

(** The body of the [if] branch of the [while] loop from
    [line_count_futures.front().get()] on, for the ready front future
    (result [front]; [counted] as in [ready]) and the rest [rest] of the
    queue: the front is popped, the chunk gets its line start, and its
    parse task is submitted.  [row] and [col] are of the handler's
    [coordinate_type], taken here to hold every 64-bit value. *)
Definition dispatch (s : engine) (front : line_count_result)
    (counted : bool) (rest : list future) : option engine :=
  (* Figure out where this chunk belongs *)
  let lcr := {| chunk := chunk front;
                chunk_line_start := line_num s;
                chunk_line_count := chunk_line_count front |} in
  let line_num' := line_num s + chunk_line_count lcr in
  (* Parse it. *)
  let body_line := chunk_line_start lcr - header_line_count header in
  call ←
    match format header with
    | array =>
        row ← int64_rem body_line (ncols header);
        col ← int64_quot body_line (ncols header);
        Some (read_chunk_array (chunk lcr) (chunk_line_start lcr)
                               body_line row col)
    | coordinate =>
        match object header with
        | matrix =>
            Some (read_chunk_matrix_coordinate (chunk lcr)
                    (chunk_line_start lcr) body_line)
        | vector =>
            Some (read_chunk_vector_coordinate (chunk lcr)
                    (chunk_line_start lcr) body_line)
        end
    end;
  Some {| pc := Looping; instream := instream s; line_num := line_num';
          line_count_futures := rest;
          retiring := (retiring s + if counted then 1 else 0)%nat;
          parse_tasks := parse_tasks s ++ [(call, false)] |}.

(** One step of the main thread.  [None]: the thread cannot move (it has
    returned, or it is blocked in [wait_for_tasks] or in [get]), or the
    step is undefined behaviour.

    In the [if] branch of the [while] loop the replacement chunk is read
    and its future pushed before the front future is popped: the push is
    one step, which leaves the thread at [Popping] with both futures in
    the queue, and the rest of the branch ([dispatch]) is the next.  When
    the stream is not [good()] nothing is pushed, the state at
    [front().get()] is the one the test saw, and the branch is one step. *)
Definition main_step (s : engine) : option engine :=
  match pc s with
  | Seeding seed_i =>
      if (seed_i <? inflight_count thread_count) && good s then
        let s1 := read_and_submit s in
        Some {| pc := Seeding (seed_i + 1); instream := instream s1;
                line_num := line_num s1;
                line_count_futures := line_count_futures s1;
                retiring := retiring s1;
                parse_tasks := parse_tasks s1 |}
      else
        Some {| pc := Looping; instream := instream s;
                line_num := line_num s;
                line_count_futures := line_count_futures s;
                retiring := retiring s;
                parse_tasks := parse_tasks s |}
  | Looping =>
      match line_count_futures s with
      | [] =>
          Some {| pc := Waiting; instream := instream s;
                  line_num := line_num s;
                  line_count_futures := [];
                  retiring := retiring s;
                  parse_tasks := parse_tasks s |}
      | front :: rest =>
          if (get_tasks_total s <? inflight_count thread_count)
             && is_ready front
          then
            (* Next chunk has finished line count. *)
            if good s then
              (* Start another to replace it. *)
              let s1 := read_and_submit s in
              Some {| pc := Popping; instream := instream s1;
                      line_num := line_num s1;
                      line_count_futures := line_count_futures s1;
                      retiring := retiring s1;
                      parse_tasks := parse_tasks s1 |}
            else
              match front with
              | ready lcr counted => dispatch s lcr counted rest
              | pending _ => Some s
              end
          else
            (* Next chunk is not done. Yield CPU for it. *)
            Some s
      end
  | Popping =>
      match line_count_futures s with
      | ready lcr counted :: rest => dispatch s lcr counted rest
      | _ => None
      end
  | Waiting =>
      if get_tasks_total s =? 0 then
        Some {| pc := Returned (line_num s); instream := instream s;
                line_num := line_num s;
                line_count_futures := line_count_futures s;
                retiring := retiring s;
                parse_tasks := parse_tasks s |}
      else None
  | Returned _ => None
  end.

(** A worker runs the line-count task behind the [i]-th future: the
    future becomes ready. *)
Definition finish_count (i : nat) (s : engine) : option engine :=
  match line_count_futures s !! i with
  | Some (pending lcr) =>
      Some {| pc := pc s; instream := instream s; line_num := line_num s;
              line_count_futures :=
                <[i := ready (count_chunk_lines lcr) true]>
                  (line_count_futures s);
              retiring := retiring s;
              parse_tasks := parse_tasks s |}
  | _ => None
  end.

(** The pool takes a finished line-count task off its count: the task of
    the [i]-th future, or one whose future has left the FIFO. *)
Definition retire_count (i : nat) (s : engine) : option engine :=
  match line_count_futures s !! i with
  | Some (ready lcr true) =>
      Some {| pc := pc s; instream := instream s; line_num := line_num s;
              line_count_futures :=
                <[i := ready lcr false]> (line_count_futures s);
              retiring := retiring s;
              parse_tasks := parse_tasks s |}
  | _ => None
  end.

Definition retire_popped (s : engine) : option engine :=
  match retiring s with
  | S n =>
      Some {| pc := pc s; instream := instream s; line_num := line_num s;
              line_count_futures := line_count_futures s;
              retiring := n;
              parse_tasks := parse_tasks s |}
  | O => None
  end.

(** A worker finishes the [i]-th parse task. *)
Definition finish_parse (i : nat) (s : engine) : option engine :=
  match parse_tasks s !! i with
  | Some (call, false) =>
      Some {| pc := pc s; instream := instream s; line_num := line_num s;
              line_count_futures := line_count_futures s;
              retiring := retiring s;
              parse_tasks := <[i := (call, true)]> (parse_tasks s) |}
  | _ => None
  end.

(** Interleavings of the main thread with the pool's workers.  Any
    unfinished task may be the next to finish, which covers every pool
    size and every completion order. *)
Inductive step : engine -> engine -> Prop :=
| step_main s s' : main_step s = Some s' -> step s s'
| step_count i s s' : finish_count i s = Some s' -> step s s'
| step_retire i s s' : retire_count i s = Some s' -> step s s'
| step_retire_popped s s' : retire_popped s = Some s' -> step s s'
| step_parse i s s' : finish_parse i s = Some s' -> step s s'.

(** The state on entry, for a stream that will deliver [chunks]. *)
Definition start (chunks : list string) : engine :=
  {| pc := Seeding 0; instream := chunks;
     line_num := header_line_count header;
     line_count_futures := []; retiring := 0; parse_tasks := [] |}.

Definition reachable (chunks : list string) (s : engine) : Prop :=
  rtc step (start chunks) s.

(** A schedule, for running the engine on concrete inputs. *)
Inductive action : Type :=
| Main | Count (i : nat) | Retire (i : nat) | RetirePopped | Parse (i : nat).

Definition act (a : action) (s : engine) : option engine :=
  match a with
  | Main => main_step s
  | Count i => finish_count i s
  | Retire i => retire_count i s
  | RetirePopped => retire_popped s
  | Parse i => finish_parse i s
  end.

Fixpoint run_schedule (acts : list action) (s : engine) : option engine :=
  match acts with
  | [] => Some s
  | a :: acts' => s' ← act a s; run_schedule acts' s'
  end.

End Steps.

(** Chunks in flight: read from the stream and not yet parsed, that is,
    waiting in the FIFO or held by an unfinished parse task. *)
Definition in_flight (s : engine) : Z :=
  Z.of_nat (length (line_count_futures s)
            + unfinished_parses (parse_tasks s)).

(** [1] between the push of a replacement's future and the pop of the
    front future, [0] elsewhere. *)
Definition pushed (s : engine) : Z :=
  match pc s with Popping => 1 | _ => 0 end.

(** Sum of the line counts of a list of chunks. *)
Definition total_lines (chunks : list string) : Z :=
  fold_right (fun c acc => count_lines c + acc) 0 chunks.

(** *** Bookkeeping lemmas *)

Lemma total_lines_cons (c : string) (l : list string) :
  total_lines (c :: l) = count_lines c + total_lines l.
Proof. reflexivity. Qed.

Lemma total_lines_one (c : string) : total_lines [c] = count_lines c.
Proof. unfold total_lines. cbn [fold_right]. lia. Qed.

Lemma total_lines_app (l1 l2 : list string) :
  total_lines (l1 ++ l2) = total_lines l1 + total_lines l2.
Proof.
  induction l1 as [|c l1 IH]; [reflexivity |].
  cbn [app]. rewrite !total_lines_cons, IH. lia.
Qed.

Lemma count_lines_nonneg (c : string) : 0 <= count_lines c.
Proof.
  unfold count_lines. generalize false.
  induction c as [|a c IH]; intros b; cbn [count_lines_from].
  - destruct b; lia.
  - destruct (Ascii.eqb a newline); [specialize (IH false); lia | apply IH].
Qed.

Lemma total_lines_nonneg (l : list string) : 0 <= total_lines l.
Proof.
  induction l as [|c l IH]; [reflexivity |].
  rewrite total_lines_cons. pose proof (count_lines_nonneg c). lia.
Qed.

(** Line counts only add up: a longer prefix has at least as many lines. *)
Lemma total_lines_take_le (l : list string) (i j : nat) :
  (i <= j)%nat -> total_lines (take i l) <= total_lines (take j l).
Proof.
  intros Hij. replace j with (i + (j - i))%nat by lia.
  rewrite <- take_take_drop, total_lines_app.
  pose proof (total_lines_nonneg (take (j - i) (drop i l))). lia.
Qed.

Section CountIf.
Context {A : Type} (p : A -> bool).

Definition bit (b : bool) : nat := if b then 1 else 0.

Lemma count_if_app (l1 l2 : list A) :
  count_if p (l1 ++ l2) = (count_if p l1 + count_if p l2)%nat.
Proof.
  induction l1 as [|x l1 IH]; [reflexivity |].
  cbn [app count_if]. rewrite IH. lia.
Qed.

Lemma count_if_le (l : list A) : (count_if p l <= length l)%nat.
Proof.
  induction l as [|x l IH]; cbn [count_if length]; [lia |].
  destruct (p x); lia.
Qed.

(** Replacing one element changes the count by the two tests. *)
Lemma count_if_insert (l : list A) :
  forall (i : nat) (x y : A),
    l !! i = Some x ->
    (count_if p (<[i := y]> l) + bit (p x)
     = count_if p l + bit (p y))%nat.
Proof.
  induction l as [|z l IH]; intros [|i] x y H; try discriminate.
  - cbn in H. injection H as ->.
    change (<[0%nat := y]> (x :: l)) with (y :: l).
    cbn [count_if]. unfold bit. lia.
  - cbn in H. change (<[S i := y]> (z :: l)) with (z :: <[i := y]> l).
    cbn [count_if]. specialize (IH i x y H). lia.
Qed.

(** Either some element passes the test, or none does. *)
Lemma count_if_find (l : list A) :
  (exists i x, l !! i = Some x /\ p x = true) \/ count_if p l = 0%nat.
Proof.
  induction l as [|z l [(i & x & H & Hp) | H]].
  - now right.
  - left. now exists (S i), x.
  - destruct (p z) eqn:Ez.
    + left. now exists 0%nat, z.
    + right. cbn [count_if]. rewrite Ez, H. reflexivity.
Qed.

End CountIf.

(** Line numbers handed to a run of chunks that starts at line [s]. *)
Fixpoint starts (s : Z) (cs : list string) : list Z :=
  match cs with
  | [] => []
  | c :: cs' => s :: starts (s + count_lines c) cs'
  end.

Lemma starts_app (s : Z) (l : list string) (c : string) :
  starts s (l ++ [c]) = starts s l ++ [s + total_lines l].
Proof.
  revert s. induction l as [|x l IH]; intros s; cbn [starts app].
  - cbn. f_equal. lia.
  - rewrite IH, total_lines_cons. do 3 f_equal. lia.
Qed.

Lemma starts_lookup (l : list string) :
  forall (s : Z) (i : nat) (x : Z),
    starts s l !! i = Some x -> x = s + total_lines (take i l).
Proof.
  induction l as [|c l IH]; intros s [|i] x H; try discriminate.
  - cbn in H. injection H as <-. cbn. lia.
  - cbn in H. apply IH in H. cbn [take]. rewrite total_lines_cons. lia.
Qed.

(** *** Invariants of the interleaved execution *)

(** Reduce the projections of an explicit state, and nothing else. *)
Ltac fields :=
  cbn [pc instream line_num line_count_futures retiring parse_tasks] in *.

(** Unfold the three task counters down to [count_if]. *)
Ltac counters :=
  unfold get_tasks_total, pending_counts, counted_futures,
    unfinished_parses, pushed in *.

Section Invariants.
Variable header : matrix_market_header.
Variable thread_count : Z.
Variable chunks : list string.

Local Abbreviation N := (inflight_count thread_count).
Local Abbreviation hlc := (header_line_count header).

(** The parse calls submitted so far, in submission order. *)
Definition calls (s : engine) : list parse_call := fst <$> parse_tasks s.

(** A future holds the chunk it was created for, with the line count filled
    in once the task has run. *)
Definition future_wf (f : future) : Prop :=
  match f with
  | pending l => l = new_line_count_result (chunk l)
  | ready l _ => l = count_chunk_lines (new_line_count_result (chunk l))
  end.

(** What [dispatch] passes to a parser: the handler offset is the chunk's
    first line counted from the first body line; an array chunk starts at
    [(offset % ncols, offset / ncols)]. *)
Definition call_wf (p : parse_call) : Prop :=
  call_handler_offset p = call_line_start p - hlc
  /\ match p with
     | read_chunk_array _ _ o r c =>
         format header = array /\ ncols header <> 0
         /\ r = Z.rem o (ncols header) /\ c = Z.quot o (ncols header)
     | read_chunk_matrix_coordinate _ _ _ =>
         format header = coordinate /\ object header = matrix
     | read_chunk_vector_coordinate _ _ _ =>
         format header = coordinate /\ object header = vector
     end.

Record data_inv (s : engine) : Prop := {
  inv_stream :
    chunks = (call_chunk <$> calls s)
               ++ (future_chunk <$> line_count_futures s) ++ instream s;
  inv_line_num : line_num s = hlc + total_lines (call_chunk <$> calls s);
  inv_starts :
    call_line_start <$> calls s = starts hlc (call_chunk <$> calls s);
  inv_calls : Forall call_wf (calls s);
  inv_futures : Forall future_wf (line_count_futures s)
}.

Definition control_inv (s : engine) : Prop :=
  match pc s with
  | Seeding i =>
      0 <= i <= N /\ Z.of_nat (length (line_count_futures s)) = i
      /\ retiring s = 0%nat /\ parse_tasks s = []
  | Looping => 0 < N -> instream s <> [] -> line_count_futures s <> []
  | Popping =>
      exists front rest,
        line_count_futures s = front :: rest
        /\ is_ready front = true /\ rest <> []
  | Waiting => line_count_futures s = [] /\ (0 < N -> instream s = [])
  | Returned r =>
      r = line_num s /\ line_count_futures s = []
      /\ (0 < N -> instream s = [])
      /\ unfinished_parses (parse_tasks s) = 0%nat
  end.

(** The counts the test of the [while] loop keeps small.  Between the
    push and the pop the queue holds one future more, and a parse task is
    about to be added. *)
Record bound_inv (s : engine) : Prop := {
  bound_queue : Z.of_nat (length (line_count_futures s)) <= N + pushed s;
  bound_parses :
    Z.of_nat (unfinished_parses (parse_tasks s)) + pushed s <= N;
  bound_tasks : get_tasks_total s + pushed s <= N + 1
}.

Definition Inv (s : engine) : Prop :=
  data_inv s /\ control_inv s /\ bound_inv s.

Lemma inflight_count_nonneg : 0 <= N.
Proof. unfold inflight_count. apply Z.mod_pos_bound. lia. Qed.

Lemma Inv_start : Inv (start header chunks).
Proof.
  pose proof inflight_count_nonneg.
  split; [| split].
  - constructor; cbn; try reflexivity; try constructor.
    unfold total_lines. cbn. lia.
  - cbn. split; [lia | repeat split].
  - constructor; counters; cbn; lia.
Qed.

(** A worker step on the FIFO: the [i]-th future is replaced by one for
    the same chunk, and no task is added to the pool's count. *)
Lemma Inv_future_update (i : nat) (s : engine) (f f' : future) :
  line_count_futures s !! i = Some f ->
  future_chunk f' = future_chunk f ->
  future_wf f' ->
  (bit (is_counted f') <= bit (is_counted f))%nat ->
  (is_ready f = true -> is_ready f' = true) ->
  Inv s ->
  Inv {| pc := pc s; instream := instream s; line_num := line_num s;
         line_count_futures := <[i := f']> (line_count_futures s);
         retiring := retiring s;
         parse_tasks := parse_tasks s |}.
Proof.
  intros Hi Hchunk Hwf Hcnt Hready (Hd & Hc & Hb).
  pose proof (count_if_insert is_counted _ _ _ f' Hi) as Hp.
  split; [| split].
  - destruct Hd as [H1 H2 H3 H4 H5]. constructor; unfold calls in *; fields; auto.
    + rewrite list_fmap_insert, Hchunk.
      rewrite list_insert_id; [exact H1 |].
      now rewrite list_lookup_fmap, Hi.
    + now apply Forall_insert.
  - unfold control_inv in *. fields.
    destruct (pc s); rewrite ?length_insert; auto.
    + intros HN Hne. specialize (Hc HN Hne). intros E.
      apply (f_equal length) in E. rewrite length_insert in E.
      destruct (line_count_futures s); [congruence | discriminate].
    + destruct Hc as (front & rest & Hq & Hfront & Hrest).
      rewrite Hq in *. destruct i as [|i].
      * cbn in Hi. injection Hi as <-.
        exists f', rest. repeat split; auto.
      * exists front, (<[i := f']> rest). repeat split; auto.
        intros E. apply (f_equal length) in E. rewrite length_insert in E.
        destruct rest; [congruence | discriminate].
    + destruct Hc as [E _]. rewrite E in Hi. discriminate.
    + destruct Hc as (_ & E & _). rewrite E in Hi. discriminate.
  - destruct Hb as [B1 B2 B3]. counters.
    constructor; counters; fields; rewrite ?length_insert; lia.
Qed.

Lemma Inv_finish_count (i : nat) (s s' : engine) :
  finish_count i s = Some s' -> Inv s -> Inv s'.
Proof.
  unfold finish_count. intros H HI.
  destruct (line_count_futures s !! i) as [[a|r c]|] eqn:Hi;
    try discriminate.
  injection H as <-.
  apply (Inv_future_update i s (pending a));
    [assumption | reflexivity | | cbn; lia | discriminate | assumption].
  destruct HI as ([_ _ _ _ H5] & _ & _).
  rewrite Forall_lookup in H5. specialize (H5 _ _ Hi). cbn in *.
  now rewrite H5 at 1.
Qed.

Lemma Inv_retire_count (i : nat) (s s' : engine) :
  retire_count i s = Some s' -> Inv s -> Inv s'.
Proof.
  unfold retire_count. intros H HI.
  destruct (line_count_futures s !! i) as [[a|r [|]]|] eqn:Hi;
    try discriminate.
  injection H as <-.
  apply (Inv_future_update i s (ready r true));
    [assumption | reflexivity | | cbn; lia | reflexivity | assumption].
  destruct HI as ([_ _ _ _ H5] & _ & _).
  rewrite Forall_lookup in H5. exact (H5 _ _ Hi).
Qed.

Lemma Inv_retire_popped (s s' : engine) :
  retire_popped s = Some s' -> Inv s -> Inv s'.
Proof.
  unfold retire_popped. intros H (Hd & Hc & Hb).
  destruct (retiring s) as [|n] eqn:Hn; [discriminate |].
  injection H as <-.
  split; [| split].
  - destruct Hd as [H1 H2 H3 H4 H5]. constructor; unfold calls in *; fields; auto.
  - unfold control_inv in *. fields. destruct (pc s); auto.
    destruct Hc as (_ & _ & E & _). congruence.
  - destruct Hb as [B1 B2 B3]. counters.
    constructor; counters; fields; lia.
Qed.

Lemma Inv_finish_parse (i : nat) (s s' : engine) :
  finish_parse i s = Some s' -> Inv s -> Inv s'.
Proof.
  unfold finish_parse. intros H (Hd & Hc & Hb).
  destruct (parse_tasks s !! i) as [[c [|]]|] eqn:Hi; try discriminate.
  injection H as <-.
  pose proof (count_if_insert (fun t => negb (snd t)) _ _ _ (c, true) Hi)
    as Hp. cbn [snd negb bit] in Hp.
  assert (fst <$> <[i := (c, true)]> (parse_tasks s) = fst <$> parse_tasks s)
    as Hfst.
  { rewrite list_fmap_insert. cbn. apply list_insert_id.
    now rewrite list_lookup_fmap, Hi. }
  split; [| split].
  - destruct Hd as [H1 H2 H3 H4 H5]. unfold calls in *.
    constructor; unfold calls; fields; rewrite ?Hfst; auto.
  - unfold control_inv in *. fields. destruct (pc s); auto.
    + destruct Hc as (_ & _ & _ & E). rewrite E in Hi. discriminate.
    + destruct Hc as (? & ? & ? & E). counters. repeat split; auto. lia.
  - destruct Hb as [B1 B2 B3]. counters.
    constructor; counters; fields; lia.
Qed.

(** The state [dispatch] returns, spelled out. *)
Lemma dispatch_result (s s' : engine) (lcr : line_count_result)
    (counted : bool) (rest : list future) :
  dispatch header s lcr counted rest = Some s' ->
  exists call,
    s' = {| pc := Looping; instream := instream s;
            line_num := line_num s + chunk_line_count lcr;
            line_count_futures := rest;
            retiring := (retiring s + bit counted)%nat;
            parse_tasks := parse_tasks s ++ [(call, false)] |}
    /\ call_chunk call = chunk lcr
    /\ call_line_start call = line_num s
    /\ call_wf call.
Proof.
  intros Hdis. unfold dispatch in Hdis.
  cbn [chunk chunk_line_start chunk_line_count] in Hdis.
  match type of Hdis with
  | mbind _ ?c = _ => destruct c as [call|] eqn:Ecall
  end; [| discriminate].
  cbn [mbind option_bind] in Hdis. injection Hdis as <-.
  exists call. split; [reflexivity |].
  unfold call_wf, int64_rem, int64_quot in *.
  destruct (format header) eqn:Ef.
  - destruct (Z.eqb_spec (ncols header) 0) as [|Hnz]; [discriminate |].
    cbn in Ecall. injection Ecall as <-. cbn. repeat split; auto.
  - destruct (object header) eqn:Eo; injection Ecall as <-; cbn;
      repeat split; auto.
Qed.

(** The pop and the submission of the parse task, taken when the test of
    the loop has held: straight from the loop head when the stream has
    ended, or after the push of the replacement. *)
Lemma Inv_dispatch (s s' : engine) (lcr : line_count_result)
    (counted : bool) (rest : list future) :
  (pc s = Looping /\ get_tasks_total s < N /\ instream s = [])
  \/ pc s = Popping ->
  line_count_futures s = ready lcr counted :: rest ->
  dispatch header s lcr counted rest = Some s' ->
  Inv s -> Inv s'.
Proof.
  intros Hpc Hq Hdis (Hd & Hc & Hb).
  destruct (dispatch_result s s' lcr counted rest Hdis)
    as (call & -> & Hcc & Hcl & Hcw).
  destruct Hd as [H1 H2 H3 H4 H5].
  rewrite Hq in H1, H5. apply Forall_cons in H5 as [Hfront H5].
  cbn [future_wf] in Hfront.
  assert (chunk_line_count lcr = count_lines (chunk lcr)) as Hcount
    by (rewrite Hfront at 1; reflexivity).
  pose proof inflight_count_nonneg as HN.
  assert (calls {| pc := Looping; instream := instream s;
                   line_num := line_num s + chunk_line_count lcr;
                   line_count_futures := rest;
                   retiring := (retiring s + bit counted)%nat;
                   parse_tasks := parse_tasks s ++ [(call, false)] |}
          = calls s ++ [call]) as Ecalls
    by (unfold calls; fields; now rewrite fmap_app).
  split; [| split].
  - constructor; rewrite ?Ecalls; fields.
    + rewrite H1, !fmap_app, fmap_cons.
      cbn [fmap list_fmap future_chunk].
      rewrite Hcc, <- !app_assoc. reflexivity.
    + rewrite fmap_app, total_lines_app, H2, Hcount. cbn [fmap list_fmap].
      rewrite Hcc, total_lines_one. lia.
    + rewrite !fmap_app. cbn [fmap list_fmap].
      rewrite Hcc, starts_app, H3, Hcl, H2. reflexivity.
    + apply Forall_app. split; [exact H4 | now constructor].
    + exact H5.
  - unfold control_inv in *. fields. intros _ Hin.
    destruct Hpc as [(_ & _ & E) | Hpc]; [congruence |].
    rewrite Hpc in Hc. destruct Hc as (front & rest' & Hq' & _ & Hrest).
    rewrite Hq in Hq'. now injection Hq' as _ <-.
  - destruct Hb as [B1 B2 B3]. rewrite Hq in B1. cbn [length] in B1.
    counters. rewrite Hq in *. cbn [count_if is_counted] in *.
    constructor; counters; fields;
      rewrite ?length_app, ?count_if_app; cbn [count_if snd negb length];
      unfold bit in *;
      destruct Hpc as [(Hpc & Hlt & _) | Hpc]; rewrite Hpc in *;
      destruct counted; lia.
Qed.

Lemma Inv_main (s s' : engine) :
  main_step header thread_count s = Some s' -> Inv s -> Inv s'.
Proof.
  unfold main_step. intros H HI.
  pose proof inflight_count_nonneg as HN.
  destruct (pc s) as [i | | | | r] eqn:Hpc.
  - (* seeding *)
    destruct HI as (Hd & Hc & Hb). unfold control_inv in Hc.
    rewrite Hpc in Hc. destruct Hc as (Hi & Hlen & Hrt & Hpt).
    destruct ((i <? N) && good s) eqn:Hcond; injection H as <-.
    + apply andb_true_iff in Hcond as [Hlt Hgood].
      apply Z.ltb_lt in Hlt. unfold good in Hgood. unfold read_and_submit.
      destruct (instream s) as [|c rest] eqn:Ein; [discriminate |].
      destruct Hd as [H1 H2 H3 H4 H5]. destruct Hb as [B1 B2 B3].
      counters. rewrite Hpc, Hpt, Hrt in *.
      split; [| split].
      * constructor; unfold calls in *; fields; rewrite ?Hpt in *; auto.
        -- rewrite H1, Ein, fmap_app, <- app_assoc. reflexivity.
        -- apply Forall_app. split; [exact H5 | repeat constructor].
      * unfold control_inv. fields. rewrite length_app. cbn [length].
        split; [lia | split; [lia | auto]].
      * constructor; counters; fields;
          rewrite ?Hpt, ?Hrt, ?length_app, ?count_if_app;
          cbn [length count_if is_counted]; try lia.
        pose proof (count_if_le is_counted (line_count_futures s)). lia.
    + destruct Hd as [H1 H2 H3 H4 H5]. destruct Hb as [B1 B2 B3].
      split; [| split].
      * constructor; unfold calls in *; fields; auto.
      * unfold control_inv. fields. intros HN0 Hin.
        apply andb_false_iff in Hcond as [Hge | Hbad].
        -- apply Z.ltb_ge in Hge.
           destruct (line_count_futures s); [cbn in Hlen; lia | discriminate].
        -- unfold good in Hbad. destruct (instream s); congruence.
      * counters. rewrite Hpc in *.
        constructor; counters; fields; lia.
  - (* the while loop *)
    destruct (line_count_futures s) as [|front rest] eqn:Hq.
    + injection H as <-. destruct HI as (Hd & Hc & Hb).
      unfold control_inv in Hc. rewrite Hpc in Hc.
      destruct Hd as [H1 H2 H3 H4 H5]. destruct Hb as [B1 B2 B3].
      split; [| split].
      * constructor; unfold calls in *; fields; rewrite ?Hq in *; auto.
      * unfold control_inv. fields. split; [reflexivity |].
        intros HN0. destruct (instream s); [reflexivity |].
        exfalso. apply (Hc HN0); [discriminate | exact Hq].
      * counters. rewrite Hpc in *.
        constructor; counters; fields; rewrite ?Hq in *; lia.
    + destruct ((get_tasks_total s <? N) && is_ready front) eqn:Hcond.
      * apply andb_true_iff in Hcond as [Hlt Hready].
        apply Z.ltb_lt in Hlt.
        destruct front as [a | lcr counted]; [discriminate |].
        unfold good, read_and_submit in H.
        destruct (instream s) as [|c more] eqn:Ein.
        -- apply (Inv_dispatch s s' lcr counted rest); auto.
        -- injection H as <-. fields.
           destruct HI as ([H1 H2 H3 H4 H5] & Hc & [B1 B2 B3]).
           split; [| split].
           ++ constructor; unfold calls in *; fields; auto.
              ** rewrite H1, Hq, Ein, fmap_app, <- app_assoc. reflexivity.
              ** apply Forall_app.
                 split; [exact H5 | repeat constructor].
           ++ unfold control_inv. fields. rewrite Hq.
              exists (ready lcr counted),
                (rest ++ [pending (new_line_count_result c)]).
              repeat split. now destruct rest.
           ++ counters. rewrite Hpc, Hq in *.
              constructor; counters; fields;
                rewrite ?length_app, ?count_if_app;
                cbn [length count_if is_counted] in *; lia.
      * injection H as <-. exact HI.
  - (* after the push *)
    destruct (line_count_futures s) as [|[a | lcr counted] rest] eqn:Hq;
      try discriminate.
    apply (Inv_dispatch s s' lcr counted rest); auto.
  - (* wait_for_tasks *)
    destruct (Z.eqb_spec (get_tasks_total s) 0) as [Hz|]; [| discriminate].
    injection H as <-. destruct HI as (Hd & Hc & Hb).
    unfold control_inv in Hc. rewrite Hpc in Hc. destruct Hc as [Hq Hin].
    destruct Hd as [H1 H2 H3 H4 H5]. destruct Hb as [B1 B2 B3].
    split; [| split].
    + constructor; unfold calls in *; fields; auto.
    + unfold control_inv. fields. counters.
      repeat split; auto. lia.
    + counters. rewrite Hpc in *.
      constructor; counters; fields; lia.
  - discriminate.
Qed.

Lemma Inv_step (s s' : engine) :
  step header thread_count s s' -> Inv s -> Inv s'.
Proof.
  intros [? ? H | ? ? ? H | ? ? ? H | ? ? H | ? ? ? H].
  - exact (Inv_main _ _ H).
  - exact (Inv_finish_count _ _ _ H).
  - exact (Inv_retire_count _ _ _ H).
  - exact (Inv_retire_popped _ _ H).
  - exact (Inv_finish_parse _ _ _ H).
Qed.

Lemma Inv_reachable (s : engine) :
  reachable header thread_count chunks s -> Inv s.
Proof.
  revert s. apply rtc_ind_r; [exact Inv_start |].
  intros y z _ Hstep HI. exact (Inv_step _ _ Hstep HI).
Qed.

(** *** Progress *)

Definition pc_weight (c : control) : nat :=
  match c with
  | Seeding _ => 3 | Looping | Popping => 2 | Waiting => 1
  | Returned _ => 0
  end.

(** Work left.  A chunk still in the stream counts 5; behind a pending
    future 4; behind a ready future 3 while the pool counts its task, then
    2; an unfinished parse task counts 1, and so does a line-count task
    that the pool has yet to take off its count after the future left the
    FIFO. *)
Definition measure (s : engine) : nat :=
  5 * length (instream s)
  + 2 * length (line_count_futures s)
  + pending_counts (line_count_futures s)
  + counted_futures (line_count_futures s)
  + retiring s
  + unfinished_parses (parse_tasks s)
  + pc_weight (pc s).

Lemma finish_count_measure (i : nat) (s s' : engine) :
  finish_count i s = Some s' -> (measure s' < measure s)%nat.
Proof.
  unfold finish_count. intros H.
  destruct (line_count_futures s !! i) as [[a|r c]|] eqn:Hi;
    try discriminate.
  injection H as <-.
  pose proof (count_if_insert is_counted _ _ _
                (ready (count_chunk_lines a) true) Hi).
  pose proof (count_if_insert (fun f => negb (is_ready f)) _ _ _
                (ready (count_chunk_lines a) true) Hi).
  unfold measure. counters. fields. rewrite length_insert.
  cbn [is_counted is_ready negb bit] in *. lia.
Qed.

Lemma retire_count_measure (i : nat) (s s' : engine) :
  retire_count i s = Some s' -> (measure s' < measure s)%nat.
Proof.
  unfold retire_count. intros H.
  destruct (line_count_futures s !! i) as [[a|r [|]]|] eqn:Hi;
    try discriminate.
  injection H as <-.
  pose proof (count_if_insert is_counted _ _ _ (ready r false) Hi).
  pose proof (count_if_insert (fun f => negb (is_ready f)) _ _ _
                (ready r false) Hi).
  unfold measure. counters. fields. rewrite length_insert.
  cbn [is_counted is_ready negb bit] in *. lia.
Qed.

Lemma retire_popped_measure (s s' : engine) :
  retire_popped s = Some s' -> (measure s' < measure s)%nat.
Proof.
  unfold retire_popped. intros H.
  destruct (retiring s) as [|n] eqn:Hn; [discriminate |].
  injection H as <-. unfold measure. fields. lia.
Qed.

Lemma finish_parse_measure (i : nat) (s s' : engine) :
  finish_parse i s = Some s' -> (measure s' < measure s)%nat.
Proof.
  unfold finish_parse. intros H.
  destruct (parse_tasks s !! i) as [[c [|]]|] eqn:Hi; try discriminate.
  injection H as <-.
  pose proof (count_if_insert (fun t => negb (snd t)) _ _ _ (c, true) Hi).
  unfold measure. counters. fields. cbn [snd negb bit] in *. lia.
Qed.

Lemma dispatch_measure (s s' : engine) (lcr : line_count_result)
    (counted : bool) (rest : list future) :
  pc s = Looping \/ pc s = Popping ->
  line_count_futures s = ready lcr counted :: rest ->
  dispatch header s lcr counted rest = Some s' ->
  (measure s' < measure s)%nat.
Proof.
  intros Hpc Hq Hdis.
  destruct (dispatch_result s s' lcr counted rest Hdis) as (call & -> & _).
  unfold measure. counters. fields. rewrite Hq.
  rewrite !count_if_app.
  cbn [length count_if is_ready is_counted negb snd pc_weight].
  unfold bit. destruct Hpc as [-> | ->]; cbn [pc_weight];
    destruct counted; lia.
Qed.

(** A step of the main thread is a yield, which changes nothing, or it
    lowers the measure. *)
Lemma main_step_measure (s s' : engine) :
  main_step header thread_count s = Some s' ->
  (measure s' < measure s)%nat
  \/ (s' = s /\ pc s = Looping
      /\ exists front rest,
          line_count_futures s = front :: rest
          /\ (get_tasks_total s <? N) && is_ready front = false).
Proof.
  unfold main_step. intros H.
  destruct (pc s) as [i | | | | r] eqn:Hpc.
  - left. destruct ((i <? N) && good s) eqn:Hcond; injection H as <-.
    + apply andb_true_iff in Hcond as [_ Hgood].
      unfold good in Hgood. unfold read_and_submit, measure.
      destruct (instream s) as [|c rest]; [discriminate |].
      counters. fields.
      rewrite Hpc, length_app, !count_if_app.
      cbn [length count_if is_ready is_counted negb pc_weight]. lia.
    + unfold measure. fields. rewrite Hpc. cbn [pc_weight]. lia.
  - destruct (line_count_futures s) as [|front rest] eqn:Hq.
    + left. injection H as <-. unfold measure. counters. fields.
      rewrite Hpc, Hq. cbn [pc_weight length count_if]. lia.
    + destruct ((get_tasks_total s <? N) && is_ready front) eqn:Hcond.
      * left. apply andb_true_iff in Hcond as [_ Hready].
        destruct front as [a | lcr counted]; [discriminate |].
        unfold good, read_and_submit in H.
        destruct (instream s) as [|c more] eqn:Ein.
        -- apply (dispatch_measure s s' lcr counted rest); auto.
        -- injection H as <-. unfold measure. counters. fields.
           rewrite Hpc, Hq, Ein, length_app, !count_if_app.
           cbn [length count_if is_ready is_counted negb pc_weight]. lia.
      * right. injection H as <-. eauto 6.
  - left.
    destruct (line_count_futures s) as [|[a | lcr counted] rest] eqn:Hq;
      try discriminate.
    apply (dispatch_measure s s' lcr counted rest); auto.
  - left. destruct (get_tasks_total s =? 0); [| discriminate].
    injection H as <-. unfold measure. fields. rewrite Hpc.
    cbn [pc_weight]. lia.
  - discriminate.
Qed.

(** Every step is a yield or lowers the measure: an interleaving holds at
    most [measure] steps that are not yields. *)
Lemma step_measure (s s' : engine) :
  step header thread_count s s' -> s' = s \/ (measure s' < measure s)%nat.
Proof.
  intros [? ? H | ? ? ? H | ? ? ? H | ? ? H | ? ? ? H].
  - destruct (main_step_measure _ _ H) as [|(-> & _)]; auto.
  - right. exact (finish_count_measure _ _ _ H).
  - right. exact (retire_count_measure _ _ _ H).
  - right. exact (retire_popped_measure _ _ H).
  - right. exact (finish_parse_measure _ _ _ H).
Qed.

Section Progress.
Hypothesis threads : 0 < N.
Hypothesis array_columns : format header = array -> ncols header <> 0.

Lemma dispatch_defined (s : engine) (lcr : line_count_result)
    (counted : bool) (rest : list future) :
  exists s', dispatch header s lcr counted rest = Some s'.
Proof.
  unfold dispatch, int64_rem, int64_quot.
  destruct (format header) eqn:Ef.
  - destruct (Z.eqb_spec (ncols header) 0) as [Hz|];
      [now apply array_columns in Hz |].
    cbn. eauto.
  - destruct (object header); cbn; eauto.
Qed.

(** Until the function has returned, some thread can take a step that
    lowers the measure. *)
Lemma progress (s : engine) :
  Inv s ->
  (forall r, pc s <> Returned r) ->
  exists s', step header thread_count s s' /\ (measure s' < measure s)%nat.
Proof.
  intros (_ & Hc & _) Hrun.
  destruct (count_if_find is_counted (line_count_futures s))
    as [(i & f & Hi & Hf) | Hnocounted].
  { destruct f as [a | r c].
    - assert (exists s', finish_count i s = Some s') as [s' Hs']
        by (unfold finish_count; rewrite Hi; eauto).
      exists s'. split; [eapply step_count; eauto |].
      exact (finish_count_measure _ _ _ Hs').
    - cbn in Hf. subst c.
      assert (exists s', retire_count i s = Some s') as [s' Hs']
        by (unfold retire_count; rewrite Hi; eauto).
      exists s'. split; [eapply step_retire; eauto |].
      exact (retire_count_measure _ _ _ Hs'). }
  destruct (retiring s) as [|n] eqn:Hn.
  2: { assert (exists s', retire_popped s = Some s') as [s' Hs']
         by (unfold retire_popped; rewrite Hn; eauto).
       exists s'. split; [eapply step_retire_popped; eauto |].
       exact (retire_popped_measure _ _ Hs'). }
  destruct (count_if_find (fun t => negb (snd t)) (parse_tasks s))
    as [(i & [c d] & Hi & Hd) | Hnoparse].
  { cbn in Hd. destruct d; [discriminate |].
    assert (exists s', finish_parse i s = Some s') as [s' Hs']
      by (unfold finish_parse; rewrite Hi; eauto).
    exists s'. split; [eapply step_parse; eauto |].
    exact (finish_parse_measure _ _ _ Hs'). }
  assert (get_tasks_total s = 0) as Hidle by (counters; lia).
  assert (exists s', main_step header thread_count s = Some s'
                     /\ (s' = s -> False)) as (s' & Hs' & Hmoved).
  { unfold main_step. destruct (pc s) as [i | | | | r] eqn:Hpc.
    - destruct ((i <? N) && good s) eqn:Hcond; eexists;
        (split; [reflexivity |]);
        intros E; apply (f_equal pc) in E; fields; rewrite Hpc in E.
      + injection E. lia.
      + discriminate.
    - destruct (line_count_futures s) as [|front rest] eqn:Hq.
      + eexists. split; [reflexivity |].
        intros E; apply (f_equal pc) in E; fields; congruence.
      + rewrite Hidle. destruct (Z.ltb_spec 0 N); [| lia].
        destruct front as [a | lcr counted];
          [unfold counted_futures in Hnocounted; cbn in Hnocounted; lia |].
        cbn [andb is_ready].
        destruct (good s) eqn:Hgood.
        * eexists. split; [reflexivity |].
          intros E; apply (f_equal pc) in E; fields; congruence.
        * destruct (dispatch_defined s lcr counted rest) as [s' Hs'].
          exists s'. split; [exact Hs' |].
          intros ->.
          pose proof (dispatch_measure s s lcr counted rest
                        ltac:(now left) Hq Hs').
          lia.
    - unfold control_inv in Hc. rewrite Hpc in Hc.
      destruct Hc as (front & rest & Hq & Hready & _). rewrite Hq.
      destruct front as [a | lcr counted]; [discriminate |].
      destruct (dispatch_defined s lcr counted rest) as [s' Hs'].
      exists s'. split; [exact Hs' |].
      intros ->.
      pose proof (dispatch_measure s s lcr counted rest
                    ltac:(now right) Hq Hs').
      lia.
    - rewrite Hidle. cbn. eexists. split; [reflexivity |].
      intros E; apply (f_equal pc) in E; fields; congruence.
    - now destruct (Hrun r). }
  exists s'. split; [now apply step_main |].
  destruct (main_step_measure _ _ Hs') as [|(E & _)]; [assumption |].
  now destruct (Hmoved E).
Qed.

(** From every state of an execution the function can run to its
    [return]. *)
Lemma can_return (s : engine) :
  Inv s ->
  exists s' r, rtc (step header thread_count) s s' /\ pc s' = Returned r.
Proof.
  remember (measure s) as m eqn:Em. revert s Em.
  induction m as [m IH] using lt_wf_ind. intros s -> HI.
  destruct (pc s) as [i | | | | r] eqn:Hpc;
    try (destruct (progress s HI) as (s1 & Hstep & Hlt);
         [intros r; congruence |];
         destruct (IH _ Hlt s1 eq_refl (Inv_step _ _ Hstep HI))
           as (s' & r & Hrun & Hret);
         exists s', r; split; [eapply rtc_l; eauto | exact Hret]).
  exists s, r. split; [apply rtc_refl | exact Hpc].
Qed.

End Progress.

End Invariants.

(** A schedule that runs is an interleaving. *)
Lemma run_schedule_steps (header : matrix_market_header) (thread_count : Z)
    (acts : list action) :
  forall s s',
    run_schedule header thread_count acts s = Some s' ->
    rtc (step header thread_count) s s'.
Proof.
  induction acts as [|a acts IH]; intros s s' H; cbn [run_schedule] in H.
  - injection H as <-. apply rtc_refl.
  - destruct (act header thread_count a s) as [s1|] eqn:Ea; [| discriminate].
    cbn [mbind option_bind] in H.
    apply rtc_l with s1; [| exact (IH _ _ H)].
    destruct a; cbn [act] in Ea;
      [eapply step_main | eapply step_count | eapply step_retire
       | eapply step_retire_popped | eapply step_parse]; eauto.
Qed.

(** *** Line numbers of the chunks *)

(** C6. In every interleaving of the main thread with the workers, for
    every pool size ([thread_count] is [pool.get_thread_count()]): the
    [i]-th parse task submitted holds the [i]-th chunk read from the
    stream, and its [chunk_line_start] is [header_line_count] plus the line
    counts of chunks [0 .. i-1], so the line starts never decrease along
    the stream.  With at
    least one thread in the pool, a call that has returned has returned
    [header_line_count] plus the line counts of all chunks; and (given that
    an array header has [ncols <> 0], a zero divisor being undefined
    behaviour) from the state reached the call can run to its return,
    every step on the way that is not a yield lowering [measure]. *)
Theorem chunk_line_start_in_stream_order
    (header : matrix_market_header) (thread_count : Z)
    (chunks : list string) (s : engine) :
  reachable header thread_count chunks s ->
  (forall i p d,
      parse_tasks s !! i = Some (p, d) ->
      chunks !! i = Some (call_chunk p)
      /\ call_line_start p
         = header_line_count header + total_lines (take i chunks))
  /\ (forall i j p q d e,
        (i <= j)%nat ->
        parse_tasks s !! i = Some (p, d) ->
        parse_tasks s !! j = Some (q, e) ->
        call_line_start p <= call_line_start q)
  /\ (0 < inflight_count thread_count ->
      forall r,
        pc s = Returned r ->
        r = header_line_count header + total_lines chunks)
  /\ (0 < inflight_count thread_count ->
      (format header = array -> ncols header <> 0) ->
      exists s' r,
        rtc (step header thread_count) s s' /\ pc s' = Returned r)
  /\ (forall s',
        step header thread_count s s' ->
        s' = s \/ (measure s' < measure s)%nat).
Proof.
  intros Hreach.
  destruct (Inv_reachable header thread_count chunks s Hreach)
    as ([H1 H2 H3 H4 H5] & Hc & _).
  assert (forall i p d,
             parse_tasks s !! i = Some (p, d) ->
             chunks !! i = Some (call_chunk p)
             /\ call_line_start p
                = header_line_count header + total_lines (take i chunks))
    as Hassigned.
  { intros i p d Hi.
    assert (calls s !! i = Some p) as Hcall
      by (unfold calls; now rewrite list_lookup_fmap, Hi).
    assert (i < length (call_chunk <$> calls s))%nat as Hlt
      by (rewrite length_fmap; eapply lookup_lt_Some; eauto).
    split.
    - rewrite H1, lookup_app_l by exact Hlt.
      now rewrite list_lookup_fmap, Hcall.
    - assert ((call_line_start <$> calls s) !! i = Some (call_line_start p))
        as Hs by now rewrite list_lookup_fmap, Hcall.
      rewrite H3 in Hs. apply starts_lookup in Hs. rewrite Hs, H1.
      rewrite take_app_le by lia. reflexivity. }
  split; [exact Hassigned |]. split; [| split; [| split]].
  - intros i j p q d e Hij Hi Hj.
    destruct (Hassigned _ _ _ Hi) as [_ ->].
    destruct (Hassigned _ _ _ Hj) as [_ ->].
    pose proof (total_lines_take_le chunks i j Hij). lia.
  - intros HN r Hr. unfold control_inv in Hc. rewrite Hr in Hc.
    destruct Hc as (-> & Hq & Hin & _).
    rewrite H1, Hq, (Hin HN), H2. cbn [fmap list_fmap].
    now rewrite !app_nil_r.
  - intros HN Hcols.
    exact (can_return header thread_count chunks HN Hcols s
             (Inv_reachable header thread_count chunks s Hreach)).
  - intros s'. apply step_measure.
Qed.

(** *** Backpressure *)

(** C9, as the code has it.  In every reachable state the FIFO holds at
    most [inflight_count + 1] futures, and at most [inflight_count] unless
    the main thread stands between the push of a replacement's future and
    the pop of the front future; at most [inflight_count] parse tasks are
    unfinished; at most [2 * inflight_count] chunks are in flight, and the
    pool holds at most [inflight_count + 1] tasks; [inflight_count] is at
    most [10 * thread_count].  While seeding, the chunks read so far number
    [seed_i <= inflight_count].  The main thread reads a chunk only while
    seeding with [seed_i < inflight_count], or in the loop when the pool's
    task count is below [inflight_count] and the front future is ready;
    workers never read. *)
Theorem in_flight_chunks_bounded
    (header : matrix_market_header) (thread_count : Z)
    (chunks : list string) (s : engine) :
  reachable header thread_count chunks s ->
  Z.of_nat (length (line_count_futures s)) <= inflight_count thread_count + 1
  /\ (pc s <> Popping ->
      Z.of_nat (length (line_count_futures s))
      <= inflight_count thread_count)
  /\ Z.of_nat (unfinished_parses (parse_tasks s))
     <= inflight_count thread_count
  /\ in_flight s <= 2 * inflight_count thread_count
  /\ get_tasks_total s <= inflight_count thread_count + 1
  /\ (0 <= thread_count -> inflight_count thread_count <= 10 * thread_count)
  /\ (forall i,
        pc s = Seeding i ->
        Z.of_nat (length chunks) - Z.of_nat (length (instream s)) = i
        /\ i <= inflight_count thread_count)
  /\ (forall s',
        main_step header thread_count s = Some s' ->
        (length (instream s') < length (instream s))%nat ->
        (exists i, pc s = Seeding i /\ i < inflight_count thread_count)
        \/ (pc s = Looping
            /\ get_tasks_total s < inflight_count thread_count
            /\ exists lcr counted rest,
                line_count_futures s = ready lcr counted :: rest))
  /\ (forall i s',
        finish_count i s = Some s' \/ retire_count i s = Some s'
        \/ retire_popped s = Some s' \/ finish_parse i s = Some s' ->
        instream s' = instream s).
Proof.
  intros Hreach.
  destruct (Inv_reachable header thread_count chunks s Hreach)
    as ([H1 H2 H3 H4 H5] & Hc & [B1 B2 B3]).
  assert (0 <= pushed s <= 1) as Hp by (unfold pushed; destruct (pc s); lia).
  split; [lia |].
  split;
    [revert B1; unfold pushed; destruct (pc s); intros B1 Hpc;
     solve [lia | congruence] |].
  split; [lia |].
  split; [unfold in_flight; counters; lia |]. split; [lia |].
  split; [| split; [| split]].
  - intros Ht. unfold inflight_count. apply Z.mod_le; lia.
  - intros i Hpc. unfold control_inv in Hc. rewrite Hpc in Hc.
    destruct Hc as (Hi & Hlen & _ & Hpt).
    apply (f_equal length) in H1. unfold calls in H1.
    rewrite Hpt in H1. cbn [fmap list_fmap app] in H1.
    rewrite length_app, length_fmap in H1. lia.
  - unfold main_step. intros s' H Hread.
    destruct (pc s) as [i | | | | r] eqn:Hpc.
    + left. exists i. split; [reflexivity |].
      destruct ((i <? inflight_count thread_count) && good s) eqn:Hcond.
      * apply andb_true_iff in Hcond as [Hlt _]. now apply Z.ltb_lt.
      * injection H as <-. fields. lia.
    + right. split; [reflexivity |].
      destruct (line_count_futures s) as [|front rest] eqn:Hq.
      * injection H as <-. fields. lia.
      * destruct ((get_tasks_total s <? inflight_count thread_count)
                  && is_ready front) eqn:Hcond.
        -- apply andb_true_iff in Hcond as [Hlt Hready].
           apply Z.ltb_lt in Hlt.
           destruct front as [a | lcr counted]; [discriminate |]. eauto.
        -- injection H as <-. lia.
    + destruct (line_count_futures s) as [|[a | lcr counted] rest];
        try discriminate.
      destruct (dispatch_result header s s' lcr counted rest H)
        as (call & -> & _).
      fields. lia.
    + destruct (get_tasks_total s =? 0); [| discriminate].
      injection H as <-. fields. lia.
    + discriminate.
  - intros i s' [H | [H | [H | H]]].
    + unfold finish_count in H.
      destruct (line_count_futures s !! i) as [[a|r c]|]; try discriminate.
      now injection H as <-.
    + unfold retire_count in H.
      destruct (line_count_futures s !! i) as [[a|r [|]]|];
        try discriminate.
      now injection H as <-.
    + unfold retire_popped in H.
      destruct (retiring s); [discriminate |]. now injection H as <-.
    + unfold finish_parse in H.
      destruct (parse_tasks s !! i) as [[c [|]]|]; try discriminate.
      now injection H as <-.
Qed.

(** *** Concrete runs *)

Definition line (s : string) : string := s +:+ String newline EmptyString.

(** A 3-by-3 coordinate matrix header that took two lines. *)
Definition coordinate_header : matrix_market_header :=
  {| object := matrix; format := coordinate; nrows := 3; ncols := 3;
     header_line_count := 2 |}.

(** Eleven one-line chunks. *)
Definition eleven_chunks : list string := replicate 11 (line "1 1 1").

(** One worker thread: the main thread seeds ten chunks (eleven steps, the
    last one leaves the [for] loop), the worker finishes the first line
    count and the pool takes it off its count, the main thread reads the
    eleventh chunk and pushes its future. *)
Definition replacing_schedule : list action :=
  replicate 11 Main ++ [Count 0; Retire 0; Main].

(** Then the main thread pops the front future and submits the parse
    task. *)
Definition crowded_schedule : list action := replacing_schedule ++ [Main].

(** The state after the push: the front future is ready and the pool has
    taken its task off the count; ten futures are pending behind it. *)
Definition replaced_state : engine :=
  {| pc := Popping;
     instream := [];
     line_num := 2;
     line_count_futures :=
       ready (count_chunk_lines (new_line_count_result (line "1 1 1"))) false
         :: replicate 10 (pending (new_line_count_result (line "1 1 1")));
     retiring := 0;
     parse_tasks := [] |}.

(** Between the push and the pop, the FIFO holds one future more than
    [inflight_count]. *)
Lemma fifo_holds_one_more :
  reachable coordinate_header 1 eleven_chunks replaced_state
  /\ Z.of_nat (length (line_count_futures replaced_state))
     = inflight_count 1 + 1.
Proof.
  split; [| reflexivity].
  apply (run_schedule_steps coordinate_header 1 replacing_schedule).
  vm_compute. reflexivity.
Qed.

Definition crowded_state : engine :=
  {| pc := Looping;
     instream := [];
     line_num := 3;
     line_count_futures :=
       replicate 10 (pending (new_line_count_result (line "1 1 1")));
     retiring := 0;
     parse_tasks :=
       [(read_chunk_matrix_coordinate (line "1 1 1") 2 0, false)] |}.

Lemma crowded_state_reachable :
  reachable coordinate_header 1 eleven_chunks crowded_state.
Proof.
  apply (run_schedule_steps coordinate_header 1 crowded_schedule).
  vm_compute. reflexivity.
Qed.

(** C9 (counterexample).  With one thread the cap is 10, and after the
    first dispatch eleven chunks are in flight: ten in the FIFO and one in
    a parse task; the pool holds eleven tasks. *)
Lemma in_flight_exceeds_cap :
  exists s,
    reachable coordinate_header 1 eleven_chunks s
    /\ 10 * 1 < in_flight s
    /\ 10 * 1 < get_tasks_total s.
Proof.
  exists crowded_state. split; [exact crowded_state_reachable |].
  split; vm_compute; reflexivity.
Qed.

Lemma in_flight_chunks_bounded_witness :
  Z.of_nat (length (line_count_futures crowded_state)) <= inflight_count 1 + 1
  /\ (pc crowded_state <> Popping ->
      Z.of_nat (length (line_count_futures crowded_state))
      <= inflight_count 1)
  /\ Z.of_nat (unfinished_parses (parse_tasks crowded_state))
     <= inflight_count 1
  /\ in_flight crowded_state <= 2 * inflight_count 1
  /\ get_tasks_total crowded_state <= inflight_count 1 + 1
  /\ (0 <= 1 -> inflight_count 1 <= 10 * 1)
  /\ (forall i,
        pc crowded_state = Seeding i ->
        Z.of_nat (length eleven_chunks)
          - Z.of_nat (length (instream crowded_state)) = i
        /\ i <= inflight_count 1)
  /\ (forall s',
        main_step coordinate_header 1 crowded_state = Some s' ->
        (length (instream s') < length (instream crowded_state))%nat ->
        (exists i, pc crowded_state = Seeding i /\ i < inflight_count 1)
        \/ (pc crowded_state = Looping
            /\ get_tasks_total crowded_state < inflight_count 1
            /\ exists lcr counted rest,
                line_count_futures crowded_state
                = ready lcr counted :: rest))
  /\ (forall i s',
        finish_count i crowded_state = Some s'
        \/ retire_count i crowded_state = Some s'
        \/ retire_popped crowded_state = Some s'
        \/ finish_parse i crowded_state = Some s' ->
        instream s' = instream crowded_state).
Proof.
  apply (in_flight_chunks_bounded coordinate_header 1 eleven_chunks).
  apply (run_schedule_steps coordinate_header 1 crowded_schedule).
  vm_compute. reflexivity.
Defined.

(** Two chunks of two lines and one line, run to the return. *)
Definition two_chunks : list string :=
  [line "1 1 5" +:+ line "2 2 6"; line "3 3 7"].

Definition full_schedule : list action :=
  [Main; Main; Main; Count 1; Count 0; Main; Retire 0; Main; Parse 1; Main;
   RetirePopped; Parse 0; Main].

Definition returned_state : engine :=
  {| pc := Returned 5; instream := []; line_num := 5;
     line_count_futures := []; retiring := 0;
     parse_tasks :=
       [(read_chunk_matrix_coordinate (line "1 1 5" +:+ line "2 2 6") 2 0,
         true);
        (read_chunk_matrix_coordinate (line "3 3 7") 4 2, true)] |}.

Lemma chunk_line_start_in_stream_order_witness :
  (forall i p d,
      parse_tasks returned_state !! i = Some (p, d) ->
      two_chunks !! i = Some (call_chunk p)
      /\ call_line_start p
         = header_line_count coordinate_header
           + total_lines (take i two_chunks))
  /\ (forall i j p q d e,
        (i <= j)%nat ->
        parse_tasks returned_state !! i = Some (p, d) ->
        parse_tasks returned_state !! j = Some (q, e) ->
        call_line_start p <= call_line_start q)
  /\ (0 < inflight_count 1 ->
      forall r,
        pc returned_state = Returned r ->
        r = header_line_count coordinate_header + total_lines two_chunks)
  /\ (0 < inflight_count 1 ->
      (format coordinate_header = array -> ncols coordinate_header <> 0) ->
      exists s' r,
        rtc (step coordinate_header 1) returned_state s'
        /\ pc s' = Returned r)
  /\ (forall s',
        step coordinate_header 1 returned_state s' ->
        s' = returned_state \/ (measure s' < measure returned_state)%nat).
Proof.
  apply (chunk_line_start_in_stream_order coordinate_header 1 two_chunks).
  apply (run_schedule_steps coordinate_header 1 full_schedule).
  vm_compute. reflexivity.
Defined.

(** *** What the parsers are handed *)

(** Modelled from the spec: the chunk parsers ([read_chunk_array] and the
    coordinate parsers) are in [fast_matrix_market.hpp], not among the
    sources at hand.  They read a chunk line by line, skip blank
    (whitespace-only) lines, and consume one record per remaining line. *)
Fixpoint chunk_lines (s : string) : list string :=
  match s with
  | EmptyString => []
  | String a s' =>
      if Ascii.eqb a newline then EmptyString :: chunk_lines s'
      else match chunk_lines s' with
           | [] => [String a EmptyString]
           | l :: ls => String a l :: ls
           end
  end.

Definition is_space (a : ascii) : bool :=
  Ascii.eqb a " " || Ascii.eqb a (ascii_of_nat 9)
  || Ascii.eqb a (ascii_of_nat 13).

Fixpoint is_blank (l : string) : bool :=
  match l with
  | EmptyString => true
  | String a l' => is_space a && is_blank l'
  end.

(** Records a parser consumes from a chunk. *)
Definition chunk_records (c : string) : list string :=
  filter (fun l => is_blank l = false) (chunk_lines c).

Definition count_records (c : string) : Z :=
  Z.of_nat (length (chunk_records c)).

(** Modelled from the spec: [read_chunk_array] starts at the position it is
    given and walks column-major, one [handler.handle(row, col, value)] per
    record; the value is kept as its text. *)
Fixpoint read_chunk_array_records (nrows0 : Z) (records : list string)
    (row col : Z) : list (Z * Z * string) :=
  match records with
  | [] => []
  | v :: records' =>
      (row, col, v)
        :: (if row + 1 =? nrows0
            then read_chunk_array_records nrows0 records' 0 (col + 1)
            else read_chunk_array_records nrows0 records' (row + 1) col)
  end.

(** The [handle] calls an array parse task makes. *)
Definition array_task_calls (header : matrix_market_header)
    (t : parse_call * bool) : list (Z * Z * string) :=
  match fst t with
  | read_chunk_array c _ _ row col =>
      read_chunk_array_records (nrows header) (chunk_records c) row col
  | _ => []
  end.

(** In every interleaving an array chunk is started at
    [(offset % ncols, offset / ncols)], where [offset] is the chunk's first
    line counted from the first body line. *)
Lemma array_start_from_ncols
    (header : matrix_market_header) (thread_count : Z)
    (chunks : list string) (s : engine)
    (i : nat) (c : string) (l o row col : Z) (d : bool) :
  reachable header thread_count chunks s ->
  parse_tasks s !! i = Some (read_chunk_array c l o row col, d) ->
  o = header_line_count header + total_lines (take i chunks)
      - header_line_count header
  /\ row = Z.rem o (ncols header)
  /\ col = Z.quot o (ncols header).
Proof.
  intros Hreach Hi.
  destruct (Inv_reachable header thread_count chunks s Hreach)
    as ([H1 H2 H3 H4 H5] & _ & _).
  assert (calls s !! i = Some (read_chunk_array c l o row col)) as Hcall
    by (unfold calls; now rewrite list_lookup_fmap, Hi).
  rewrite Forall_lookup in H4. destruct (H4 _ _ Hcall) as [Ho (_ & _ & Hr & Hc)].
  cbn in Ho. split; [| split; assumption].
  assert ((call_line_start <$> calls s) !! i = Some l) as Hs
    by now rewrite list_lookup_fmap, Hcall.
  rewrite H3 in Hs. apply starts_lookup in Hs. rewrite Ho, Hs, H1.
  assert (i < length (call_chunk <$> calls s))%nat
    by (rewrite length_fmap; eapply lookup_lt_Some; eauto).
  rewrite take_app_le by lia. reflexivity.
Qed.

(** The 2-by-3 array file of scenario S4 (two header lines), read as
    three chunks of two lines and as one chunk. *)
Definition array_2x3 : matrix_market_header :=
  {| object := matrix; format := array; nrows := 2; ncols := 3;
     header_line_count := 2 |}.

Definition s4_split : list string :=
  [line "1" +:+ line "2"; line "3" +:+ line "4"; line "5" +:+ line "6"].

Definition s4_whole : list string :=
  [line "1" +:+ line "2" +:+ line "3" +:+ line "4" +:+ line "5"
     +:+ line "6"].

Definition split_schedule : list action :=
  [Main; Main; Main; Main; Count 0; Count 1; Count 2; Main; Main; Main;
   Main].

Definition whole_schedule : list action :=
  [Main; Main; Count 0; Main; Main].

Definition two_chunk_schedule : list action :=
  [Main; Main; Main; Count 0; Count 1; Main; Main; Main].

(** C1 (evaluation of the code where it departs from the claim).  The
    chunks of the split S4 file start at record ordinals 0, 2 and 4.  The
    engine hands the parsers [(ord % ncols, ord / ncols)], that is
    [(0, 0)], [(2, 0)] and [(1, 1)], where
    [(ord mod nrows, ord div nrows)] is [(0, 0)], [(0, 1)] and [(0, 2)];
    so the value 3 is delivered at row 2 of a two-row matrix, and 5 at
    [(1, 1)] where 4 belongs.  Read as one chunk, the same file is
    delivered in column-major order. *)
Theorem array_chunk_start_uses_ncols :
  (exists s,
      run_schedule array_2x3 1 split_schedule (start array_2x3 s4_split)
        = Some s
      /\ (fun t => call_handler_offset (fst t)) <$> parse_tasks s
         = [0; 2; 4]
      /\ (fun t => call_array_start (fst t)) <$> parse_tasks s
         = [Some (0, 0); Some (2, 0); Some (1, 1)]
      /\ (fun ord => (ord mod nrows array_2x3, ord / nrows array_2x3))
           <$> [0; 2; 4]
         = [(0, 0); (0, 1); (0, 2)]
      /\ concat (array_task_calls array_2x3 <$> parse_tasks s)
         = [(0, 0, "1"); (1, 0, "2");
            (2, 0, "3"); (3, 0, "4");
            (1, 1, "5"); (0, 2, "6")])
  /\ (exists s,
      run_schedule array_2x3 1 whole_schedule (start array_2x3 s4_whole)
        = Some s
      /\ concat (array_task_calls array_2x3 <$> parse_tasks s)
         = [(0, 0, "1"); (1, 0, "2");
            (0, 1, "3"); (1, 1, "4"); (0, 2, "5"); (1, 2, "6")]).
Proof.
  split; eexists; (split; [vm_compute; reflexivity |]); repeat split.
Qed.

(** In every interleaving the offset given to
    [handler.get_chunk_handler] is the chunk's line start less the header
    lines: whatever advances the line number advances the offset. *)
Lemma handler_offset_follows_line_start
    (header : matrix_market_header) (thread_count : Z)
    (chunks : list string) (s : engine)
    (i : nat) (p : parse_call) (d : bool) :
  reachable header thread_count chunks s ->
  parse_tasks s !! i = Some (p, d) ->
  call_handler_offset p = call_line_start p - header_line_count header.
Proof.
  intros Hreach Hi.
  destruct (Inv_reachable header thread_count chunks s Hreach)
    as ([_ _ _ H4 _] & _ & _).
  assert (calls s !! i = Some p) as Hcall
    by (unfold calls; now rewrite list_lookup_fmap, Hi).
  rewrite Forall_lookup in H4. exact (proj1 (H4 _ _ Hcall)).
Qed.

(** In every interleaving the offset given to
    [handler.get_chunk_handler] is the number of lines, blank ones
    included, of the chunks before. *)
Lemma handler_offset_counts_lines
    (header : matrix_market_header) (thread_count : Z)
    (chunks : list string) (s : engine)
    (i : nat) (p : parse_call) (d : bool) :
  reachable header thread_count chunks s ->
  parse_tasks s !! i = Some (p, d) ->
  call_handler_offset p = total_lines (take i chunks).
Proof.
  intros Hreach Hi.
  destruct (Inv_reachable header thread_count chunks s Hreach)
    as ([H1 H2 H3 H4 H5] & _ & _).
  assert (calls s !! i = Some p) as Hcall
    by (unfold calls; now rewrite list_lookup_fmap, Hi).
  rewrite Forall_lookup in H4. destruct (H4 _ _ Hcall) as [Ho _].
  assert ((call_line_start <$> calls s) !! i = Some (call_line_start p))
    as Hs by now rewrite list_lookup_fmap, Hcall.
  rewrite H3 in Hs. apply starts_lookup in Hs. rewrite Ho, Hs, H1.
  assert (i < length (call_chunk <$> calls s))%nat
    by (rewrite length_fmap; eapply lookup_lt_Some; eauto).
  rewrite take_app_le by lia. lia.
Qed.

(** A coordinate body with a blank line after the first record, and the
    same body without it, each read as two chunks. *)
Definition blank_chunks : list string :=
  [line "1 1 5" +:+ line ""; line "2 2 6"].

Definition dense_chunks : list string := [line "1 1 5"; line "2 2 6"].

(** C3 (evaluation of the code where it departs from the claim).  The
    first chunk holds two lines and one record.  The blank line advances
    the line number (the second chunk starts at line 4, the call returns
    5), and it advances the handler offset as well: the second chunk's
    handler starts at offset 2, although one record precedes it; without
    the blank line it starts at offset 1. *)
Theorem blank_line_shifts_handler_offset :
  exists s s0,
    run_schedule coordinate_header 1 two_chunk_schedule
      (start coordinate_header blank_chunks) = Some s
    /\ run_schedule coordinate_header 1 two_chunk_schedule
      (start coordinate_header dense_chunks) = Some s0
    /\ count_lines <$> blank_chunks = [2; 1]
    /\ count_records <$> blank_chunks = [1; 1]
    /\ (fun t => call_line_start (fst t)) <$> parse_tasks s = [2; 4]
    /\ line_num s = 5
    /\ (fun t => call_handler_offset (fst t)) <$> parse_tasks s = [0; 2]
    /\ (fun t => call_handler_offset (fst t)) <$> parse_tasks s0 = [0; 1].
Proof.
  eexists _, _. split; [vm_compute; reflexivity |].
  split; [vm_compute; reflexivity |]. repeat split.
Qed.

End ReadEngine.

(** ** The binding's triplet handler *)

Module NumpyHandler.

Section Handler.
Context {IT VT : Type}.

(** The three NumPy arrays.  Every handler holds references to the same
    three arrays, so they are the shared store the handlers act on. *)
Record arrays : Type := {
  rows : list IT;
  cols : list IT;
  values : list VT
}.

(** What a handler owns besides the references: its [offset]. *)
Record triplet_numpy_parse_handler : Type := { offset : Z }.

(** [a(i) = x] through [mutable_unchecked()]: no bounds check, so a write
    outside the array is undefined behaviour. *)
Definition store {A : Type} (a : list A) (i : Z) (x : A) : option (list A) :=
  if (0 <=? i) && (i <? Z.of_nat (length a))
  then Some (<[Z.to_nat i := x]> a)
  else None.

Definition handle (h : triplet_numpy_parse_handler) (row col : IT)
    (value : VT) (m : arrays)
  : option (triplet_numpy_parse_handler * arrays) :=
  r ← store (rows m) (offset h) row;
  c ← store (cols m) (offset h) col;
  v ← store (values m) (offset h) value;
  Some ({| offset := offset h + 1 |},
        {| rows := r; cols := c; values := v |}).

Definition get_chunk_handler (h : triplet_numpy_parse_handler)
    (offset_from_begin : Z) : triplet_numpy_parse_handler :=
  {| offset := offset_from_begin |}.

(** The [handle] calls a chunk parser makes, one per record, in order. *)
Fixpoint handle_all (h : triplet_numpy_parse_handler)
    (records : list (IT * IT * VT)) (m : arrays)
  : option (triplet_numpy_parse_handler * arrays) :=
  match records with
  | [] => Some (h, m)
  | (r, c, v) :: records' =>
      hm ← handle h r c v m; handle_all (fst hm) records' (snd hm)
  end.

(** Array [a] with [xs] written from position [off] on. *)
Fixpoint write_from {A : Type} (a : list A) (off : nat) (xs : list A)
  : list A :=
  match xs with
  | [] => a
  | x :: xs' => write_from (<[off := x]> a) (S off) xs'
  end.

End Handler.

Arguments arrays : clear implicits.

Section WriteFrom.
Context {A : Type}.

Lemma write_from_length (xs : list A) :
  forall (a : list A) (off : nat),
    length (write_from a off xs) = length a.
Proof.
  induction xs as [|x xs IH]; intros a off; cbn [write_from];
    [reflexivity |].
  now rewrite IH, length_insert.
Qed.

Lemma write_from_outside (xs : list A) :
  forall (a : list A) (off k : nat),
    (k < off \/ off + length xs <= k)%nat ->
    write_from a off xs !! k = a !! k.
Proof.
  induction xs as [|x xs IH]; intros a off k Hk; cbn [write_from];
    [reflexivity |].
  cbn [length] in Hk. rewrite IH by lia.
  apply list_lookup_insert_ne. lia.
Qed.

Lemma write_from_inside (xs : list A) :
  forall (a : list A) (off j : nat) (x : A),
    (off + length xs <= length a)%nat ->
    xs !! j = Some x ->
    write_from a off xs !! (off + j)%nat = Some x.
Proof.
  induction xs as [|y xs IH]; intros a off j x Hlen Hj; [discriminate |].
  cbn [write_from length] in *. destruct j as [|j].
  - injection Hj as ->. rewrite Nat.add_0_r, write_from_outside by lia.
    apply list_lookup_insert_eq. lia.
  - cbn in Hj. replace (off + S j)%nat with (S off + j)%nat by lia.
    apply IH; [rewrite length_insert; lia | exact Hj].
Qed.

(** Writes to disjoint ranges commute. *)
Lemma write_from_commute (a xs ys : list A) (o1 o2 : nat) :
  (o1 + length xs <= length a)%nat ->
  (o2 + length ys <= length a)%nat ->
  (o1 + length xs <= o2 \/ o2 + length ys <= o1)%nat ->
  write_from (write_from a o1 xs) o2 ys
  = write_from (write_from a o2 ys) o1 xs.
Proof.
  intros H1 H2 Hdis. apply list_eq. intros k.
  destruct (decide (o1 <= k < o1 + length xs)%nat) as [Hk1|Hk1].
  - destruct (lookup_lt_is_Some_2 xs (k - o1) ltac:(lia)) as [x Hx].
    replace k with (o1 + (k - o1))%nat by lia.
    rewrite (write_from_inside xs _ o1 (k - o1) x)
      by (rewrite ?write_from_length; auto).
    rewrite write_from_outside by lia.
    now rewrite (write_from_inside xs a o1 (k - o1) x).
  - destruct (decide (o2 <= k < o2 + length ys)%nat) as [Hk2|Hk2].
    + destruct (lookup_lt_is_Some_2 ys (k - o2) ltac:(lia)) as [y Hy].
      replace k with (o2 + (k - o2))%nat by lia.
      rewrite (write_from_inside ys _ o2 (k - o2) y)
        by (rewrite ?write_from_length; auto).
      rewrite write_from_outside by lia.
      now rewrite (write_from_inside ys a o2 (k - o2) y).
    + rewrite !write_from_outside by lia. reflexivity.
Qed.

Lemma store_inside (a : list A) (i : nat) (x : A) :
  (i < length a)%nat ->
  store a (Z.of_nat i) x = Some (<[i := x]> a).
Proof.
  intros H. unfold store.
  destruct (Z.leb_spec 0 (Z.of_nat i)); [| lia].
  destruct (Z.ltb_spec (Z.of_nat i) (Z.of_nat (length a))); [| lia].
  cbn [andb]. now rewrite Nat2Z.id.
Qed.

End WriteFrom.

Section HandlerFacts.
Context {IT VT : Type}.
Local Abbreviation handler := triplet_numpy_parse_handler.
Local Abbreviation mem := (arrays IT VT).

Definition record_rows (rs : list (IT * IT * VT)) : list IT :=
  (fun t => fst (fst t)) <$> rs.
Definition record_cols (rs : list (IT * IT * VT)) : list IT :=
  (fun t => snd (fst t)) <$> rs.
Definition record_values (rs : list (IT * IT * VT)) : list VT :=
  snd <$> rs.

(** The range [off, off + n) lies inside all three arrays. *)
Definition in_bounds (m : mem) (off : nat) (n : nat) : Prop :=
  (off + n <= length (rows m))%nat
  /\ (off + n <= length (cols m))%nat
  /\ (off + n <= length (values m))%nat.

(** One array state agrees with another outside one position. *)
Definition same_except (m m' : mem) (i : nat) : Prop :=
  forall k, k <> i ->
    rows m' !! k = rows m !! k
    /\ cols m' !! k = cols m !! k
    /\ values m' !! k = values m !! k.

(** One [handle] call inside the arrays: it writes position [offset] of
    each array, nothing else, and moves the handler on by one. *)
Lemma handle_one (o : nat) (r c : IT) (v : VT) (m : mem) :
  in_bounds m o 1 ->
  exists m',
    handle {| offset := Z.of_nat o |} r c v m
      = Some ({| offset := Z.of_nat (S o) |}, m')
    /\ m' = {| rows := <[o := r]> (rows m); cols := <[o := c]> (cols m);
               values := <[o := v]> (values m) |}
    /\ rows m' !! o = Some r /\ cols m' !! o = Some c
    /\ values m' !! o = Some v
    /\ same_except m m' o.
Proof.
  intros (Hr & Hc & Hv). eexists. split; [| split; [reflexivity |]].
  - unfold handle. cbn [offset].
    rewrite !store_inside by lia. cbn [mbind option_bind].
    do 3 f_equal. lia.
  - cbn [rows cols values].
    rewrite !list_lookup_insert_eq by lia. repeat split.
    all: apply list_lookup_insert_ne; congruence.
Qed.

(** All calls of a chunk: the arrays end up with the records written from
    [off] on. *)
Lemma handle_all_writes (rs : list (IT * IT * VT)) :
  forall (o : nat) (m : mem),
    in_bounds m o (length rs) ->
    handle_all {| offset := Z.of_nat o |} rs m
    = Some ({| offset := Z.of_nat (o + length rs) |},
            {| rows := write_from (rows m) o (record_rows rs);
               cols := write_from (cols m) o (record_cols rs);
               values := write_from (values m) o (record_values rs) |}).
Proof.
  induction rs as [|[[r c] v] rs IH]; intros o m (Hr & Hc & Hv).
  - cbn. rewrite Nat.add_0_r. now destruct m.
  - cbn [length] in *.
    destruct (handle_one o r c v m) as (m' & Hh & -> & _);
      [unfold in_bounds; lia |].
    cbn [handle_all]. rewrite Hh. cbn [mbind option_bind fst snd].
    rewrite IH by (unfold in_bounds; cbn [rows cols values];
                   rewrite !length_insert; lia).
    cbn [rows cols values]. do 3 f_equal. lia.
Qed.

End HandlerFacts.

Section ChunkHandlers.
Context {IT VT : Type}.
Local Abbreviation handler := triplet_numpy_parse_handler.
Local Abbreviation mem := (arrays IT VT).

Lemma in_bounds_written (m : mem) (o n o' : nat) (rs : list (IT * IT * VT)) :
  in_bounds m o n ->
  in_bounds {| rows := write_from (rows m) o' (record_rows rs);
               cols := write_from (cols m) o' (record_cols rs);
               values := write_from (values m) o' (record_values rs) |}
            o n.
Proof.
  unfold in_bounds. cbn [rows cols values].
  now rewrite !write_from_length.
Qed.

(** C8.  A handler obtained from [get_chunk_handler(off)], given records
    that fit in the arrays from [off] on: every [handle] call succeeds and
    the handler ends at [off + n]; record [j] ends up at position
    [off + j] of each array and positions outside [off, off + n) keep their
    contents; the [j]-th call itself starts from offset [off + j], writes
    position [off + j] of each array and leaves every other position as it
    was; and with a second chunk handler on a disjoint range, either order
    of running the two leaves the same arrays. *)
Theorem chunk_handler_writes_own_range
    (h0 : handler) (off : Z) (rs : list (IT * IT * VT)) (m : mem) :
  0 <= off ->
  in_bounds m (Z.to_nat off) (length rs) ->
  (exists m',
      handle_all (get_chunk_handler h0 off) rs m
        = Some ({| offset := off + Z.of_nat (length rs) |}, m')
      /\ (forall j r c v,
            rs !! j = Some (r, c, v) ->
            rows m' !! (Z.to_nat off + j)%nat = Some r
            /\ cols m' !! (Z.to_nat off + j)%nat = Some c
            /\ values m' !! (Z.to_nat off + j)%nat = Some v)
      /\ (forall k,
            (k < Z.to_nat off \/ Z.to_nat off + length rs <= k)%nat ->
            rows m' !! k = rows m !! k
            /\ cols m' !! k = cols m !! k
            /\ values m' !! k = values m !! k))
  /\ (forall j r c v,
        rs !! j = Some (r, c, v) ->
        exists mj mj',
          handle_all (get_chunk_handler h0 off) (take j rs) m
            = Some ({| offset := off + Z.of_nat j |}, mj)
          /\ handle {| offset := off + Z.of_nat j |} r c v mj
             = Some ({| offset := off + Z.of_nat j + 1 |}, mj')
          /\ rows mj' !! (Z.to_nat off + j)%nat = Some r
          /\ cols mj' !! (Z.to_nat off + j)%nat = Some c
          /\ values mj' !! (Z.to_nat off + j)%nat = Some v
          /\ same_except mj mj' (Z.to_nat off + j))
  /\ (forall (h1 : handler) (off2 : Z) (rs2 : list (IT * IT * VT)),
        0 <= off2 ->
        in_bounds m (Z.to_nat off2) (length rs2) ->
        off + Z.of_nat (length rs) <= off2
        \/ off2 + Z.of_nat (length rs2) <= off ->
        exists mf,
          (hm ← handle_all (get_chunk_handler h0 off) rs m;
           handle_all (get_chunk_handler h1 off2) rs2 (snd hm))
            = Some ({| offset := off2 + Z.of_nat (length rs2) |}, mf)
          /\ (hm ← handle_all (get_chunk_handler h1 off2) rs2 m;
              handle_all (get_chunk_handler h0 off) rs (snd hm))
             = Some ({| offset := off + Z.of_nat (length rs) |}, mf)).
Proof.
  intros Hoff Hb. unfold get_chunk_handler.
  assert (exists o, off = Z.of_nat o) as [o ->]
    by (exists (Z.to_nat off); lia).
  rewrite Nat2Z.id in *. clear Hoff.
  split; [| split].
  - eexists. split; [| split].
    + rewrite handle_all_writes by exact Hb. do 3 f_equal. lia.
    + intros j r c v Hj. destruct Hb as (Hr & Hc & Hv). cbn [rows cols values].
      split; [| split]; apply write_from_inside;
        unfold record_rows, record_cols, record_values;
        rewrite ?length_fmap, ?list_lookup_fmap, ?Hj; auto.
    + intros k Hk. cbn [rows cols values].
      split; [| split]; apply write_from_outside;
        unfold record_rows, record_cols, record_values;
        rewrite length_fmap; exact Hk.
  - intros j r c v Hj.
    assert (j < length rs)%nat as Hlt by (eapply lookup_lt_Some; eauto).
    assert (length (take j rs) = j) as Hlen by (rewrite length_take; lia).
    destruct Hb as (Hr & Hc & Hv).
    assert (in_bounds m o (length (take j rs))) as Hbj
      by (unfold in_bounds; rewrite Hlen; lia).
    rewrite (handle_all_writes (take j rs) o m Hbj), Hlen.
    destruct (handle_one (o + j) r c v
                {| rows := write_from (rows m) o (record_rows (take j rs));
                   cols := write_from (cols m) o (record_cols (take j rs));
                   values :=
                     write_from (values m) o (record_values (take j rs)) |})
      as (mj' & Hh & _ & Hrow & Hcol & Hval & Hsame).
    { apply in_bounds_written. unfold in_bounds. lia. }
    eexists _, mj'. split; [do 3 f_equal; lia |].
    split; [| auto].
    replace (Z.of_nat o + Z.of_nat j) with (Z.of_nat (o + j)) by lia.
    rewrite Hh. do 3 f_equal. lia.
  - intros h1 off2 rs2 Hoff2 Hb2 Hdis.
    assert (exists o2, off2 = Z.of_nat o2) as [o2 ->]
      by (exists (Z.to_nat off2); lia).
    rewrite Nat2Z.id in *.
    rewrite (handle_all_writes rs o m Hb), (handle_all_writes rs2 o2 m Hb2).
    cbn [mbind option_bind snd].
    rewrite (handle_all_writes rs2 o2) by now apply in_bounds_written.
    rewrite (handle_all_writes rs o) by now apply in_bounds_written.
    cbn [rows cols values].
    destruct Hb as (Hr & Hc & Hv), Hb2 as (Hr2 & Hc2 & Hv2).
    eexists. split; [do 3 f_equal; lia |].
    f_equal. f_equal; [f_equal; lia |].
    f_equal; apply write_from_commute;
      unfold record_rows, record_cols, record_values;
      rewrite ?length_fmap; lia.
Qed.

End ChunkHandlers.

(** Two chunk handlers over arrays of four entries: records 0 and 1 for
    the first, records 2 and 3 for the second. *)
Definition four_zeros : arrays Z Z :=
  {| rows := [0; 0; 0; 0]; cols := [0; 0; 0; 0]; values := [0; 0; 0; 0] |}.

Lemma chunk_handler_writes_own_range_witness :
  (exists m',
      handle_all (get_chunk_handler {| offset := 0 |} 2)
                 [(5, 6, 7); (8, 9, 10)] four_zeros
        = Some ({| offset := 2 + Z.of_nat 2 |}, m')
      /\ (forall j r c v,
            [(5, 6, 7); (8, 9, 10)] !! j = Some (r, c, v) ->
            rows m' !! (Z.to_nat 2 + j)%nat = Some r
            /\ cols m' !! (Z.to_nat 2 + j)%nat = Some c
            /\ values m' !! (Z.to_nat 2 + j)%nat = Some v)
      /\ (forall k,
            (k < Z.to_nat 2 \/ Z.to_nat 2 + 2 <= k)%nat ->
            rows m' !! k = rows four_zeros !! k
            /\ cols m' !! k = cols four_zeros !! k
            /\ values m' !! k = values four_zeros !! k))
  /\ (forall j r c v,
        [(5, 6, 7); (8, 9, 10)] !! j = Some (r, c, v) ->
        exists mj mj',
          handle_all (get_chunk_handler {| offset := 0 |} 2)
                     (take j [(5, 6, 7); (8, 9, 10)]) four_zeros
            = Some ({| offset := 2 + Z.of_nat j |}, mj)
          /\ handle {| offset := 2 + Z.of_nat j |} r c v mj
             = Some ({| offset := 2 + Z.of_nat j + 1 |}, mj')
          /\ rows mj' !! (Z.to_nat 2 + j)%nat = Some r
          /\ cols mj' !! (Z.to_nat 2 + j)%nat = Some c
          /\ values mj' !! (Z.to_nat 2 + j)%nat = Some v
          /\ same_except mj mj' (Z.to_nat 2 + j))
  /\ (forall (h1 : triplet_numpy_parse_handler) (off2 : Z)
             (rs2 : list (Z * Z * Z)),
        0 <= off2 ->
        in_bounds four_zeros (Z.to_nat off2) (length rs2) ->
        2 + Z.of_nat 2 <= off2 \/ off2 + Z.of_nat (length rs2) <= 2 ->
        exists mf,
          (hm ← handle_all (get_chunk_handler {| offset := 0 |} 2)
                           [(5, 6, 7); (8, 9, 10)] four_zeros;
           handle_all (get_chunk_handler h1 off2) rs2 (snd hm))
            = Some ({| offset := off2 + Z.of_nat (length rs2) |}, mf)
          /\ (hm ← handle_all (get_chunk_handler h1 off2) rs2 four_zeros;
              handle_all (get_chunk_handler {| offset := 0 |} 2)
                         [(5, 6, 7); (8, 9, 10)] (snd hm))
             = Some ({| offset := 2 + Z.of_nat 2 |}, mf)).
Proof.
  apply (chunk_handler_writes_own_range {| offset := 0 |} 2
           [(5, 6, 7); (8, 9, 10)] four_zeros).
  - lia.
  - unfold in_bounds. simpl. lia.
Defined.

(** The two chunks of a two-record file with a blank line, as the engine
    dispatches them (offsets 0 and 2) into arrays sized for [nnz = 2]: the
    second handler's first write is outside the arrays. *)
Example offset_past_the_arrays :
  let m := {| rows := [0; 0]; cols := [0; 0]; values := [0; 0] |} in
  handle_all (get_chunk_handler {| offset := 0 |} 0) [(0, 0, 5)] m
    = Some ({| offset := 1 |},
            {| rows := [0; 0]; cols := [0; 0]; values := [5; 0] |})
  /\ handle_all (get_chunk_handler {| offset := 0 |} 2) [(1, 1, 6)] m = None
  /\ handle_all (get_chunk_handler {| offset := 0 |} 1) [(1, 1, 6)] m
     = Some ({| offset := 2 |},
             {| rows := [0; 1]; cols := [0; 1]; values := [0; 6] |}).
Proof. repeat split. Qed.

End NumpyHandler.

(** ** Compressed-column formatter: drain loop and text of the chunks *)

Module CscBody.
Import Csc.

(** The drain loop [while (f.has_next()) cs.push(f.next_chunk(o))].  [None]:
    [fuel] iterations do not end it, or a conversion to [int64_t] inside
    [next_chunk] is undefined. *)
Fixpoint drain (fuel : nat) (options : write_options) (f : csc_formatter)
  : option (list chunk * csc_formatter) :=
  if has_next f then
    match fuel with
    | O => None
    | S fuel' =>
        cf ← next_chunk options f;
        r ← drain fuel' options (snd cf);
        Some (fst cf :: fst r, snd r)
    end
  else Some ([], f).

Section Chunk.
Context {VT : Type}.
Variable int_to_string : Z -> string.
Variable value_to_string : VT -> string.
Variables (ptrs inds : list Z) (vals : list VT).

(** The inner loop of [chunk::operator()], over the rows of one column:
    [for (; row_iter != row_end; ++row_iter)], with the column's text [col]
    and the string built so far. *)
Fixpoint rows_loop (fuel : nat) (transpose0 : bool) (col : string)
    (row_iter row_end val_iter val_end0 : Z) (out : string) : option string :=
  if negb (row_iter =? row_end) then
    match fuel with
    | O => None
    | S fuel' =>
        r ← deref inds row_iter;
        let row := int_to_string (r + 1) in
        let out :=
          if transpose0 then ((out +:+ col) +:+ kSpace) +:+ row
          else ((out +:+ row) +:+ kSpace) +:+ col in
        ov ← (if negb (val_iter =? val_end0) then
                 v ← deref vals val_iter;
                 Some ((out +:+ kSpace) +:+ value_to_string v, val_iter + 1)
               else Some (out, val_iter));
        rows_loop fuel' transpose0 col (row_iter + 1) row_end (snd ov) val_end0
                  (fst ov +:+ kNewline)
    end
  else Some out.

(** The outer loop, over the columns [chunk_ptr_iter, chunk_ptr_end). *)
Fixpoint columns_loop (fuel : nat) (c : chunk) (out : string) : option string :=
  if negb (chunk_ptr_iter c =? chunk_ptr_end c) then
    match fuel with
    | O => None
    | S fuel' =>
        let column_number := chunk_ptr_iter c - chunk_ptr_begin c in
        let col := int_to_string (column_number + 1) in
        hi ← deref ptrs (chunk_ptr_iter c + 1);
        lo ← deref ptrs (chunk_ptr_iter c);
        let row_end := chunk_ind_begin c + hi in
        let row_iter := chunk_ind_begin c + lo in
        let val_iter :=
          if negb (chunk_val_begin c =? chunk_val_end c)
          then chunk_val_begin c + lo else chunk_val_begin c in
        out' ← rows_loop (Z.to_nat (row_end - row_iter)) (chunk_transpose c)
                 col row_iter row_end val_iter (chunk_val_end c) out;
        columns_loop fuel'
          {| chunk_ptr_begin := chunk_ptr_begin c;
             chunk_ptr_iter := chunk_ptr_iter c + 1;
             chunk_ptr_end := chunk_ptr_end c;
             chunk_ind_begin := chunk_ind_begin c;
             chunk_val_begin := chunk_val_begin c;
             chunk_val_end := chunk_val_end c;
             chunk_transpose := chunk_transpose c |}
          out'
    end
  else Some out.

(** [chunk::operator()]: both loops get as many iterations as their range
    is long. *)
Definition chunk_call (c : chunk) : option string :=
  columns_loop (Z.to_nat (chunk_ptr_end c - chunk_ptr_iter c)) c EmptyString.

Definition run_chunks (cs : list chunk) : option (list string) :=
  mapM chunk_call cs.

End Chunk.

(** The pointer array of a matrix whose columns hold [lens] entries, the
    first of them starting at entry [s]: the running sums. *)
Fixpoint offsets (s : nat) (lens : list nat) : list nat :=
  match lens with
  | [] => [s]
  | l :: lens' => s :: offsets (s + l) lens'
  end.

(** The column of every entry, in storage order: [c0] for the entries of the
    first column, [c0 + 1] for those of the second, and so on. *)
Fixpoint entry_columns (c0 : nat) (lens : list nat) : list Z :=
  match lens with
  | [] => []
  | l :: lens' => replicate l (Z.of_nat c0) ++ entry_columns (S c0) lens'
  end.

(** The formatter over whole arrays, as [write_csc] builds it: the pointer
    range ends one before the pointer array's end. *)
Definition formatter_of_arrays {VT : Type} (ptrs inds : list Z)
    (vals : list VT) (transpose0 : bool) : fmm_error + csc_formatter :=
  make_csc_formatter 0 (Z.of_nat (length ptrs) - 1)
                     0 (Z.of_nat (length inds))
                     0 (Z.of_nat (length vals)) transpose0.

(** The column count [next_chunk] computes before the cap. *)
Definition columns_per_chunk (npc : float) (options : write_options)
  : option Z :=
  int64_of_double
    (PrimFloat.add
       (PrimFloat.mul npc (double_of_int64 (chunk_size_values options)))
       (double_of_int64 1)).

(** At [chunk_size_values = INT64_MIN] the conversion to [double] is exact;
    with an estimate of one entry per column the column count is
    [INT64_MIN], and with an empty matrix it is 1. *)
Example csc_columns_at_int64_min :
  int64_of_double (double_of_int64 (- 2 ^ 63)) = Some (- 2 ^ 63)
  /\ columns_per_chunk (double_of_int64 1)
       {| chunk_size_values := - 2 ^ 63 |} = Some (- 2 ^ 63)
  /\ columns_per_chunk (double_of_int64 0)
       {| chunk_size_values := - 2 ^ 63 |} = Some 1.
Proof. repeat split; vm_compute; reflexivity. Qed.

Lemma sum_list_cons (l : nat) (lens : list nat) :
  sum_list (l :: lens) = (l + sum_list lens)%nat.
Proof. reflexivity. Qed.

Lemma sum_list_app (l1 l2 : list nat) :
  sum_list (l1 ++ l2) = (sum_list l1 + sum_list l2)%nat.
Proof.
  induction l1 as [|l l1 IH]; [reflexivity |].
  cbn [app]. rewrite !sum_list_cons, IH. lia.
Qed.

Lemma offsets_length (lens : list nat) :
  forall s, length (offsets s lens) = S (length lens).
Proof. induction lens as [|l lens IH]; intros s; simpl; [| rewrite IH]; reflexivity. Qed.

Lemma offsets_drop (m : nat) :
  forall (s : nat) (lens : list nat),
    (m <= length lens)%nat ->
    drop m (offsets s lens)
    = offsets (s + sum_list (take m lens)) (drop m lens).
Proof.
  induction m as [|m IH]; intros s lens Hm.
  - cbn. now rewrite Nat.add_0_r.
  - destruct lens as [|l lens]; [simpl in Hm; lia |].
    cbn [offsets drop take]. rewrite sum_list_cons, IH by (simpl in Hm; lia).
    f_equal. lia.
Qed.

Lemma entry_columns_length (lens : list nat) :
  forall c0, length (entry_columns c0 lens) = sum_list lens.
Proof.
  induction lens as [|l lens IH]; intros c0; [reflexivity |].
  cbn [entry_columns]. rewrite length_app, length_replicate, IH. reflexivity.
Qed.

Section Text.
Context {VT : Type}.
Variable int_to_string : Z -> string.
Variable value_to_string : VT -> string.
Variables (ptrs inds : list Z) (vals : list VT).
Variable tr : bool.

Local Abbreviation lines := (Triplet.record_lines int_to_string value_to_string).

(** Lines of the entries [p, p+l) of column [c]; [hv]: values are present. *)
Definition col_lines (hv : bool) (c p l : nat) : list string :=
  if tr then lines hv (replicate l (Z.of_nat c)) (take l (drop p inds))
                   (take l (drop p vals))
  else lines hv (take l (drop p inds)) (replicate l (Z.of_nat c))
             (take l (drop p vals)).

(** Lines of consecutive columns, the first being column [c] and starting
    at entry [p]. *)
Fixpoint columns_lines (hv : bool) (c p : nat) (lens : list nat)
  : list string :=
  match lens with
  | [] => []
  | l :: lens' => col_lines hv c p l ++ columns_lines hv (S c) (p + l) lens'
  end.

Lemma columns_lines_app (hv : bool) (l1 : list nat) :
  forall (c p : nat) (l2 : list nat),
    columns_lines hv c p (l1 ++ l2)
    = columns_lines hv c p l1
        ++ columns_lines hv (c + length l1) (p + sum_list l1) l2.
Proof.
  induction l1 as [|l l1 IH]; intros c p l2.
  - cbn. now rewrite !Nat.add_0_r.
  - cbn [app columns_lines length]. rewrite IH, <- app_assoc.
    rewrite sum_list_cons. do 3 f_equal; lia.
Qed.

Lemma csc_rows_loop_lines (hv : bool) (c : nat) (val_end0 : Z) (l : nat) :
  forall (p : nat) (val_iter : Z) (out : string),
    (p + l <= length inds)%nat ->
    (if hv then val_iter = Z.of_nat p /\ val_end0 = Z.of_nat (length vals)
                  /\ (p + l <= length vals)%nat
     else val_iter = val_end0) ->
    rows_loop int_to_string value_to_string inds vals l tr
              (int_to_string (Z.of_nat c + 1))
              (Z.of_nat p) (Z.of_nat (p + l)) val_iter val_end0 out
    = Some (out +:+ concat_strings (col_lines hv c p l)).
Proof.
  induction l as [|l IH]; intros p val_iter out Hl Hv.
  - cbn [rows_loop]. rewrite Nat.add_0_r, Z.eqb_refl. cbn [negb].
    unfold col_lines. destruct tr; cbn; now rewrite append_nil_r.
  - cbn [rows_loop].
    destruct (Z.eqb_spec (Z.of_nat p) (Z.of_nat (p + S l))) as [E|_]; [lia |].
    cbn [negb].
    destruct (lookup_lt_is_Some_2 inds p ltac:(lia)) as [r Hr].
    rewrite deref_lookup, Hr. cbn [mbind option_bind].
    assert (Z.of_nat p + 1 = Z.of_nat (S p)) as -> by lia.
    assert (Z.of_nat (p + S l) = Z.of_nat (S p + l)) as -> by lia.
    unfold col_lines. rewrite (drop_S _ _ _ Hr). cbn [take replicate].
    destruct hv.
    + destruct Hv as (-> & -> & Hlv).
      destruct (lookup_lt_is_Some_2 vals p ltac:(lia)) as [v Hval].
      destruct (Z.eqb_spec (Z.of_nat p) (Z.of_nat (length vals))) as [E|_];
        [lia |]. cbn [negb].
      rewrite deref_lookup, Hval. cbn [mbind option_bind fst snd].
      rewrite (drop_S _ _ _ Hval). cbn [take].
      assert (Z.of_nat p + 1 = Z.of_nat (S p)) as -> by lia.
      rewrite (IH (S p)) by (repeat split; lia).
      f_equal. unfold col_lines.
      destruct tr; cbn [Triplet.record_lines concat_strings fold_right];
        unfold Triplet.value_line; now rewrite !append_assoc.
    + subst val_iter. rewrite Z.eqb_refl. cbn [negb mbind option_bind fst snd].
      rewrite (IH (S p)) by (try reflexivity; lia).
      f_equal. unfold col_lines.
      destruct tr; cbn [Triplet.record_lines concat_strings fold_right];
        unfold Triplet.pattern_line; rewrite !append_assoc;
        rewrite (Triplet.record_lines_pattern int_to_string value_to_string
                   _ _ (take (S l) (drop p vals)) (take l (drop (S p) vals)));
        reflexivity.
Qed.

Lemma offsets_head (lens : list nat) (s : nat) :
  exists t, offsets s lens = s :: t.
Proof. destruct lens; eexists; reflexivity. Qed.

(** Prepending and appending whole records splits the lines. *)
Lemma record_lines_app (hv : bool) (a1 a2 b1 b2 : list Z) (v1 v2 : list VT) :
  length b1 = length a1 ->
  (hv = true -> length v1 = length a1) ->
  lines hv (a1 ++ a2) (b1 ++ b2) (v1 ++ v2)
  = lines hv a1 b1 v1 ++ lines hv a2 b2 v2.
Proof.
  intros Hb Hv.
  rewrite (Triplet.record_lines_split int_to_string value_to_string hv
             (length a1)).
  rewrite take_app_length, drop_app_length.
  rewrite <- Hb at 1 3. rewrite take_app_length, drop_app_length.
  destruct hv.
  - rewrite <- (Hv eq_refl). now rewrite take_app_length, drop_app_length.
  - f_equal; apply Triplet.record_lines_pattern.
Qed.

(** The chunk over the columns [c, c+m) of the whole arrays. *)
Definition chunk_at (hv : bool) (c m : nat) : chunk :=
  {| chunk_ptr_begin := 0; chunk_ptr_iter := Z.of_nat c;
     chunk_ptr_end := Z.of_nat (c + m);
     chunk_ind_begin := 0;
     chunk_val_begin := 0;
     chunk_val_end := if hv then Z.of_nat (length vals) else 0;
     chunk_transpose := tr |}.

Lemma csc_columns_loop_lines (hv : bool) (m : nat) :
  forall (c p : nat) (lens : list nat) (out : string),
    drop c ptrs = Z.of_nat <$> offsets p lens ->
    (m <= length lens)%nat ->
    (p + sum_list (take m lens) <= length inds)%nat ->
    (hv = true -> vals <> [] /\ length vals = length inds) ->
    columns_loop int_to_string value_to_string ptrs inds vals m
                 (chunk_at hv c m) out
    = Some (out +:+ concat_strings (columns_lines hv c p (take m lens))).
Proof.
  induction m as [|m IH]; intros c p lens out Hp Hm Hi Hv.
  - cbn [columns_loop chunk_at chunk_ptr_iter chunk_ptr_end].
    rewrite Nat.add_0_r, Z.eqb_refl. cbn. now rewrite append_nil_r.
  - destruct lens as [|l lens]; [simpl in Hm; lia |].
    cbn [take] in Hi. rewrite sum_list_cons in Hi.
    cbn [offsets fmap list_fmap] in Hp.
    assert (ptrs !! c = Some (Z.of_nat p)) as Hlo.
    { rewrite <- (Nat.add_0_r c), <- lookup_drop, Hp. reflexivity. }
    assert (drop (S c) ptrs = Z.of_nat <$> offsets (p + l) lens) as Hp'.
    { replace (S c) with (c + 1)%nat by lia.
      rewrite <- drop_drop, Hp. reflexivity. }
    assert (ptrs !! S c = Some (Z.of_nat (p + l))) as Hhi.
    { rewrite <- (Nat.add_0_r (S c)), <- lookup_drop, Hp'.
      destruct (offsets_head lens (p + l)) as [t ->]. reflexivity. }
    cbn [columns_loop chunk_at chunk_ptr_begin chunk_ptr_iter chunk_ptr_end
         chunk_ind_begin chunk_val_begin chunk_val_end chunk_transpose].
    destruct (Z.eqb_spec (Z.of_nat c) (Z.of_nat (c + S m))) as [E|_]; [lia |].
    cbn [negb].
    assert (Z.of_nat c + 1 = Z.of_nat (S c)) as -> by lia.
    rewrite !deref_lookup, Hhi, Hlo. cbn [mbind option_bind].
    rewrite !Z.add_0_l, Z.sub_0_r.
    assert (Z.to_nat (Z.of_nat (p + l) - Z.of_nat p) = l) as -> by lia.
    rewrite (csc_rows_loop_lines hv c _ l p).
    + cbn [mbind option_bind].
      assert (Z.of_nat (c + S m) = Z.of_nat (S c + m)) as -> by lia.
      fold (chunk_at hv (S c) m).
      rewrite (IH (S c) (p + l)%nat lens) by (auto; simpl in Hm; lia).
      cbn [take columns_lines]. now rewrite concat_strings_app, append_assoc.
    + lia.
    + destruct hv.
      * destruct (Hv eq_refl) as [Hne Hlen].
        destruct (Z.eqb_spec 0 (Z.of_nat (length vals))) as [E|_].
        { destruct vals; [congruence | discriminate]. }
        cbn [negb]. repeat split; lia.
      * reflexivity.
Qed.

(** The formatter over the whole arrays after [c] columns have been handed
    out. *)
Definition formatter_at (hv : bool) (npc : float) (c : nat) : csc_formatter :=
  {| ptr_begin := 0; ptr_iter := Z.of_nat c;
     ptr_end := Z.of_nat (length ptrs) - 1;
     ind_begin := 0;
     val_begin := 0;
     val_end := if hv then Z.of_nat (length vals) else 0;
     transpose := tr;
     nnz_per_column := npc |}.

Local Abbreviation run :=
  (run_chunks int_to_string value_to_string ptrs inds vals).

Lemma csc_drain_text (hv : bool) (npc : float) (o : write_options) (k : Z) :
  columns_per_chunk npc o = Some k ->
  1 <= k ->
  (hv = true -> vals <> [] /\ length vals = length inds) ->
  forall (fuel c p : nat) (lens : list nat),
    drop c ptrs = Z.of_nat <$> offsets p lens ->
    (length lens <= fuel)%nat ->
    (p + sum_list lens <= length inds)%nat ->
    exists cs f' strs,
      drain fuel o (formatter_at hv npc c) = Some (cs, f')
      /\ has_next f' = false
      /\ run cs = Some strs
      /\ concat_strings strs = concat_strings (columns_lines hv c p lens).
Proof.
  intros Hk Hk1 Hv.
  induction fuel as [|fuel IH]; intros c p lens Hp Hfuel Hi.
  all: assert (length ptrs = S (c + length lens)) as Hlen
    by (apply (f_equal length) in Hp;
        rewrite length_drop, length_fmap, offsets_length in Hp; lia).
  - destruct lens; [| simpl in Hfuel; lia].
    exists [], (formatter_at hv npc c), [].
    assert (has_next (formatter_at hv npc c) = false) as Hn.
    { unfold has_next, formatter_at. cbn [ptr_iter ptr_end].
      destruct (Z.eqb_spec (Z.of_nat c) (Z.of_nat (length ptrs) - 1));
        [reflexivity | simpl in Hlen; lia]. }
    cbn [drain]. rewrite Hn. repeat split; reflexivity.
  - destruct (Nat.eq_dec (length lens) 0%nat) as [E0|E0].
    + destruct lens; [| discriminate].
      exists [], (formatter_at hv npc c), [].
      assert (has_next (formatter_at hv npc c) = false) as Hn.
      { unfold has_next, formatter_at. cbn [ptr_iter ptr_end].
        destruct (Z.eqb_spec (Z.of_nat c) (Z.of_nat (length ptrs) - 1));
          [reflexivity | simpl in Hlen; lia]. }
      cbn [drain]. rewrite Hn. repeat split; reflexivity.
    + assert (has_next (formatter_at hv npc c) = true) as Hn.
      { unfold has_next, formatter_at. cbn [ptr_iter ptr_end].
        destruct (Z.eqb_spec (Z.of_nat c) (Z.of_nat (length ptrs) - 1));
          [lia | reflexivity]. }
      set (m := Z.to_nat (Z.min k (Z.of_nat (length ptrs) - 1 - Z.of_nat c))).
      assert (0 < m <= length lens)%nat as [Hm0 Hm] by lia.
      assert (next_chunk o (formatter_at hv npc c)
              = Some (chunk_at hv c m, formatter_at hv npc (c + m))) as Hnext.
      { unfold next_chunk. fold (columns_per_chunk (nnz_per_column (formatter_at hv npc c)) o).
        cbn [formatter_at nnz_per_column]. rewrite Hk. cbn [mbind option_bind].
        unfold chunk_at, formatter_at.
        cbn [ptr_begin ptr_iter ptr_end ind_begin val_begin val_end transpose
             nnz_per_column].
        assert (Z.of_nat c + Z.min k (Z.of_nat (length ptrs) - 1 - Z.of_nat c)
                = Z.of_nat (c + m)) as -> by lia.
        reflexivity. }
      destruct (IH (c + m)%nat (p + sum_list (take m lens))%nat (drop m lens))
        as (cs & f' & strs & Hd & Hh & Hr & Hcat).
      * rewrite <- drop_drop, Hp, <- fmap_drop.
        now rewrite offsets_drop by lia.
      * rewrite length_drop. lia.
      * rewrite <- (take_drop m lens) in Hi at 1.
        rewrite sum_list_app in Hi. lia.
      * exists (chunk_at hv c m :: cs), f',
          (concat_strings (columns_lines hv c p (take m lens)) :: strs).
        split; [| split; [exact Hh | split]].
        -- cbn [drain]. rewrite Hn, Hnext. cbn [mbind option_bind fst snd].
           rewrite Hd. reflexivity.
        -- unfold run_chunks. cbn [mapM].
           assert (chunk_call int_to_string value_to_string ptrs inds vals
                              (chunk_at hv c m)
                   = Some (concat_strings (columns_lines hv c p (take m lens))))
             as ->.
           { unfold chunk_call. cbn [chunk_at chunk_ptr_iter chunk_ptr_end].
             assert (Z.to_nat (Z.of_nat (c + m) - Z.of_nat c) = m) as -> by lia.
             rewrite (csc_columns_loop_lines hv m c p lens); auto.
             rewrite <- (take_drop m lens) in Hi at 1.
               rewrite sum_list_app in Hi. lia. }
           cbn [mbind option_bind]. unfold run_chunks in Hr. rewrite Hr.
           reflexivity.
        -- cbn [concat_strings fold_right]. fold (concat_strings strs).
           rewrite Hcat, <- concat_strings_app.
           transitivity
             (concat_strings (columns_lines hv c p (take m lens ++ drop m lens)));
             [| now rewrite take_drop].
           rewrite columns_lines_app, length_take. do 3 f_equal. lia.
Qed.

(** The lines of consecutive columns are the lines of their entries in
    storage order, each with its column. *)
Lemma columns_lines_flat (hv : bool) (lens : list nat) :
  forall (c p : nat),
    (p + sum_list lens <= length inds)%nat ->
    (hv = true -> (p + sum_list lens <= length vals)%nat) ->
    columns_lines hv c p lens
    = if tr
      then lines hv (entry_columns c lens)
                 (take (sum_list lens) (drop p inds))
                 (take (sum_list lens) (drop p vals))
      else lines hv (take (sum_list lens) (drop p inds))
                 (entry_columns c lens)
                 (take (sum_list lens) (drop p vals)).
Proof.
  induction lens as [|l lens IH]; intros c p Hi Hv.
  - cbn. destruct tr; [reflexivity |]. now destruct hv.
  - rewrite sum_list_cons in *.
    cbn [columns_lines entry_columns].
    rewrite IH by (try intros H; try specialize (Hv H); lia).
    rewrite <- !(take_take_drop _ l (sum_list lens)), !drop_drop.
    unfold col_lines.
    destruct tr; rewrite record_lines_app; try reflexivity.
    all: rewrite ?length_replicate, ?length_take, ?length_drop; try lia.
    all: intros H; specialize (Hv H); lia.
Qed.

End Text.

(** The formatter over the arrays of a compressed-column matrix, drained
    and run: the lines of the entries in storage order. *)
Lemma csc_formatter_text {VT : Type}
    (int_to_string : Z -> string) (value_to_string : VT -> string)
    (lens : list nat) (inds : list Z) (vals : list VT) (tr : bool)
    (o : write_options) (fuel : nat) :
  let ptrs := Z.of_nat <$> offsets 0 lens in
  length inds = sum_list lens ->
  vals = [] \/ length vals = length inds ->
  (lens <> [] ->
   exists k,
     columns_per_chunk
       (PrimFloat.div (double_of_int64 (Z.of_nat (length inds)))
                      (double_of_int64 (Z.of_nat (length lens)))) o = Some k
     /\ 1 <= k) ->
  (length lens <= fuel)%nat ->
  exists f cs f' strs,
    formatter_of_arrays ptrs inds vals tr = inr f
    /\ drain fuel o f = Some (cs, f')
    /\ has_next f' = false
    /\ run_chunks int_to_string value_to_string ptrs inds vals cs = Some strs
    /\ concat_strings strs
       = concat_strings
           (if tr
            then Triplet.record_lines int_to_string value_to_string
                   (Triplet.has_values vals) (entry_columns 0 lens) inds vals
            else Triplet.record_lines int_to_string value_to_string
                   (Triplet.has_values vals) inds (entry_columns 0 lens)
                   vals).
Proof.
  intros ptrs Hi Hv Hk Hfuel.
  set (hv := Triplet.has_values vals).
  set (npc := PrimFloat.div (double_of_int64 (Z.of_nat (length inds)))
                            (double_of_int64 (Z.of_nat (length lens)))) in *.
  assert (length ptrs = S (length lens)) as Hlp
    by (subst ptrs; now rewrite length_fmap, offsets_length).
  assert (hv = true -> vals <> [] /\ length vals = length inds) as Hhv.
  { intros H. destruct Hv as [-> | Hv]; [discriminate |].
    split; [| exact Hv]. intros ->. discriminate. }
  assert (formatter_of_arrays ptrs inds vals tr
          = inr (formatter_at ptrs vals tr hv npc 0)) as Hmk.
  { unfold formatter_of_arrays, make_csc_formatter, formatter_at.
    rewrite !Z.sub_0_r.
    assert (negb (Z.of_nat (length inds) =? Z.of_nat (length vals))
            && negb (Z.of_nat (length vals) =? 0) = false) as ->.
    { destruct Hv as [-> | Hv]; [now rewrite andb_false_r |].
      now rewrite Hv, Z.eqb_refl. }
    assert ((if hv then Z.of_nat (length vals) else 0)
            = Z.of_nat (length vals)) as ->
      by (subst hv; now destruct vals).
    rewrite Hlp. subst npc.
    replace (Z.of_nat (S (length lens)) - 1) with (Z.of_nat (length lens))
      by lia.
    reflexivity. }
  exists (formatter_at ptrs vals tr hv npc 0).
  destruct lens as [|l lens].
  - exists [], (formatter_at ptrs vals tr hv npc 0), [].
    split; [exact Hmk |].
    assert (has_next (formatter_at ptrs vals tr hv npc 0) = false) as Hn
      by reflexivity.
    split; [destruct fuel; cbn [drain]; now rewrite Hn |].
    split; [exact Hn |]. split; [reflexivity |].
    destruct inds; [| discriminate].
    cbn [entry_columns].
    destruct tr; [reflexivity |].
    now rewrite Triplet.record_lines_no_cols.
  - destruct Hk as (k & Hk & Hk1); [discriminate |].
    destruct (csc_drain_text int_to_string value_to_string ptrs inds vals tr
                hv npc o k Hk Hk1 Hhv fuel 0%nat 0%nat (l :: lens))
      as (cs & f' & strs & Hd & Hh & Hr & Hcat);
      [reflexivity | exact Hfuel | lia |].
    exists cs, f', strs.
    split; [exact Hmk |]. split; [exact Hd |]. split; [exact Hh |].
    split; [exact Hr |].
    rewrite Hcat, columns_lines_flat.
    + rewrite !drop_0, <- Hi, firstn_all.
      assert (take (length inds) vals = vals) as ->.
      { destruct Hv as [-> | <-]; [now rewrite take_nil | apply firstn_all]. }
      fold hv. reflexivity.
    + lia.
    + intros H. destruct (Hhv H). lia.
Qed.


(** X1. A compressed-column matrix whose columns hold [lens] entries (so
    that the pointer array is the running sums of [lens], from 0), with one
    row index per entry and a value array that is empty or as long as the
    index array: the formatter is built, the drain loop ends within one
    iteration per column, every chunk returns a string, and the strings
    concatenated in emission order are exactly what the triplet formatter's
    body is for the expanded coordinates: rows [inds], columns each entry's
    column number, the same values.  With [transpose] the two coordinates
    swap places.  The array sizes and [chunk_size_values] are 64-bit
    values.  The result does not depend on the number of columns
    [next_chunk] takes per chunk, provided the conversion of its floating
    point estimate to [int64_t] is defined and at least 1. *)
Theorem csc_chunks_concat {VT : Type}
    (int_to_string : Z -> string) (value_to_string : VT -> string)
    (lens : list nat) (inds : list Z) (vals : list VT) (tr : bool)
    (o : write_options) (fuel : nat) :
  let ptrs := Z.of_nat <$> offsets 0 lens in
  length inds = sum_list lens ->
  vals = [] \/ length vals = length inds ->
  Z.of_nat (length inds) < 2 ^ 63 ->
  Z.of_nat (length lens) < 2 ^ 63 ->
  - 2 ^ 63 <= chunk_size_values o < 2 ^ 63 ->
  (lens <> [] ->
   exists k,
     columns_per_chunk
       (PrimFloat.div (double_of_int64 (Z.of_nat (length inds)))
                      (double_of_int64 (Z.of_nat (length lens)))) o = Some k
     /\ 1 <= k) ->
  (length lens <= fuel)%nat ->
  exists f cs f' strs,
    formatter_of_arrays ptrs inds vals tr = inr f
    /\ drain fuel o f = Some (cs, f')
    /\ has_next f' = false
    /\ run_chunks int_to_string value_to_string ptrs inds vals cs = Some strs
    /\ concat_strings strs
       = if tr
         then Triplet.spec_body int_to_string value_to_string
                (entry_columns 0 lens) inds vals
         else Triplet.spec_body int_to_string value_to_string
                inds (entry_columns 0 lens) vals.
Proof.
  intros ptrs Hi Hv _ _ _ Hk Hfuel.
  destruct (csc_formatter_text int_to_string value_to_string lens inds vals tr
              o fuel Hi Hv Hk Hfuel)
    as (f & cs & f' & strs & Hmk & Hd & Hh & Hr & Hcat).
  exists f, cs, f', strs. repeat (split; [assumption |]).
  rewrite Hcat. unfold Triplet.spec_body. now destruct tr.
Qed.

(** Four columns holding 2, 0, 1 and 1 entries, written two columns per
    chunk ([chunk_size_values = 1], estimate [4 / 4 = 1]). *)
Lemma csc_chunks_concat_witness :
  exists f cs f' strs,
    formatter_of_arrays (Z.of_nat <$> offsets 0 [2; 0; 1; 1]%nat)
                        [0; 2; 1; 3] [5; 6; 7; 8] false = inr f
    /\ drain 4 {| chunk_size_values := 1 |} f = Some (cs, f')
    /\ has_next f' = false
    /\ run_chunks Triplet.decimal Triplet.decimal
                  (Z.of_nat <$> offsets 0 [2; 0; 1; 1]%nat)
                  [0; 2; 1; 3] [5; 6; 7; 8] cs = Some strs
    /\ concat_strings strs
       = Triplet.spec_body Triplet.decimal Triplet.decimal
           [0; 2; 1; 3] (entry_columns 0 [2; 0; 1; 1]%nat) [5; 6; 7; 8].
Proof.
  apply (csc_chunks_concat Triplet.decimal Triplet.decimal
           [2; 0; 1; 1]%nat [0; 2; 1; 3] [5; 6; 7; 8] false
           {| chunk_size_values := 1 |} 4).
  - reflexivity.
  - right. reflexivity.
  - simpl. lia.
  - simpl. lia.
  - simpl. lia.
  - intros _. exists 2. split; [vm_compute; reflexivity | lia].
  - simpl. lia.
Defined.

(** The same matrix as text, transposed and not, for chunk sizes 0, 1
    and 50. *)
Example csc_text_4_columns :
  forall c, In c [0; 1; 50] ->
    let ptrs := Z.of_nat <$> offsets 0 [2; 0; 1; 1]%nat in
    let text (tr : bool) :=
      match formatter_of_arrays ptrs [0; 2; 1; 3] [5; 6; 7; 8] tr with
      | inr f =>
          r ← drain 4 {| chunk_size_values := c |} f;
          strs ← run_chunks Triplet.decimal Triplet.decimal
                   ptrs [0; 2; 1; 3] [5; 6; 7; 8] (fst r);
          Some (concat_strings strs)
      | inl _ => None
      end in
    text false
    = Some ("1 1 5" +:+ kNewline +:+ "3 1 6" +:+ kNewline
              +:+ "2 3 7" +:+ kNewline +:+ "4 4 8" +:+ kNewline)
    /\ text true
       = Some ("1 1 5" +:+ kNewline +:+ "1 3 6" +:+ kNewline
                 +:+ "3 2 7" +:+ kNewline +:+ "4 4 8" +:+ kNewline).
Proof.
  intros c [<- | [<- | [<- | []]]]; vm_compute; split; reflexivity.
Qed.

End CscBody.

(** ** Formatter of dense structures with a call operator *)

Module Dense2D.

(** State of [dense_2d_call_formatter], the matrix reference apart. *)
Record dense_2d_call_formatter : Type := {
  nrows : Z; ncols : Z;
  col_iter : Z
}.

(** State of [dense_2d_call_formatter::chunk]: the columns
    [chunk_col_iter, chunk_col_end). *)
Record chunk : Type := {
  chunk_nrows : Z;
  chunk_col_iter : Z; chunk_col_end : Z
}.

(** The constructor; [col_iter] starts at its default member initialiser. *)
Definition make_dense_2d_call_formatter (nrows0 ncols0 : Z)
  : dense_2d_call_formatter :=
  {| nrows := nrows0; ncols := ncols0; col_iter := 0 |}.

Definition has_next (f : dense_2d_call_formatter) : bool :=
  col_iter f <? ncols f.

(** [next_chunk]:
    [num_columns = (DIM)(nrows * (double)chunk_size_values + 1)], capped by
    the columns that remain.  [DIM] is [int64_t], as the binding
    instantiates it. *)
Definition next_chunk (options : write_options) (f : dense_2d_call_formatter)
  : option (chunk * dense_2d_call_formatter) :=
  num_columns ←
    Csc.int64_of_double
      (PrimFloat.add
         (PrimFloat.mul (Csc.double_of_int64 (nrows f))
                        (Csc.double_of_int64 (chunk_size_values options)))
         (Csc.double_of_int64 1));
  let num_columns := Z.min num_columns (ncols f - col_iter f) in
  let col_end := col_iter f + num_columns in
  Some ({| chunk_nrows := nrows f;
           chunk_col_iter := col_iter f; chunk_col_end := col_end |},
        {| nrows := nrows f; ncols := ncols f; col_iter := col_end |}).

(** The drain loop [while (f.has_next()) cs.push(f.next_chunk(o))]. *)
Fixpoint drain (fuel : nat) (options : write_options)
    (f : dense_2d_call_formatter)
  : option (list chunk * dense_2d_call_formatter) :=
  if has_next f then
    match fuel with
    | O => None
    | S fuel' =>
        cf ← next_chunk options f;
        r ← drain fuel' options (snd cf);
        Some (fst cf :: fst r, snd r)
    end
  else Some ([], f).

Section Chunk.
Context {VT : Type}.
Variable value_to_string : VT -> string.

(** [mat(row, col)]; [None] where the structure has no such element (the
    binding's unchecked array access outside the array). *)
Variable mat : Z -> Z -> option VT.

(** [for (DIM row = 0; row < nrows; ++row)] of one column. *)
Fixpoint rows_loop (fuel : nat) (row nrows0 col : Z) (out : string)
  : option string :=
  if row <? nrows0 then
    match fuel with
    | O => None
    | S fuel' =>
        v ← mat row col;
        rows_loop fuel' (row + 1) nrows0 col
                  ((out +:+ value_to_string v) +:+ kNewline)
    end
  else Some out.

(** [for (; col_iter != col_end; ++col_iter)]. *)
Fixpoint columns_loop (fuel : nat) (c : chunk) (out : string)
  : option string :=
  if negb (chunk_col_iter c =? chunk_col_end c) then
    match fuel with
    | O => None
    | S fuel' =>
        out' ← rows_loop (Z.to_nat (chunk_nrows c)) 0 (chunk_nrows c)
                 (chunk_col_iter c) out;
        columns_loop fuel'
          {| chunk_nrows := chunk_nrows c;
             chunk_col_iter := chunk_col_iter c + 1;
             chunk_col_end := chunk_col_end c |}
          out'
    end
  else Some out.

Definition chunk_call (c : chunk) : option string :=
  columns_loop (Z.to_nat (chunk_col_end c - chunk_col_iter c)) c EmptyString.

Definition run_chunks (cs : list chunk) : option (list string) :=
  mapM chunk_call cs.

End Chunk.

(** The column count [next_chunk] computes before the cap. *)
Definition columns_per_chunk (nrows0 : Z) (options : write_options)
  : option Z :=
  Csc.int64_of_double
    (PrimFloat.add
       (PrimFloat.mul (Csc.double_of_int64 nrows0)
                      (Csc.double_of_int64 (chunk_size_values options)))
       (Csc.double_of_int64 1)).

(** At [chunk_size_values = INT64_MIN] the column count is [INT64_MIN] for
    one row, outside [int64_t] (undefined) for two rows, and 1 for no
    rows. *)
Example dense_2d_columns_at_int64_min :
  columns_per_chunk 1 {| chunk_size_values := - 2 ^ 63 |} = Some (- 2 ^ 63)
  /\ columns_per_chunk 2 {| chunk_size_values := - 2 ^ 63 |} = None
  /\ columns_per_chunk 0 {| chunk_size_values := - 2 ^ 63 |} = Some 1.
Proof. repeat split; vm_compute; reflexivity. Qed.

(** The column-major text of an [R] by [C] matrix with elements [get]: one
    value per line, column after column. *)
Definition column_lines {VT : Type} (value_to_string : VT -> string)
    (get : nat -> nat -> VT) (R c : nat) : list string :=
  (fun r => value_to_string (get r c) +:+ kNewline) <$> seq 0 R.

Definition columns_lines {VT : Type} (value_to_string : VT -> string)
    (get : nat -> nat -> VT) (R c0 m : nat) : list string :=
  c ← seq c0 m; column_lines value_to_string get R c.

Definition column_major_text {VT : Type} (value_to_string : VT -> string)
    (get : nat -> nat -> VT) (R C : nat) : string :=
  concat_strings (columns_lines value_to_string get R 0 C).

Section Text.
Context {VT : Type}.
Variable value_to_string : VT -> string.
Variable mat : Z -> Z -> option VT.
Variable get : nat -> nat -> VT.
Variables (R C : nat).
Hypothesis mat_get :
  forall r c, (r < R)%nat -> (c < C)%nat ->
    mat (Z.of_nat r) (Z.of_nat c) = Some (get r c).

Lemma dense_2d_rows_loop_lines (c : nat) (m : nat) :
  forall (r : nat) (out : string),
    (c < C)%nat ->
    (r + m = R)%nat ->
    rows_loop value_to_string mat m (Z.of_nat r) (Z.of_nat R) (Z.of_nat c) out
    = Some (out +:+ concat_strings
                      ((fun r => value_to_string (get r c) +:+ kNewline)
                         <$> seq r m)).
Proof.
  induction m as [|m IH]; intros r out Hc Hr; cbn [rows_loop].
  - destruct (Z.ltb_spec (Z.of_nat r) (Z.of_nat R)) as [E|_]; [lia |].
    cbn. now rewrite append_nil_r.
  - destruct (Z.ltb_spec (Z.of_nat r) (Z.of_nat R)) as [_|E]; [| lia].
    rewrite mat_get by lia. cbn [mbind option_bind].
    assert (Z.of_nat r + 1 = Z.of_nat (S r)) as -> by lia.
    rewrite IH by lia. cbn [seq fmap list_fmap concat_strings fold_right].
    now rewrite !append_assoc.
Qed.

Lemma columns_lines_add (c0 m1 m2 : nat) :
  columns_lines value_to_string get R c0 (m1 + m2)
  = columns_lines value_to_string get R c0 m1
      ++ columns_lines value_to_string get R (c0 + m1) m2.
Proof.
  unfold columns_lines. now rewrite seq_app, bind_app.
Qed.

Lemma dense_2d_columns_loop_lines (m : nat) :
  forall (c : nat) (out : string),
    (c + m <= C)%nat ->
    columns_loop value_to_string mat m
      {| chunk_nrows := Z.of_nat R; chunk_col_iter := Z.of_nat c;
         chunk_col_end := Z.of_nat (c + m) |} out
    = Some (out +:+ concat_strings (columns_lines value_to_string get R c m)).
Proof.
  induction m as [|m IH]; intros c out Hc;
    cbn [columns_loop chunk_nrows chunk_col_iter chunk_col_end].
  - rewrite Nat.add_0_r, Z.eqb_refl. cbn. now rewrite append_nil_r.
  - destruct (Z.eqb_spec (Z.of_nat c) (Z.of_nat (c + S m))) as [E|_]; [lia |].
    cbn [negb]. rewrite Nat2Z.id.
    pose proof (dense_2d_rows_loop_lines c R 0%nat out ltac:(lia) ltac:(lia)) as Hrows.
    change (Z.of_nat 0) with 0 in Hrows. rewrite Hrows.
    cbn [mbind option_bind].
    assert (Z.of_nat c + 1 = Z.of_nat (S c)) as -> by lia.
    assert (Z.of_nat (c + S m) = Z.of_nat (S c + m)) as -> by lia.
    rewrite IH by lia.
    unfold columns_lines at 2. cbn [seq mbind list_bind].
    fold (columns_lines value_to_string get R (S c) m).
    unfold column_lines at 1.
    now rewrite concat_strings_app, append_assoc.
Qed.

Lemma dense_2d_drain_text (o : write_options) (k : Z) :
  columns_per_chunk (Z.of_nat R) o = Some k ->
  1 <= k ->
  forall (fuel c : nat),
    (c <= C)%nat ->
    (C - c <= fuel)%nat ->
    exists cs f' strs,
      drain fuel o {| nrows := Z.of_nat R; ncols := Z.of_nat C;
                      col_iter := Z.of_nat c |} = Some (cs, f')
      /\ has_next f' = false
      /\ run_chunks value_to_string mat cs = Some strs
      /\ concat_strings strs
         = concat_strings (columns_lines value_to_string get R c (C - c)).
Proof.
  intros Hk Hk1. induction fuel as [|fuel IH]; intros c Hc Hfuel.
  - assert (c = C) as -> by lia.
    eexists [], _, []. cbn [drain]. unfold has_next. cbn [col_iter ncols].
    rewrite Z.ltb_irrefl. rewrite Nat.sub_diag.
    repeat split; try reflexivity.
    unfold has_next. cbn [col_iter ncols]. apply Z.ltb_irrefl.
  - destruct (Nat.eq_dec c C) as [-> | Hne].
    + eexists [], _, []. cbn [drain]. unfold has_next. cbn [col_iter ncols].
      rewrite Z.ltb_irrefl. rewrite Nat.sub_diag.
      repeat split; try reflexivity.
      unfold has_next. cbn [col_iter ncols]. apply Z.ltb_irrefl.
    + set (m := Z.to_nat (Z.min k (Z.of_nat C - Z.of_nat c))).
      assert (0 < m /\ c + m <= C)%nat as [Hm0 Hm] by lia.
      destruct (IH (c + m)%nat) as (cs & f' & strs & Hd & Hh & Hr & Hcat);
        [lia | lia |].
      assert (next_chunk o {| nrows := Z.of_nat R; ncols := Z.of_nat C;
                              col_iter := Z.of_nat c |}
              = Some ({| chunk_nrows := Z.of_nat R;
                         chunk_col_iter := Z.of_nat c;
                         chunk_col_end := Z.of_nat (c + m) |},
                      {| nrows := Z.of_nat R; ncols := Z.of_nat C;
                         col_iter := Z.of_nat (c + m) |})) as Hnext.
      { unfold next_chunk. cbn [nrows ncols col_iter].
        fold (columns_per_chunk (Z.of_nat R) o). rewrite Hk.
        cbn [mbind option_bind].
        assert (Z.of_nat c + Z.min k (Z.of_nat C - Z.of_nat c)
                = Z.of_nat (c + m)) as -> by lia.
        reflexivity. }
      exists ({| chunk_nrows := Z.of_nat R; chunk_col_iter := Z.of_nat c;
                 chunk_col_end := Z.of_nat (c + m) |} :: cs), f',
        (concat_strings (columns_lines value_to_string get R c m) :: strs).
      split; [| split; [exact Hh | split]].
      * cbn [drain]. unfold has_next at 1. cbn [col_iter ncols].
        destruct (Z.ltb_spec (Z.of_nat c) (Z.of_nat C)) as [_|E]; [| lia].
        rewrite Hnext. cbn [mbind option_bind fst snd]. rewrite Hd.
        reflexivity.
      * unfold run_chunks. cbn [mapM].
        assert (chunk_call value_to_string mat
                  {| chunk_nrows := Z.of_nat R; chunk_col_iter := Z.of_nat c;
                     chunk_col_end := Z.of_nat (c + m) |}
                = Some (concat_strings
                          (columns_lines value_to_string get R c m))) as ->.
        { unfold chunk_call. cbn [chunk_col_iter chunk_col_end].
          assert (Z.to_nat (Z.of_nat (c + m) - Z.of_nat c) = m) as -> by lia.
          now rewrite dense_2d_columns_loop_lines by lia. }
        cbn [mbind option_bind].
        unfold run_chunks in Hr. rewrite Hr. reflexivity.
      * cbn [concat_strings fold_right]. fold (concat_strings strs).
        rewrite Hcat, <- concat_strings_app, <- columns_lines_add.
        do 2 f_equal. lia.
Qed.

End Text.

(** The formatter drained and run: the lines of the columns in order. *)
Lemma dense_2d_formatter_text {VT : Type} (value_to_string : VT -> string)
    (mat : Z -> Z -> option VT) (get : nat -> nat -> VT) (R C : nat)
    (o : write_options) (fuel : nat) :
  (forall r c, (r < R)%nat -> (c < C)%nat ->
     mat (Z.of_nat r) (Z.of_nat c) = Some (get r c)) ->
  (C <> 0%nat ->
   exists k, columns_per_chunk (Z.of_nat R) o = Some k /\ 1 <= k) ->
  (C <= fuel)%nat ->
  exists cs f' strs,
    drain fuel o (make_dense_2d_call_formatter (Z.of_nat R) (Z.of_nat C))
    = Some (cs, f')
    /\ has_next f' = false
    /\ run_chunks value_to_string mat cs = Some strs
    /\ concat_strings strs
       = concat_strings (columns_lines value_to_string get R 0 C).
Proof.
  intros Hmat Hk Hfuel. unfold make_dense_2d_call_formatter.
  destruct (Nat.eq_dec C 0%nat) as [-> | HC].
  - eexists [], _, []. destruct fuel; cbn; repeat split; reflexivity.
  - destruct (Hk HC) as (k & Hk' & Hk1).
    destruct (dense_2d_drain_text value_to_string mat get R C Hmat o k Hk' Hk1
                fuel 0%nat) as (cs & f' & strs & Hd & Hh & Hr & Hcat);
      [lia | lia |].
    exists cs, f', strs. rewrite Nat.sub_0_r in Hcat.
    repeat split; assumption.
Qed.


(** X2. For a structure that answers [mat(row, col)] on the rectangle of
    [R] rows and [C] columns, [dense_2d_call_formatter] calls it only inside
    that rectangle; the drain loop ends within one iteration per column and
    the chunks' strings, concatenated in emission order, are the elements in
    column-major order, one per line, whatever number of columns
    [next_chunk] takes per chunk (its conversion to the dimension type has
    to be defined and at least 1 when there is a column to write).  The
    dimensions and [chunk_size_values] are 64-bit values. *)
Theorem dense_2d_chunks_concat {VT : Type} (value_to_string : VT -> string)
    (mat : Z -> Z -> option VT) (get : nat -> nat -> VT) (R C : nat)
    (o : write_options) (fuel : nat) :
  (forall r c, (r < R)%nat -> (c < C)%nat ->
     mat (Z.of_nat r) (Z.of_nat c) = Some (get r c)) ->
  Z.of_nat R < 2 ^ 63 ->
  Z.of_nat C < 2 ^ 63 ->
  - 2 ^ 63 <= chunk_size_values o < 2 ^ 63 ->
  (C <> 0%nat ->
   exists k, columns_per_chunk (Z.of_nat R) o = Some k /\ 1 <= k) ->
  (C <= fuel)%nat ->
  exists cs f' strs,
    drain fuel o (make_dense_2d_call_formatter (Z.of_nat R) (Z.of_nat C))
    = Some (cs, f')
    /\ has_next f' = false
    /\ run_chunks value_to_string mat cs = Some strs
    /\ concat_strings strs = column_major_text value_to_string get R C.
Proof.
  intros Hmat _ _ _ Hk Hfuel.
  destruct (dense_2d_formatter_text value_to_string mat get R C o fuel
              Hmat Hk Hfuel)
    as (cs & f' & strs & Hd & Hh & Hr & Hcat).
  exists cs, f', strs. repeat (split; [assumption |]). exact Hcat.
Qed.

(** A 2 by 3 matrix given by its rows. *)
Definition mat_of_rows {VT : Type} (rows : list (list VT)) (r c : Z)
  : option VT :=
  row ← deref rows r; deref row c.

Definition m23 : list (list Z) := [[1; 2; 3]; [4; 5; 6]].

Lemma dense_2d_chunks_concat_witness :
  exists cs f' strs,
    drain 3 {| chunk_size_values := 0 |} (make_dense_2d_call_formatter 2 3)
    = Some (cs, f')
    /\ has_next f' = false
    /\ run_chunks Triplet.decimal (mat_of_rows m23) cs = Some strs
    /\ concat_strings strs
       = column_major_text Triplet.decimal
           (fun r c => Z.of_nat (3 * r + c + 1)) 2 3.
Proof.
  apply (dense_2d_chunks_concat Triplet.decimal (mat_of_rows m23)
           (fun r c => Z.of_nat (3 * r + c + 1)) 2 3
           {| chunk_size_values := 0 |} 3).
  - intros [|[|r]] [|[|[|c]]] Hr Hc; try lia; reflexivity.
  - simpl. lia.
  - simpl. lia.
  - simpl. lia.
  - intros _. exists 1. split; [vm_compute; reflexivity | lia].
  - lia.
Defined.

(** The 2 by 3 matrix as text, for chunk sizes 0, 1 and 7. *)
Example dense_2d_text_2x3 :
  forall c, In c [0; 1; 7] ->
    (r ← drain 3 {| chunk_size_values := c |}
           (make_dense_2d_call_formatter 2 3);
     strs ← run_chunks Triplet.decimal (mat_of_rows m23) (fst r);
     Some (concat_strings strs))
    = Some ("1" +:+ kNewline +:+ "4" +:+ kNewline +:+ "2" +:+ kNewline
              +:+ "5" +:+ kNewline +:+ "3" +:+ kNewline +:+ "6" +:+ kNewline).
Proof.
  intros c [<- | [<- | [<- | []]]]; vm_compute; reflexivity.
Qed.

End Dense2D.

(** ** Dense formatters: the text in general *)

Module DenseText.
Import Dense.

Section Text.
Context {VT : Type}.
Variable value_to_string : VT -> string.
Variable data : list VT.

Local Abbreviation line := (fun v => value_to_string v +:+ kNewline).

(** [mapM] of a function that succeeds on every element. *)
Lemma mapM_total {A B : Type} (f : A -> option B) (g : A -> B) (l : list A) :
  (forall x, In x l -> f x = Some (g x)) ->
  mapM f l = Some (map g l).
Proof.
  induction l as [|x l IH]; intros H; [reflexivity |].
  cbn [mapM map]. rewrite (H x) by now left. cbn [mbind option_bind].
  rewrite IH by (intros y Hy; apply H; now right). reflexivity.
Qed.

Lemma concat_strings_bind {A : Type} (f : A -> list string) (l : list A) :
  concat_strings (l ≫= f)
  = concat_strings (map (fun x => concat_strings (f x)) l).
Proof.
  induction l as [|x l IH]; [reflexivity |].
  cbn [mbind list_bind map concat_strings fold_right].
  fold (concat_strings (map (fun x => concat_strings (f x)) l)).
  rewrite <- IH. apply concat_strings_app.
Qed.

Lemma map_fmap {A B : Type} (f : A -> B) (l : list A) : map f l = f <$> l.
Proof. induction l as [|x l IH]; [reflexivity |]. cbn. now rewrite IH. Qed.

(** Reading [n] consecutive elements from position [a]. *)
Lemma mapM_lookup_slice (n : nat) :
  forall (a s : nat),
    (a + s + n <= length data)%nat ->
    mapM (fun j => data !! (a + j)%nat) (seq s n)
    = Some (take n (drop (a + s) data)).
Proof.
  induction n as [|n IH]; intros a s Hlen; [reflexivity |].
  cbn [seq mapM].
  destruct (lookup_lt_is_Some_2 data (a + s) ltac:(lia)) as [x Hx].
  rewrite Hx. cbn [mbind option_bind].
  rewrite IH by lia. cbn [mbind option_bind].
  rewrite (drop_S _ _ _ Hx). cbn [take].
  now replace (a + S s)%nat with (S (a + s)) by lia.
Qed.

Lemma row_text_slice (C i : nat) :
  (i * C + C <= length data)%nat ->
  row_text value_to_string data C i
  = Some (concat_strings (map line (take C (drop (i * C) data)))).
Proof.
  intros Hlen. unfold row_text.
  rewrite (mapM_lookup_slice C (i * C) 0) by lia.
  cbn [mbind option_bind]. now rewrite Nat.add_0_r.
Qed.

Lemma rows_text_slices (C k : nat) :
  forall i : nat,
    ((i + k) * C <= length data)%nat ->
    exists ls,
      mapM (row_text value_to_string data C) (seq i k) = Some ls
      /\ concat_strings ls
         = concat_strings (map line (take (k * C) (drop (i * C) data))).
Proof.
  induction k as [|k IH]; intros i Hlen.
  - exists []. split; reflexivity.
  - destruct (IH (S i)) as (ls & Hls & Hcat); [lia |].
    exists (concat_strings (map line (take C (drop (i * C) data))) :: ls).
    split.
    + cbn [seq mapM]. rewrite row_text_slice by lia.
      cbn [mbind option_bind]. rewrite Hls. reflexivity.
    + cbn [concat_strings fold_right]. fold (concat_strings ls).
      rewrite Hcat, <- concat_strings_app, <- map_app.
      do 2 f_equal.
      replace (S k * C)%nat with (C + k * C)%nat by lia.
      rewrite <- take_take_drop, drop_drop. do 3 f_equal. lia.
Qed.

End Text.

(** X3. [array_formatter] over an [R] by [C] matrix whose element
    [(row, col)] is [get row col] (read from [data] at [row * C + col] for
    [row_major], at [col * R + row] for [col_major]): the drain loop makes
    one chunk per column, and running the chunks gives the column-major
    text ([Dense2D.column_major_text]: the elements column after column,
    one value per line), for both storage orders. *)
Theorem array_formatter_writes_column_major {VT : Type}
    (value_to_string : VT -> string) (data : list VT)
    (o : storage_order) (R C : nat) (get : nat -> nat -> VT) :
  (forall r c, (r < R)%nat -> (c < C)%nat ->
     element data o R C r c = Some (get r c)) ->
  (exists cs,
      drain C (make_array_formatter 0 o (Z.of_nat R) (Z.of_nat C)) = Some cs
      /\ length cs = C)
  /\ array_formatter_text value_to_string data C
       (make_array_formatter 0 o (Z.of_nat R) (Z.of_nat C))
     = Some (Dense2D.column_major_text value_to_string get R C).
Proof.
  intros Hget. split.
  { exists (map (array_formatter_at o R C) (seq 0 C)).
    split; [apply (array_drain_columns o R C C 0); lia |].
    now rewrite length_map, length_seq. }
  rewrite array_formatter_column_major.
  unfold column_major_text, Dense2D.column_major_text, Dense2D.columns_lines.
  rewrite (mapM_total _
             (fun col => concat_strings
                           (Dense2D.column_lines value_to_string get R col))).
  - cbn [mbind option_bind]. now rewrite concat_strings_bind.
  - intros col Hcol. apply in_seq in Hcol.
    rewrite (mapM_total _ (fun row => get row col)).
    + cbn [mbind option_bind]. unfold Dense2D.column_lines.
      rewrite map_map, map_fmap. reflexivity.
    + intros row Hrow. apply in_seq in Hrow. apply Hget; lia.
Qed.

Lemma array_formatter_writes_column_major_witness :
  (exists cs,
      drain 3 (make_array_formatter 0 row_major (Z.of_nat 2) (Z.of_nat 3))
      = Some cs
      /\ length cs = 3%nat)
  /\ array_formatter_text Triplet.decimal m23_row_major 3
       (make_array_formatter 0 row_major (Z.of_nat 2) (Z.of_nat 3))
     = Some (Dense2D.column_major_text Triplet.decimal
               (fun r c => Z.of_nat (3 * r + c + 1)) 2 3).
Proof.
  apply (array_formatter_writes_column_major Triplet.decimal m23_row_major
           row_major 2 3 (fun r c => Z.of_nat (3 * r + c + 1))).
  intros [|[|r]] [|[|[|c]]] Hr Hc; try lia; reflexivity.
Defined.

(** X4. [row_major_array_formatter] built over a vector of values with
    [R > 0] rows takes [C = size / R] columns (integer division), makes one
    chunk per row and writes the first [R * C] values of the vector in
    storage order, one per line; the [size mod R] values that remain are
    not written. *)
Theorem row_major_array_formatter_writes_storage_order {VT : Type}
    (value_to_string : VT -> string) (data : list VT) (R : nat) :
  (0 < R)%nat ->
  Z.of_nat R < 2 ^ 64 ->
  (exists f cs,
      make_row_major_array_formatter data (Z.of_nat R) = Some f
      /\ rm_ncols f = Z.of_nat (length data / R)
      /\ rm_drain R f = Some cs
      /\ length cs = R)
  /\ row_major_array_formatter_text value_to_string data R (Z.of_nat R)
     = Some (concat_strings
               (map (fun v => value_to_string v +:+ kNewline)
                    (take (R * (length data / R)) data))).
Proof.
  intros HR Hfit.
  set (C := (length data / R)%nat).
  assert (R * C <= length data)%nat as Hle
    by (subst C; apply Nat.Div0.mul_div_le).
  assert (make_row_major_array_formatter data (Z.of_nat R)
          = Some (row_major_formatter_at R C 0)) as Hmk.
  { unfold make_row_major_array_formatter.
    rewrite Z.mod_small by lia.
    destruct (Z.eqb_spec (Z.of_nat R) 0); [lia |].
    unfold row_major_formatter_at. subst C.
    now rewrite Nat2Z.inj_div. }
  split.
  { exists (row_major_formatter_at R C 0),
      (map (row_major_formatter_at R C) (seq 0 R)).
    split; [exact Hmk |]. split; [reflexivity |].
    split; [apply (rm_drain_rows R C R 0); lia |].
    now rewrite length_map, length_seq. }
  unfold row_major_array_formatter_text. rewrite Hmk.
  cbn [mbind option_bind].
  rewrite (rm_drain_rows R C R 0) by lia. cbn [mbind option_bind].
  assert (forall l,
             mapM (rm_chunk_call value_to_string data)
                  (map (row_major_formatter_at R C) l)
             = mapM (row_text value_to_string data C) l) as ->.
  { induction l as [|j l IH]; [reflexivity |].
    cbn [map mapM]. rewrite IH, rm_chunk_call_row. reflexivity. }
  destruct (rows_text_slices value_to_string data C R 0) as (ls & -> & Hcat);
    [lia |].
  cbn [mbind option_bind]. rewrite Hcat. cbn [Nat.mul drop].
  now rewrite drop_0.
Qed.

Lemma row_major_array_formatter_writes_storage_order_witness :
  (exists f cs,
      make_row_major_array_formatter [1; 2; 3; 4; 5; 6; 7] (Z.of_nat 2)
      = Some f
      /\ rm_ncols f = Z.of_nat (length [1; 2; 3; 4; 5; 6; 7] / 2)
      /\ rm_drain 2 f = Some cs
      /\ length cs = 2%nat)
  /\ row_major_array_formatter_text Triplet.decimal [1; 2; 3; 4; 5; 6; 7] 2
       (Z.of_nat 2)
     = Some (concat_strings
               (map (fun v => Triplet.decimal v +:+ kNewline)
                    (take (2 * (length [1; 2; 3; 4; 5; 6; 7] / 2))
                          [1; 2; 3; 4; 5; 6; 7]))).
Proof.
  apply (row_major_array_formatter_writes_storage_order Triplet.decimal
           [1; 2; 3; 4; 5; 6; 7] 2).
  - lia.
  - lia.
Defined.

End DenseText.

(** ** Triplet formatter: chunk sizes below one, and the value column *)

Module TripletEdge.
Import Triplet.

(** X5. With [chunk_size_values <= 0] and records left, [next_chunk] does
    not move the row iterator forward, so the loop
    [while has_next(): next_chunk] never ends: no number of iterations
    drains the formatter. *)
Theorem drain_stuck_without_chunk_size (o : write_options) (fuel : nat) :
  forall f : triplet_formatter,
    chunk_size_values o <= 0 ->
    row_iter f < row_end f ->
    drain fuel o f = None.
Proof.
  induction fuel as [|fuel IH]; intros f Hc Hlt; cbn [drain].
  - assert (has_next f = true) as -> by (apply has_next_true; lia).
    reflexivity.
  - assert (has_next f = true) as -> by (apply has_next_true; lia).
    rewrite IH; [reflexivity | exact Hc | cbn; lia].
Qed.

Lemma drain_stuck_without_chunk_size_witness :
  drain 1000 {| chunk_size_values := 0 |}
    {| row_iter := 0; row_end := 3; col_iter := 0;
       val_iter := 0; val_end := 3 |} = None.
Proof.
  apply (drain_stuck_without_chunk_size {| chunk_size_values := 0 |} 1000).
  - simpl. lia.
  - simpl. lia.
Defined.

End TripletEdge.

(** ** Parallel read engine: what the parsers get, and the state at return *)

Module EngineTasks.
Import ReadEngine.

Lemma count_if_none {A : Type} (p : A -> bool) (l : list A) :
  count_if p l = 0%nat -> Forall (fun x => p x = false) l.
Proof.
  induction l as [|x l IH]; intros H; constructor; cbn [count_if] in H.
  - destruct (p x); [discriminate | reflexivity].
  - apply IH. destruct (p x); [discriminate | exact H].
Qed.

Section Return.
Variable header : matrix_market_header.
Variable thread_count : Z.
Variable chunks : list string.

(** Once the call has returned the pool holds no task. *)
Definition idle_at_return (s : engine) : Prop :=
  forall r, pc s = Returned r -> get_tasks_total s = 0.

Lemma idle_at_return_step (s s' : engine) :
  step header thread_count s s' ->
  Inv header thread_count chunks s ->
  idle_at_return s -> idle_at_return s'.
Proof.
  intros Hstep (_ & Hc & _) Hidle r Hr.
  destruct Hstep as [s s' H | i s s' H | i s s' H | s s' H | i s s' H].
  - unfold main_step in H.
    destruct (pc s) as [j | | | | r0] eqn:Hpc.
    + destruct ((j <? inflight_count thread_count) && good s);
        injection H as <-; discriminate Hr.
    + destruct (line_count_futures s) as [|front rest] eqn:Hq.
      * injection H as <-. discriminate Hr.
      * destruct ((get_tasks_total s <? inflight_count thread_count)
                  && is_ready front).
        -- destruct (good s); [injection H as <-; discriminate Hr |].
           destruct front as [a | lcr counted].
           ++ injection H as <-. congruence.
           ++ destruct (dispatch_result header s s' lcr counted rest H)
                as (call & -> & _).
              discriminate Hr.
        -- injection H as <-. congruence.
    + destruct (line_count_futures s) as [|[a | lcr counted] rest];
        try discriminate.
      destruct (dispatch_result header s s' lcr counted rest H)
        as (call & -> & _).
      discriminate Hr.
    + destruct (Z.eqb_spec (get_tasks_total s) 0) as [E|E]; [| discriminate].
      injection H as <-. exact E.
    + discriminate.
  - unfold finish_count in H.
    destruct (line_count_futures s !! i) as [[a|l c]|] eqn:Hi;
      try discriminate.
    injection H as <-. fields.
    unfold control_inv in Hc. rewrite Hr in Hc.
    destruct Hc as (_ & Hq & _). rewrite Hq in Hi. discriminate.
  - unfold retire_count in H.
    destruct (line_count_futures s !! i) as [[a|l [|]]|] eqn:Hi;
      try discriminate.
    injection H as <-. fields.
    unfold control_inv in Hc. rewrite Hr in Hc.
    destruct Hc as (_ & Hq & _). rewrite Hq in Hi. discriminate.
  - unfold retire_popped in H.
    destruct (retiring s) as [|n] eqn:Hn; [discriminate |].
    injection H as <-. fields.
    specialize (Hidle r Hr). counters. lia.
  - unfold finish_parse in H.
    destruct (parse_tasks s !! i) as [[c [|]]|] eqn:Hi; try discriminate.
    injection H as <-. fields.
    specialize (Hidle r Hr).
    pose proof (count_if_insert (fun t => negb (snd t)) _ _ _ (c, true) Hi).
    counters. fields. cbn [snd negb bit] in *. lia.
Qed.

Lemma idle_at_return_reachable (s : engine) :
  reachable header thread_count chunks s ->
  Inv header thread_count chunks s /\ idle_at_return s.
Proof.
  revert s. apply rtc_ind_r.
  - split; [apply Inv_start |].
    intros r Hr. discriminate Hr.
  - intros y z Hy Hstep (HI & Hidle). split.
    + exact (Inv_step header thread_count chunks _ _ Hstep HI).
    + exact (idle_at_return_step _ _ Hstep HI Hidle).
Qed.

End Return.

(** X6. In every interleaving and for every pool size, the [i]-th parse
    task holds the [i]-th chunk of the stream, is given to
    [get_chunk_handler] the number of lines of the chunks before it, and
    calls the parser the header selects: [read_chunk_array] for an array
    file, started at [(offset % ncols, offset / ncols)]; otherwise
    [read_chunk_matrix_coordinate] for a matrix and
    [read_chunk_vector_coordinate] for a vector. *)
Theorem parse_task_arguments
    (header : matrix_market_header) (thread_count : Z)
    (chunks : list string) (s : engine)
    (i : nat) (p : parse_call) (d : bool) :
  reachable header thread_count chunks s ->
  parse_tasks s !! i = Some (p, d) ->
  chunks !! i = Some (call_chunk p)
  /\ call_handler_offset p = total_lines (take i chunks)
  /\ match p with
     | read_chunk_array _ _ o row col =>
         format header = array
         /\ ncols header <> 0
         /\ row = Z.rem o (ncols header)
         /\ col = Z.quot o (ncols header)
     | read_chunk_matrix_coordinate _ _ _ =>
         format header = coordinate /\ object header = matrix
     | read_chunk_vector_coordinate _ _ _ =>
         format header = coordinate /\ object header = vector
     end.
Proof.
  intros Hreach Hi.
  destruct (Inv_reachable header thread_count chunks s Hreach)
    as ([H1 H2 H3 H4 H5] & _ & _).
  assert (calls s !! i = Some p) as Hcall
    by (unfold calls; now rewrite list_lookup_fmap, Hi).
  assert (i < length (call_chunk <$> calls s))%nat as Hlt
    by (rewrite length_fmap; eapply lookup_lt_Some; eauto).
  rewrite Forall_lookup in H4. destruct (H4 _ _ Hcall) as [Ho Hkind].
  split; [| split].
  - rewrite H1, lookup_app_l by exact Hlt.
    now rewrite list_lookup_fmap, Hcall.
  - assert ((call_line_start <$> calls s) !! i = Some (call_line_start p))
      as Hs by now rewrite list_lookup_fmap, Hcall.
    rewrite H3 in Hs. apply starts_lookup in Hs. rewrite Ho, Hs, H1.
    rewrite take_app_le by lia. lia.
  - exact Hkind.
Qed.

Lemma parse_task_arguments_witness :
  two_chunks !! 1%nat
  = Some (call_chunk (read_chunk_matrix_coordinate (line "3 3 7") 4 2))
  /\ call_handler_offset (read_chunk_matrix_coordinate (line "3 3 7") 4 2)
     = total_lines (take 1 two_chunks)
  /\ format coordinate_header = coordinate
  /\ object coordinate_header = matrix.
Proof.
  apply (parse_task_arguments coordinate_header 1 two_chunks returned_state
           1 (read_chunk_matrix_coordinate (line "3 3 7") 4 2) true).
  - apply (run_schedule_steps coordinate_header 1 full_schedule).
    vm_compute. reflexivity.
  - reflexivity.
Defined.

(** X7. With at least one thread in the pool, a call that has returned has
    read the whole stream, holds no future, has submitted exactly one parse
    task per chunk, in stream order, and every one of them has finished;
    the pool holds no task, and no thread can take another step: nothing
    runs on the caller's handler after [read_body_threads] returns. *)
Theorem returned_all_parsed
    (header : matrix_market_header) (thread_count : Z)
    (chunks : list string) (s : engine) (r : Z) :
  reachable header thread_count chunks s ->
  0 < inflight_count thread_count ->
  pc s = Returned r ->
  instream s = []
  /\ line_count_futures s = []
  /\ (fun t => call_chunk (fst t)) <$> parse_tasks s = chunks
  /\ Forall (fun t => snd t = true) (parse_tasks s)
  /\ get_tasks_total s = 0
  /\ (forall s', ~ step header thread_count s s').
Proof.
  intros Hreach HN Hr.
  destruct (idle_at_return_reachable header thread_count chunks s Hreach)
    as (([H1 H2 H3 H4 H5] & Hc & _) & Hidle).
  specialize (Hidle r Hr).
  unfold control_inv in Hc. rewrite Hr in Hc.
  destruct Hc as (_ & Hq & Hin & Hun). specialize (Hin HN).
  assert (Forall (fun t => snd t = true) (parse_tasks s)) as Hdone.
  { apply count_if_none in Hun. eapply Forall_impl; [exact Hun |].
    intros [c b] Hb. cbn in *. now destruct b. }
  split; [exact Hin |]. split; [exact Hq |]. split; [| split; [exact Hdone |]].
  - rewrite H1, Hq, Hin. cbn [fmap list_fmap]. rewrite !app_nil_r.
    unfold calls. now rewrite <- list_fmap_compose.
  - split; [exact Hidle |].
    intros s' Hstep.
    inversion Hstep as [? ? H | i ? ? H | i ? ? H | ? ? H | i ? ? H]; subst.
    + unfold main_step in H. rewrite Hr in H. discriminate.
    + unfold finish_count in H. rewrite Hq in H. discriminate.
    + unfold retire_count in H. rewrite Hq in H. discriminate.
    + unfold retire_popped in H.
      destruct (retiring s) as [|n] eqn:Hn; [discriminate |].
      counters. lia.
    + unfold finish_parse in H.
      destruct (parse_tasks s !! i) as [[c [|]]|] eqn:Hi; try discriminate.
      rewrite Forall_lookup in Hdone. specialize (Hdone _ _ Hi).
      discriminate.
Qed.

Lemma returned_all_parsed_witness :
  instream returned_state = []
  /\ line_count_futures returned_state = []
  /\ (fun t => call_chunk (fst t)) <$> parse_tasks returned_state
     = two_chunks
  /\ Forall (fun t => snd t = true) (parse_tasks returned_state)
  /\ get_tasks_total returned_state = 0
  /\ (forall s', ~ step coordinate_header 1 returned_state s').
Proof.
  apply (returned_all_parsed coordinate_header 1 two_chunks returned_state 5).
  - apply (run_schedule_steps coordinate_header 1 full_schedule).
    vm_compute. reflexivity.
  - vm_compute. reflexivity.
  - reflexivity.
Defined.

(** An interleaving from [s] to [s'] that changes the state [k] times;
    yields of the main thread (steps that leave the state as it is) are not
    counted. *)
Inductive changes (header : matrix_market_header) (thread_count : Z)
  : engine -> nat -> engine -> Prop :=
| changes_none s : changes header thread_count s 0 s
| changes_yield s s' k :
    step header thread_count s s ->
    changes header thread_count s k s' ->
    changes header thread_count s k s'
| changes_step s s1 s' k :
    step header thread_count s s1 -> s1 <> s ->
    changes header thread_count s1 k s' ->
    changes header thread_count s (S k) s'.

(** A schedule run with its state changes counted. *)
Fixpoint count_changes (header : matrix_market_header) (thread_count : Z)
    (acts : list action) (s : engine) : option (nat * engine) :=
  match acts with
  | [] => Some (0%nat, s)
  | a :: acts' =>
      s1 ← act header thread_count a s;
      r ← count_changes header thread_count acts' s1;
      Some (if (measure s1 <? measure s)%nat then S (fst r) else fst r,
            snd r)
  end.

Lemma changes_measure (header : matrix_market_header) (thread_count : Z)
    (s s' : engine) (k : nat) :
  changes header thread_count s k s' ->
  (k + measure s' <= measure s)%nat.
Proof.
  induction 1 as [s | s s' k _ _ IH | s s1 s' k Hstep Hne _ IH].
  - lia.
  - exact IH.
  - destruct (step_measure header thread_count s s1 Hstep) as [-> | Hlt];
      [congruence | lia].
Qed.

Lemma count_changes_sound (header : matrix_market_header) (thread_count : Z)
    (acts : list action) :
  forall s k s',
    count_changes header thread_count acts s = Some (k, s') ->
    changes header thread_count s k s'.
Proof.
  induction acts as [|a acts IH]; intros s k s' H; cbn [count_changes] in H.
  - injection H as <- <-. constructor.
  - destruct (act header thread_count a s) as [s1|] eqn:Ea; [| discriminate].
    cbn [mbind option_bind] in H.
    destruct (count_changes header thread_count acts s1) as [[k1 s2]|] eqn:Ec;
      [| discriminate].
    cbn [mbind option_bind fst snd] in H. injection H as <- <-.
    specialize (IH _ _ _ Ec).
    assert (step header thread_count s s1) as Hstep.
    { destruct a; cbn [act] in Ea;
        [eapply step_main | eapply step_count | eapply step_retire
         | eapply step_retire_popped | eapply step_parse]; eauto. }
    destruct (Nat.ltb_spec (measure s1) (measure s)) as [Hlt|Hge].
    + eapply changes_step; eauto. intros ->. lia.
    + destruct (step_measure header thread_count s s1 Hstep) as [-> | Hlt];
        [| lia].
      now apply changes_yield.
Qed.

(** X8. Whatever the pool size and the order in which the workers finish,
    a call on a stream of [n] chunks changes the state at most [5 n + 3]
    times before it returns (per chunk: read, line count done, count task
    retired, dispatched, parse done; and three moves of the main thread
    between its loops); everything else the main thread does is yield. *)
Theorem state_changes_bounded
    (header : matrix_market_header) (thread_count : Z)
    (chunks : list string) (s : engine) (k : nat) :
  changes header thread_count (start header chunks) k s ->
  (k + measure s <= 5 * length chunks + 3)%nat.
Proof.
  intros H. apply changes_measure in H.
  assert (measure (start header chunks) = (5 * length chunks + 3)%nat) as E.
  { unfold measure, start, pending_counts, counted_futures,
      unfinished_parses.
    cbn [pc instream line_count_futures retiring parse_tasks length
         count_if pc_weight].
    lia. }
  lia.
Qed.

(** The run of two chunks to the return changes the state 13 times: the
    bound is reached. *)
Lemma state_changes_bounded_witness :
  (13 + measure returned_state <= 5 * length two_chunks + 3)%nat.
Proof.
  apply (state_changes_bounded coordinate_header 1 two_chunks
           returned_state 13).
  apply (count_changes_sound coordinate_header 1 full_schedule).
  vm_compute. reflexivity.
Defined.

(** Eleven chunks with one thread: the eleventh is read as a replacement,
    between the test of the loop and the pop of the front future.  The run
    to the return changes the state [5 * 11 + 3] times. *)
Definition eleven_schedule : list action :=
  crowded_schedule ++ [Parse 0]
    ++ concat ((fun i => [Count 0; Retire 0; Main; Parse i]) <$> seq 1 10)
    ++ [Main; Main].

Example eleven_chunks_changes :
  exists s,
    count_changes coordinate_header 1 eleven_schedule
      (start coordinate_header eleven_chunks) = Some (58%nat, s)
    /\ pc s = Returned 13
    /\ measure s = 0%nat.
Proof. eexists. split; [vm_compute; reflexivity | split; reflexivity]. Qed.

End EngineTasks.

(** ** The triplet handler under concurrent chunk tasks *)

Module HandlerOrder.
Import NumpyHandler.

Section Calls.
Context {IT VT : Type}.
Local Abbreviation mem := (arrays IT VT).
Local Abbreviation record := (IT * IT * VT)%type.

(** One [handle] call as it reaches the shared arrays: the offset its
    handler stands at, and the record. *)
Definition handle_call (w : Z * record) (m : mem) : option mem :=
  snd <$> handle {| offset := fst w |} (fst (fst (snd w))) (snd (fst (snd w)))
                 (snd (snd w)) m.

(** [handle] calls reaching the arrays one after the other. *)
Fixpoint handle_calls (ws : list (Z * record)) (m : mem) : option mem :=
  match ws with
  | [] => Some m
  | w :: ws' => m' ← handle_call w m; handle_calls ws' m'
  end.

(** The calls made through a handler that starts at [off], one per record:
    [handle] moves the handler on by one each time. *)
Fixpoint chunk_calls (off : Z) (rs : list record) : list (Z * record) :=
  match rs with
  | [] => []
  | r :: rs' => (off, r) :: chunk_calls (off + 1) rs'
  end.

(** The calls of the parse tasks of consecutive chunks, each task with a
    handler from [get_chunk_handler] at the number of records before its
    chunk. *)
Fixpoint tasks_calls (off : Z) (css : list (list record))
  : list (Z * record) :=
  match css with
  | [] => []
  | rs :: css' =>
      chunk_calls (offset (get_chunk_handler {| offset := 0 |} off)) rs
        ++ tasks_calls (off + Z.of_nat (length rs)) css'
  end.

(** The sizes of the three arrays; no call changes them. *)
Definition sizes (m : mem) : nat * nat * nat :=
  (length (rows m), length (cols m), length (values m)).

Definition fits (sz : nat * nat * nat) (o : Z) : Prop :=
  0 <= o < Z.of_nat (fst (fst sz))
  /\ o < Z.of_nat (snd (fst sz))
  /\ o < Z.of_nat (snd sz).

Lemma handle_call_fits (w : Z * record) (m : mem) :
  fits (sizes m) (fst w) ->
  handle_call w m
  = Some {| rows := <[Z.to_nat (fst w) := fst (fst (snd w))]> (rows m);
            cols := <[Z.to_nat (fst w) := snd (fst (snd w))]> (cols m);
            values := <[Z.to_nat (fst w) := snd (snd w)]> (values m) |}.
Proof.
  destruct w as [o [[r c] v]]. unfold fits, sizes. cbn [fst snd].
  intros (Hr & Hc & Hv).
  destruct (handle_one (Z.to_nat o) r c v m) as (m' & Hh & -> & _);
    [unfold in_bounds; lia |].
  unfold handle_call. cbn [fst snd].
  rewrite Z2Nat.id in Hh by lia. rewrite Hh. reflexivity.
Qed.

Lemma handle_call_sizes (w : Z * record) (m m' : mem) :
  fits (sizes m) (fst w) ->
  handle_call w m = Some m' -> sizes m' = sizes m.
Proof.
  intros Hf H. rewrite handle_call_fits in H by exact Hf.
  injection H as <-. unfold sizes. cbn [rows cols values].
  now rewrite !length_insert.
Qed.

(** Two calls at different offsets commute. *)
Lemma handle_call_commute (w1 w2 : Z * record) (m : mem) :
  fits (sizes m) (fst w1) -> fits (sizes m) (fst w2) ->
  fst w1 <> fst w2 ->
  (m1 ← handle_call w1 m; handle_call w2 m1)
  = (m2 ← handle_call w2 m; handle_call w1 m2).
Proof.
  intros H1 H2 Hne.
  rewrite (handle_call_fits w1 m H1), (handle_call_fits w2 m H2).
  cbn [mbind option_bind].
  rewrite !handle_call_fits
    by (unfold fits, sizes in *; cbn [rows cols values];
        rewrite !length_insert; assumption).
  cbn [rows cols values].
  assert (Z.to_nat (fst w1) <> Z.to_nat (fst w2)) as Hn
    by (unfold fits in *; lia).
  f_equal. f_equal; apply list_insert_insert_ne; congruence.
Qed.

(** The order in which calls at pairwise different offsets reach the arrays
    does not matter. *)
Lemma handle_calls_perm (ws ws' : list (Z * record)) :
  ws ≡ₚ ws' ->
  forall m : mem,
    NoDup (fst <$> ws) ->
    Forall (fun w => fits (sizes m) (fst w)) ws ->
    handle_calls ws m = handle_calls ws' m.
Proof.
  induction 1 as [| x l l' Hp IH | x y l | l l' l'' Hp1 IH1 Hp2 IH2];
    intros m Hnd Hfit.
  - reflexivity.
  - cbn [handle_calls]. apply Forall_cons in Hfit as [Hx Hl].
    rewrite (handle_call_fits x m Hx). cbn [mbind option_bind].
    apply IH.
    + cbn [fmap list_fmap] in Hnd. now apply NoDup_cons in Hnd as [_ ?].
    + eapply Forall_impl; [exact Hl |]. intros w Hw.
      unfold fits, sizes in *. cbn [rows cols values].
      now rewrite !length_insert.
  - cbn [handle_calls].
    apply Forall_cons in Hfit as [Hy Hfit].
    apply Forall_cons in Hfit as [Hx _].
    cbn [fmap list_fmap] in Hnd.
    apply NoDup_cons in Hnd as [Hin _].
    assert (fst y <> fst x) as Hne by (intros E; apply Hin; rewrite E; left).
    pose proof (handle_call_commute y x m Hy Hx Hne) as Hc.
    destruct (handle_call y m) as [my|] eqn:Ey;
      destruct (handle_call x m) as [mx|] eqn:Ex;
      cbn [mbind option_bind] in *;
      try (rewrite handle_call_fits in Ey by exact Hy; discriminate);
      try (rewrite handle_call_fits in Ex by exact Hx; discriminate).
    now rewrite Hc.
  - rewrite IH1 by assumption. apply IH2.
    + now rewrite <- Hp1.
    + now rewrite <- Hp1.
Qed.

Lemma chunk_calls_offsets (rs : list record) :
  forall (off : Z) (w : Z * record),
    In w (chunk_calls off rs) -> off <= fst w < off + Z.of_nat (length rs).
Proof.
  induction rs as [|r rs IH]; intros off w Hw; [destruct Hw |].
  cbn [chunk_calls length] in *. destruct Hw as [<- | Hw].
  - cbn. lia.
  - apply IH in Hw. lia.
Qed.

Lemma chunk_calls_NoDup (rs : list record) :
  forall off : Z, NoDup (fst <$> chunk_calls off rs).
Proof.
  induction rs as [|r rs IH]; intros off; cbn [chunk_calls fmap list_fmap].
  - constructor.
  - constructor; [| apply IH].
    intros Hin. apply list_elem_of_fmap in Hin as (w & Hw & Hin).
    apply list_elem_of_In, chunk_calls_offsets in Hin. cbn in Hw. lia.
Qed.

Lemma chunk_calls_app (rs1 rs2 : list record) :
  forall off : Z,
    chunk_calls off (rs1 ++ rs2)
    = chunk_calls off rs1 ++ chunk_calls (off + Z.of_nat (length rs1)) rs2.
Proof.
  induction rs1 as [|r rs1 IH]; intros off; cbn [chunk_calls app length].
  - f_equal. lia.
  - rewrite IH. do 3 f_equal. lia.
Qed.

(** The tasks' calls are the calls of one handler run over all records. *)
Lemma tasks_calls_concat (css : list (list record)) :
  forall off : Z, tasks_calls off css = chunk_calls off (concat css).
Proof.
  induction css as [|rs css IH]; intros off; [reflexivity |].
  cbn [tasks_calls concat get_chunk_handler offset].
  now rewrite chunk_calls_app, IH.
Qed.

(** One handler run over its records, as calls. *)
Lemma handle_all_calls (rs : list record) :
  forall (off : Z) (m : mem),
    handle_all {| offset := off |} rs m
    = (fun m' => ({| offset := off + Z.of_nat (length rs) |}, m'))
        <$> handle_calls (chunk_calls off rs) m.
Proof.
  induction rs as [|[[r c] v] rs IH]; intros off m.
  - cbn. now rewrite Z.add_0_r.
  - cbn [handle_all chunk_calls handle_calls length].
    unfold handle_call. cbn [fst snd].
    destruct (handle {| offset := off |} r c v m) as [[h' m']|] eqn:Eh;
      [| reflexivity].
    cbn [mbind option_bind fmap option_fmap option_map fst snd].
    assert (h' = {| offset := off + 1 |}) as ->.
    { unfold handle in Eh.
      destruct (store (rows m) _ r); [| discriminate].
      destruct (store (cols m) _ c); [| discriminate].
      destruct (store (values m) _ v); [| discriminate].
      cbn in Eh. now injection Eh as <- _. }
    rewrite IH. replace (off + 1 + Z.of_nat (length rs))
      with (off + Z.of_nat (S (length rs))) by lia.
    reflexivity.
Qed.

Lemma write_from_all {A : Type} (xs : list A) :
  forall a : list A, length a = length xs -> write_from a 0 xs = xs.
Proof.
  intros a Hlen. apply list_eq. intros k.
  destruct (decide (k < length xs)%nat) as [Hk|Hk].
  - destruct (lookup_lt_is_Some_2 xs k Hk) as [x Hx].
    rewrite Hx. apply (write_from_inside xs a 0 k x); [lia | exact Hx].
  - rewrite write_from_outside by lia.
    rewrite (lookup_ge_None_2 xs) by lia. apply lookup_ge_None_2. lia.
Qed.

End Calls.

(** The calls of the chunk tasks, in any order, leave the arrays as the
    records written from position 0 on. *)
Lemma tasks_calls_any_order {IT VT : Type}
    (css : list (list (IT * IT * VT))) (m : arrays IT VT)
    (ws : list (Z * (IT * IT * VT))) :
  in_bounds m 0 (length (concat css)) ->
  ws ≡ₚ tasks_calls 0 css ->
  handle_calls ws m
  = Some {| rows := write_from (rows m) 0 (record_rows (concat css));
            cols := write_from (cols m) 0 (record_cols (concat css));
            values := write_from (values m) 0 (record_values (concat css)) |}.
Proof.
  intros Hb Hperm.
  pose proof (handle_all_writes (concat css) 0 m Hb) as Hseq.
  change (Z.of_nat 0) with 0 in Hseq. rewrite Nat.add_0_l in Hseq.
  rewrite (handle_calls_perm ws (tasks_calls 0 css) Hperm).
  - rewrite tasks_calls_concat.
    rewrite handle_all_calls in Hseq.
    destruct (handle_calls (chunk_calls 0 (concat css)) m) as [m'|];
      [| discriminate].
    cbn in Hseq. now injection Hseq as ->.
  - rewrite Hperm, tasks_calls_concat. apply chunk_calls_NoDup.
  - rewrite Hperm, tasks_calls_concat. apply Forall_forall.
    intros w Hw. apply list_elem_of_In, chunk_calls_offsets in Hw.
    destruct Hb as (Hr & Hc & Hv). unfold fits, sizes. cbn [fst snd].
    lia.
Qed.

(** X9. Records split into consecutive chunks, each chunk parsed through a
    handler from [get_chunk_handler] at the number of records before the
    chunk, into arrays that have room for all records: in whatever order
    the tasks' [handle] calls reach the arrays (any permutation of the
    calls, so any interleaving of the tasks), every call succeeds and the
    arrays end up as after one handler run over all records in file order,
    with record [j] at position [j]; arrays of exactly that size end up
    holding the records' rows, columns and values. *)
Theorem chunk_handlers_any_order {IT VT : Type}
    (css : list (list (IT * IT * VT))) (m : arrays IT VT)
    (ws : list (Z * (IT * IT * VT))) :
  in_bounds m 0 (length (concat css)) ->
  ws ≡ₚ tasks_calls 0 css ->
  let final :=
    {| rows := write_from (rows m) 0 (record_rows (concat css));
       cols := write_from (cols m) 0 (record_cols (concat css));
       values := write_from (values m) 0 (record_values (concat css)) |} in
  handle_calls ws m = Some final
  /\ handle_all {| offset := 0 |} (concat css) m
     = Some ({| offset := Z.of_nat (length (concat css)) |}, final)
  /\ (length (rows m) = length (concat css) ->
      length (cols m) = length (concat css) ->
      length (values m) = length (concat css) ->
      final = {| rows := record_rows (concat css);
                 cols := record_cols (concat css);
                 values := record_values (concat css) |}).
Proof.
  intros Hb Hperm final.
  pose proof (handle_all_writes (concat css) 0 m Hb) as Hseq.
  change (Z.of_nat 0) with 0 in Hseq. rewrite Nat.add_0_l in Hseq.
  fold final in Hseq.
  split; [exact (tasks_calls_any_order css m ws Hb Hperm) |].
  split; [exact Hseq |].
  intros Hr Hc Hv. subst final.
  rewrite !write_from_all;
    unfold record_rows, record_cols, record_values;
    rewrite ?length_fmap; auto.
Qed.

(** Two chunks of two records and one record; the second task's call
    reaches the arrays between the two calls of the first. *)
Lemma chunk_handlers_any_order_witness :
  let css := [[(5, 6, 7); (8, 9, 10)]; [(11, 12, 13)]] in
  let m := {| rows := [0; 0; 0]; cols := [0; 0; 0]; values := [0; 0; 0] |} in
  let final :=
    {| rows := write_from (rows m) 0 (record_rows (concat css));
       cols := write_from (cols m) 0 (record_cols (concat css));
       values := write_from (values m) 0 (record_values (concat css)) |} in
  handle_calls [(0, (5, 6, 7)); (2, (11, 12, 13)); (1, (8, 9, 10))] m
  = Some final
  /\ handle_all {| offset := 0 |} (concat css) m
     = Some ({| offset := Z.of_nat (length (concat css)) |}, final)
  /\ (length (rows m) = length (concat css) ->
      length (cols m) = length (concat css) ->
      length (values m) = length (concat css) ->
      final = {| rows := record_rows (concat css);
                 cols := record_cols (concat css);
                 values := record_values (concat css) |}).
Proof.
  apply (chunk_handlers_any_order
           [[(5, 6, 7); (8, 9, 10)]; [(11, 12, 13)]]
           {| rows := [0; 0; 0]; cols := [0; 0; 0]; values := [0; 0; 0] |}
           [(0, (5, 6, 7)); (2, (11, 12, 13)); (1, (8, 9, 10))]).
  - unfold in_bounds. simpl. lia.
  - simpl. apply perm_skip. apply perm_swap.
Defined.

End HandlerOrder.

(** ** Reading a coordinate body in parallel into the binding's arrays *)

Module ParallelRead.
Import ReadEngine.

Section Read.
Context {IT VT : Type}.
Local Abbreviation record := (IT * IT * VT)%type.
Local Abbreviation mem := (NumpyHandler.arrays IT VT).

(** The records a coordinate parser delivers from a chunk, one [handle]
    call each.  The parsers are in [fast_matrix_market.hpp], which is not
    among the sources at hand; they are kept abstract. *)
Variable records_of : string -> list record.

(** The [handle] calls of one parse task: its lambda obtains the handler
    from [handler.get_chunk_handler] at the offset the engine computed and
    hands it to the parser with the chunk. *)
Definition task_calls (t : parse_call * bool) : list (Z * record) :=
  HandlerOrder.chunk_calls
    (NumpyHandler.offset
       (NumpyHandler.get_chunk_handler {| NumpyHandler.offset := 0 |}
          (call_handler_offset (fst t))))
    (records_of (call_chunk (fst t))).

Lemma total_lines_records (l : list string) :
  (forall c, c ∈ l -> count_lines c = Z.of_nat (length (records_of c))) ->
  total_lines l = Z.of_nat (length (concat (records_of <$> l))).
Proof.
  induction l as [|c l IH]; intros H; [reflexivity |].
  rewrite total_lines_cons, (H c) by now constructor.
  rewrite IH by (intros c' Hc'; apply H; now constructor).
  cbn [fmap list_fmap concat]. rewrite length_app. lia.
Qed.

Lemma calls_of_tasks (l : list (parse_call * bool)) :
  forall off : Z,
    (forall i t,
        l !! i = Some t ->
        call_handler_offset (fst t)
        = off + Z.of_nat
                  (length (concat
                             (records_of
                                <$> take i ((fun t => call_chunk (fst t))
                                              <$> l))))) ->
    concat (task_calls <$> l)
    = HandlerOrder.tasks_calls off
        (records_of <$> ((fun t => call_chunk (fst t)) <$> l)).
Proof.
  induction l as [|t l IH]; intros off H; [reflexivity |].
  cbn [fmap list_fmap concat HandlerOrder.tasks_calls].
  unfold task_calls at 1.
  cbn [NumpyHandler.get_chunk_handler NumpyHandler.offset].
  rewrite (H 0%nat t eq_refl). cbn [take fmap list_fmap concat length].
  rewrite Z.add_0_r. f_equal.
  apply IH. intros i t' Hi.
  rewrite (H (S i) t' Hi). cbn [take fmap list_fmap concat].
  rewrite length_app. lia.
Qed.

End Read.

(** X10. A coordinate body whose chunks each hold as many lines as records
    (no blank lines), read by [read_body_threads] with the binding's
    triplet handler into arrays with room for all records: for every pool
    size and every interleaving of the main thread with the workers, once
    the call has returned, the [handle] calls of all parse tasks, in
    whatever order they reached the arrays, have left the arrays exactly as
    one handler run over the records of the whole body in file order
    leaves them.  The parsers are abstract: [records_of] gives the records
    they deliver from a chunk. *)
Theorem parallel_read_equals_sequential {IT VT : Type}
    (records_of : string -> list (IT * IT * VT))
    (header : matrix_market_header) (thread_count : Z)
    (chunks : list string) (s : engine) (r : Z)
    (m : NumpyHandler.arrays IT VT) (ws : list (Z * (IT * IT * VT))) :
  reachable header thread_count chunks s ->
  0 < inflight_count thread_count ->
  pc s = Returned r ->
  (forall c, c ∈ chunks ->
     count_lines c = Z.of_nat (length (records_of c))) ->
  let records := concat (records_of <$> chunks) in
  let final :=
    {| NumpyHandler.rows :=
         NumpyHandler.write_from (NumpyHandler.rows m) 0
           (NumpyHandler.record_rows records);
       NumpyHandler.cols :=
         NumpyHandler.write_from (NumpyHandler.cols m) 0
           (NumpyHandler.record_cols records);
       NumpyHandler.values :=
         NumpyHandler.write_from (NumpyHandler.values m) 0
           (NumpyHandler.record_values records) |} in
  NumpyHandler.in_bounds m 0 (length records) ->
  ws ≡ₚ concat (task_calls records_of <$> parse_tasks s) ->
  HandlerOrder.handle_calls ws m = Some final
  /\ NumpyHandler.handle_all {| NumpyHandler.offset := 0 |} records m
     = Some ({| NumpyHandler.offset := Z.of_nat (length records) |}, final).
Proof.
  intros Hreach HN Hr Hlines records final Hb Hperm.
  destruct (Inv_reachable header thread_count chunks s Hreach)
    as ([H1 _ _ _ _] & Hc & _).
  unfold control_inv in Hc. rewrite Hr in Hc.
  destruct Hc as (_ & Hq & Hin & _). specialize (Hin HN).
  assert ((fun t => call_chunk (fst t)) <$> parse_tasks s = chunks) as Hch.
  { rewrite H1, Hq, Hin. cbn [fmap list_fmap]. rewrite !app_nil_r.
    unfold calls. now rewrite <- list_fmap_compose. }
  assert (concat (task_calls records_of <$> parse_tasks s)
          = HandlerOrder.tasks_calls 0 (records_of <$> chunks)) as Hcalls.
  { rewrite <- Hch. apply calls_of_tasks. intros i [p d] Hi.
    rewrite Hch. cbn [fst].
    rewrite (handler_offset_counts_lines header thread_count chunks s i p d
               Hreach Hi).
    rewrite total_lines_records with (records_of := records_of); [lia |].
    intros c Hc. apply Hlines.
    apply elem_of_take in Hc as (j & Hj & _).
    exact (list_elem_of_lookup_2 _ _ _ Hj). }
  rewrite Hcalls in Hperm.
  split.
  - exact (HandlerOrder.tasks_calls_any_order (records_of <$> chunks) m ws
             Hb Hperm).
  - pose proof (NumpyHandler.handle_all_writes records 0 m Hb) as Hseq.
    change (Z.of_nat 0) with 0 in Hseq. rewrite Nat.add_0_l in Hseq.
    exact Hseq.
Qed.

(** The records of the two chunks of [two_chunks], as a coordinate parser
    delivers them (indices made 0-based). *)
Definition two_chunks_records (c : string) : list (Z * Z * Z) :=
  if String.eqb c (line "3 3 7") then [(2, 2, 7)]
  else [(0, 0, 5); (1, 1, 6)].

(** The second task's call reaches the arrays between the two calls of the
    first. *)
Lemma parallel_read_equals_sequential_witness :
  let m := {| NumpyHandler.rows := [0; 0; 0]; NumpyHandler.cols := [0; 0; 0];
              NumpyHandler.values := [0; 0; 0] |} in
  let records := concat (two_chunks_records <$> two_chunks) in
  let final :=
    {| NumpyHandler.rows :=
         NumpyHandler.write_from (NumpyHandler.rows m) 0
           (NumpyHandler.record_rows records);
       NumpyHandler.cols :=
         NumpyHandler.write_from (NumpyHandler.cols m) 0
           (NumpyHandler.record_cols records);
       NumpyHandler.values :=
         NumpyHandler.write_from (NumpyHandler.values m) 0
           (NumpyHandler.record_values records) |} in
  HandlerOrder.handle_calls
    [(0, (0, 0, 5)); (2, (2, 2, 7)); (1, (1, 1, 6))] m = Some final
  /\ NumpyHandler.handle_all {| NumpyHandler.offset := 0 |} records m
     = Some ({| NumpyHandler.offset := Z.of_nat (length records) |}, final).
Proof.
  apply (parallel_read_equals_sequential two_chunks_records
           coordinate_header 1 two_chunks returned_state 5
           {| NumpyHandler.rows := [0; 0; 0]; NumpyHandler.cols := [0; 0; 0];
              NumpyHandler.values := [0; 0; 0] |}
           [(0, (0, 0, 5)); (2, (2, 2, 7)); (1, (1, 1, 6))]).
  - apply (run_schedule_steps coordinate_header 1 full_schedule).
    vm_compute. reflexivity.
  - vm_compute. reflexivity.
  - reflexivity.
  - intros c Hc. apply list_elem_of_In in Hc.
    destruct Hc as [<- | [<- | []]]; vm_compute; reflexivity.
  - unfold NumpyHandler.in_bounds. simpl. lia.
  - simpl. apply perm_skip. apply perm_swap.
Defined.

End ParallelRead.

(** ** The Python binding's read and write entry points *)

Module Binding.

(** [std::invalid_argument], which the binding's own argument checks
    throw (the formatters throw the library's [invalid_argument]). *)
Inductive std_error : Type :=
| std_invalid_argument (what : string).

(** Modelled from the spec: the [field] and [symmetry] enumerations of
    [fast_matrix_market.hpp], which is not among the sources at hand. *)
Inductive field_type : Type := integer | real | double | complex | pattern.
Inductive symmetry_type : Type :=
  general | symmetric | skew_symmetric | hermitian.

(** [matrix_market_header] as the binding uses it. *)
Record matrix_market_header : Type := {
  object : ReadEngine.object_type;
  format : ReadEngine.format_type;
  field : field_type;
  symmetry : symmetry_type;
  nrows : Z;
  ncols : Z;
  nnz : Z;
  comment : string
}.

(** A NumPy array of two dimensions as [write_array] reads it: its shape
    and the unchecked element access. *)
Record py_array (T : Type) : Type := {
  shape : list Z;
  element : Z -> Z -> option T
}.
Arguments shape {T} _.
Arguments element {T} _ _ _.

Section Write.
Context {VT : Type}.

(** [get_field_type] at the value type the template is instantiated with
    (the function is in [fast_matrix_market.hpp]). *)
Variable value_field : field_type.

(** [write_triplet] up to its two calls into the library: the result is the
    exception thrown by the argument checks, or the header handed to
    [write_header] together with the outcome of constructing the
    [triplet_formatter] that is handed to [write_body]. *)
Definition write_triplet (cursor_header : matrix_market_header)
    (shape0 : Z * Z) (rows cols : list Z) (data : list VT)
  : std_error
    + (matrix_market_header * (fmm_error + Triplet.triplet_formatter)) :=
  if negb (Z.of_nat (length rows) =? Z.of_nat (length cols)) then
    inl (std_invalid_argument "len(row) must equal len(col).")
  else if negb (Z.of_nat (length rows) =? Z.of_nat (length data))
          && negb (Z.of_nat (length data) =? 0) then
    inl (std_invalid_argument "len(row) must equal len(data).")
  else
    inr ({| object := ReadEngine.matrix;
            format := ReadEngine.coordinate;
            field := if Z.of_nat (length data) =? 0 then pattern
                     else value_field;
            symmetry := general;
            nrows := fst shape0;
            ncols := snd shape0;
            nnz := Z.of_nat (length rows);
            comment := comment cursor_header |},
         Triplet.make_triplet_formatter
           0 (Z.of_nat (length rows)) 0 (Z.of_nat (length cols))
           0 (Z.of_nat (length data))).

(** [write_csc], in the same way; the pointer range ends at
    [indptr.size() - 1] and [is_csr] becomes the formatter's [transpose]. *)
Definition write_csc (cursor_header : matrix_market_header)
    (shape0 : Z * Z) (indptr indices : list Z) (data : list VT)
    (is_csr : bool)
  : std_error + (matrix_market_header * (fmm_error + Csc.csc_formatter)) :=
  if negb (Z.of_nat (length indptr) =? snd shape0 + 1) then
    inl (std_invalid_argument "indptr length does not match matrix shape.")
  else if negb (Z.of_nat (length indices) =? Z.of_nat (length data))
          && negb (Z.of_nat (length data) =? 0) then
    inl (std_invalid_argument "len(indices) must equal len(data).")
  else
    inr ({| object := ReadEngine.matrix;
            format := ReadEngine.coordinate;
            field := if Z.of_nat (length data) =? 0 then pattern
                     else value_field;
            symmetry := general;
            nrows := fst shape0;
            ncols := snd shape0;
            nnz := Z.of_nat (length indices);
            comment := comment cursor_header |},
         Csc.make_csc_formatter
           0 (Z.of_nat (length indptr) - 1) 0 (Z.of_nat (length indices))
           0 (Z.of_nat (length data)) is_csr).

(** [write_array]: the header handed to [write_header] and the
    [dense_2d_call_formatter] handed to [write_body]. *)
Definition write_array (cursor_header : matrix_market_header)
    (array : py_array VT)
  : std_error
    + (matrix_market_header * Dense2D.dense_2d_call_formatter) :=
  if negb (Z.of_nat (length (shape array)) =? 2) then
    inl (std_invalid_argument "Only 2D arrays supported.")
  else
    let nrows0 := nth 0 (shape array) 0 in
    let ncols0 := nth 1 (shape array) 0 in
    inr ({| object := ReadEngine.matrix;
            format := ReadEngine.array;
            field := value_field;
            symmetry := general;
            nrows := nrows0;
            ncols := ncols0;
            nnz := nnz cursor_header;
            comment := comment cursor_header |},
         Dense2D.make_dense_2d_call_formatter nrows0 ncols0).

End Write.

(** [read_body_triplet] up to its call into the library: the exception of
    the size check, or the handler handed to [read_matrix_market_body]
    (constructed with the default [offset = 0]). *)
Definition read_body_triplet {IT VT : Type} (header_nnz : Z)
    (m : NumpyHandler.arrays IT VT)
  : std_error + NumpyHandler.triplet_numpy_parse_handler :=
  if negb (Z.of_nat (length (NumpyHandler.rows m)) =? header_nnz)
     || negb (Z.of_nat (length (NumpyHandler.cols m)) =? header_nnz)
     || negb (Z.of_nat (length (NumpyHandler.values m)) =? header_nnz)
  then inl (std_invalid_argument "NumPy Array sizes need to equal matrix nnz")
  else inr {| NumpyHandler.offset := 0 |}.

(** A cursor header left over from earlier use; the write functions
    overwrite all of it but the comment (and, for arrays, [nnz]). *)
Definition stale_header : matrix_market_header :=
  {| object := ReadEngine.vector; format := ReadEngine.array;
     field := pattern; symmetry := hermitian;
     nrows := 0; ncols := 0; nnz := 0; comment := "c" |}.

(** *** Helper facts *)

Lemma record_lines_length {VT : Type} (int_to_string : Z -> string)
    (value_to_string : VT -> string) (hv : bool) (rows : list Z) :
  forall (cols : list Z) (vals : list VT),
    length cols = length rows ->
    (hv = true -> length vals = length rows) ->
    length (Triplet.record_lines int_to_string value_to_string hv
                                 rows cols vals) = length rows.
Proof.
  induction rows as [|r rows IH]; intros [|c cols] vals Hc Hv;
    try discriminate; [reflexivity |].
  cbn [Triplet.record_lines]. destruct hv.
  - specialize (Hv eq_refl). destruct vals as [|v vals]; [discriminate |].
    cbn [length] in *. rewrite IH; auto.
  - cbn [length] in *. rewrite IH; auto. discriminate.
Qed.

(** The formatter over whole arrays, drained and run. *)
Lemma triplet_body_text {VT : Type}
    (int_to_string : Z -> string) (value_to_string : VT -> string)
    (column_value_to_string : Z -> string)
    (rows cols : list Z) (vals : list VT)
    (o : write_options) (fuel : nat) :
  length rows = length cols ->
  vals = [] \/ length vals = length rows ->
  1 <= chunk_size_values o ->
  Triplet.ceil_div (Z.of_nat (length rows)) (chunk_size_values o)
    <= Z.of_nat fuel ->
  exists f cs f' strs,
    Triplet.formatter_of_arrays rows cols vals = inr f
    /\ Triplet.drain fuel o f = Some (cs, f')
    /\ Triplet.run_chunks int_to_string value_to_string
         column_value_to_string false rows cols vals cs = Some strs
    /\ concat_strings strs
       = concat_strings
           (Triplet.record_lines int_to_string value_to_string
              (Triplet.has_values vals) rows cols vals).
Proof.
  intros Hrc Hv Hc Hfuel.
  set (n := Z.of_nat (length rows)) in *.
  destruct (Triplet.ceil_div_bounds n (chunk_size_values o) Hc ltac:(lia))
    as [Hk0 Hk].
  set (k := Z.to_nat (Triplet.ceil_div n (chunk_size_values o))).
  assert (Triplet.formatter_of_arrays rows cols vals
          = inr (Triplet.formatter_at rows (Triplet.has_values vals) 0))
    as Hmk.
  { unfold Triplet.formatter_of_arrays, Triplet.make_triplet_formatter,
      Triplet.formatter_at.
    rewrite !Z.sub_0_r, <- Hrc, Z.eqb_refl. cbn [negb orb].
    destruct Hv as [-> | Hv].
    - cbn. now rewrite andb_false_r.
    - rewrite Hv, Z.eqb_refl. cbn [negb andb].
      destruct vals; [destruct rows; [reflexivity | discriminate] |].
      cbn [Triplet.has_values]. now rewrite <- Hv. }
  destruct (Triplet.drain_text int_to_string value_to_string
              column_value_to_string rows cols vals
              (Triplet.has_values vals) o k Hc (eq_sym Hrc))
    with (i := 0%nat) as (cs & f' & strs & Hd & Hr & Hcat).
  - intros Hhv. destruct Hv as [-> | Hv]; [discriminate | exact Hv].
  - lia.
  - subst k. rewrite Z2Nat.id by lia. fold n. lia.
  - exists (Triplet.formatter_at rows (Triplet.has_values vals) 0),
      cs, f', strs.
    split; [exact Hmk |].
    split; [apply (Triplet.drain_more_fuel o k); [exact Hd | lia] |].
    split; [exact Hr | exact Hcat].
Qed.

(** *** [write_triplet] *)

(** X11. [write_triplet] throws [std::invalid_argument] with the message
    about [col] when the row and column arrays differ in length, and with
    the message about [data] when they agree but a non-empty data array has
    another length.  Otherwise its checks are exactly what the
    [triplet_formatter] constructor demands, so the constructor does not
    throw; the header handed on is a general coordinate matrix of the given
    shape whose [nnz] is the number of rows given and whose field is
    [pattern] exactly for an empty data array (the cursor's comment is
    kept); and for [chunk_size_values >= 1] the formatter's chunks give
    exactly [nnz] lines, those of the records in input order. *)
Theorem write_triplet_checked {VT : Type} (value_field : field_type)
    (cursor_header : matrix_market_header) (shape0 : Z * Z)
    (rows cols : list Z) (data : list VT) :
  (length rows <> length cols ->
   write_triplet value_field cursor_header shape0 rows cols data
   = inl (std_invalid_argument "len(row) must equal len(col)."))
  /\ (length rows = length cols ->
      data <> [] -> length data <> length rows ->
      write_triplet value_field cursor_header shape0 rows cols data
      = inl (std_invalid_argument "len(row) must equal len(data)."))
  /\ (length rows = length cols ->
      data = [] \/ length data = length rows ->
      exists h f,
        write_triplet value_field cursor_header shape0 rows cols data
        = inr (h, inr f)
        /\ Triplet.formatter_of_arrays rows cols data = inr f
        /\ h = {| object := ReadEngine.matrix;
                  format := ReadEngine.coordinate;
                  field := if Triplet.has_values data then value_field
                           else pattern;
                  symmetry := general;
                  nrows := fst shape0; ncols := snd shape0;
                  nnz := Z.of_nat (length rows);
                  comment := comment cursor_header |}
        /\ forall (int_to_string : Z -> string)
                  (value_to_string : VT -> string)
                  (column_value_to_string : Z -> string)
                  (o : write_options) (fuel : nat),
             1 <= chunk_size_values o ->
             Triplet.ceil_div (Z.of_nat (length rows)) (chunk_size_values o)
               <= Z.of_nat fuel ->
             exists cs f' strs lines,
               Triplet.drain fuel o f = Some (cs, f')
               /\ Triplet.run_chunks int_to_string value_to_string
                    column_value_to_string false rows cols data cs
                  = Some strs
               /\ concat_strings strs = concat_strings lines
               /\ lines = Triplet.record_lines int_to_string value_to_string
                            (Triplet.has_values data) rows cols data
               /\ Z.of_nat (length lines) = nnz h).
Proof.
  unfold write_triplet. split; [| split].
  - intros Hne.
    destruct (Z.eqb_spec (Z.of_nat (length rows)) (Z.of_nat (length cols)));
      [lia | reflexivity].
  - intros Hrc Hd Hlen. rewrite Hrc, Z.eqb_refl. cbn [negb].
    destruct (Z.eqb_spec (Z.of_nat (length cols)) (Z.of_nat (length data)));
      [lia |].
    destruct (Z.eqb_spec (Z.of_nat (length data)) 0);
      [destruct data; [congruence | discriminate] | reflexivity].
  - intros Hrc Hv.
    assert (negb (Z.of_nat (length rows) =? Z.of_nat (length data))
            && negb (Z.of_nat (length data) =? 0) = false) as Hcheck.
    { destruct Hv as [-> | ->]; [apply andb_false_r |].
      now rewrite Z.eqb_refl. }
    assert ((Z.of_nat (length data) =? 0) = negb (Triplet.has_values data))
      as Hpat by now destruct data.
    destruct (triplet_body_text (fun _ => EmptyString)
                (fun _ : VT => EmptyString) (fun _ => EmptyString)
                rows cols data {| chunk_size_values := 1 |} (length rows)
                Hrc Hv)
      as (f & _ & _ & _ & Hmk & _);
      [cbn; lia | unfold Triplet.ceil_div; cbn;
                  rewrite Z.add_simpl_r, Z.div_1_r; lia |].
    exists {| object := ReadEngine.matrix;
              format := ReadEngine.coordinate;
              field := if Triplet.has_values data then value_field
                       else pattern;
              symmetry := general;
              nrows := fst shape0; ncols := snd shape0;
              nnz := Z.of_nat (length rows);
              comment := comment cursor_header |}, f.
    rewrite <- Hrc at 1. rewrite Z.eqb_refl. cbn [negb].
    rewrite Hcheck, Hpat.
    split; [| split; [exact Hmk | split; [reflexivity |]]].
    + unfold Triplet.formatter_of_arrays in Hmk. rewrite Hmk.
      now destruct (Triplet.has_values data).
    + intros its vts cvts o fuel Hc Hfuel.
      destruct (triplet_body_text its vts cvts rows cols data o fuel
                  Hrc Hv Hc Hfuel)
        as (f0 & cs & f' & strs & Hmk0 & Hd & Hr & Hcat).
      assert (f0 = f) as -> by congruence.
      eexists cs, f', strs, _.
      split; [exact Hd |]. split; [exact Hr |]. split; [exact Hcat |].
      split; [reflexivity |].
      cbn [nnz]. f_equal. apply record_lines_length; [auto |].
      intros Hhv. destruct Hv as [-> | Hv]; [discriminate | exact Hv].
Qed.

Lemma write_triplet_checked_witness :
  exists h f,
    write_triplet real stale_header (3, 3) [0; 1; 2] [1; 2; 0] [7; 8; 9]
    = inr (h, inr f)
    /\ Triplet.formatter_of_arrays [0; 1; 2] [1; 2; 0] [7; 8; 9] = inr f
    /\ h = {| object := ReadEngine.matrix;
              format := ReadEngine.coordinate;
              field := if Triplet.has_values [7; 8; 9] then real
                       else pattern;
              symmetry := general;
              nrows := fst (3, 3); ncols := snd (3, 3);
              nnz := Z.of_nat (length [0; 1; 2]);
              comment := comment stale_header |}
    /\ forall (int_to_string : Z -> string)
              (value_to_string : Z -> string)
              (column_value_to_string : Z -> string)
              (o : write_options) (fuel : nat),
         1 <= chunk_size_values o ->
         Triplet.ceil_div (Z.of_nat (length [0; 1; 2])) (chunk_size_values o)
           <= Z.of_nat fuel ->
         exists cs f' strs lines,
           Triplet.drain fuel o f = Some (cs, f')
           /\ Triplet.run_chunks int_to_string value_to_string
                column_value_to_string false [0; 1; 2] [1; 2; 0] [7; 8; 9] cs
              = Some strs
           /\ concat_strings strs = concat_strings lines
           /\ lines = Triplet.record_lines int_to_string value_to_string
                        (Triplet.has_values [7; 8; 9])
                        [0; 1; 2] [1; 2; 0] [7; 8; 9]
           /\ Z.of_nat (length lines) = nnz h.
Proof.
  destruct (write_triplet_checked real stale_header (3, 3)
              [0; 1; 2] [1; 2; 0] [7; 8; 9]) as (_ & _ & H).
  apply H.
  - reflexivity.
  - right. reflexivity.
Defined.

(** Three records written through the binding: the header says
    [nnz = 3] and the body has three lines. *)
Example write_triplet_3_records :
  exists h f cs f' strs,
    write_triplet real stale_header
      (3, 3) [0; 1; 2] [1; 2; 0] [7; 8; 9] = inr (h, inr f)
    /\ nnz h = 3 /\ field h = real /\ comment h = "c"
    /\ Triplet.drain 2 Triplet.options2 f = Some (cs, f')
    /\ Triplet.run_chunks Triplet.decimal Triplet.decimal Triplet.decimal
         false [0; 1; 2] [1; 2; 0] [7; 8; 9] cs = Some strs
    /\ concat_strings strs
       = "1 2 7" +:+ kNewline +:+ "2 3 8" +:+ kNewline
           +:+ "3 1 9" +:+ kNewline.
Proof.
  eexists _, _, _, _, _. split; [reflexivity |].
  split; [reflexivity |]. split; [reflexivity |]. split; [reflexivity |].
  split; [vm_compute; reflexivity |].
  split; vm_compute; reflexivity.
Qed.

(** *** [write_csc] *)

(** X12. [write_csc] throws [std::invalid_argument] unless [indptr] has
    [shape[1] + 1] entries, also when [is_csr] is set (so the row pointers
    of a CSR matrix, one more than it has rows, pass only when the matrix
    has as many rows as columns), and then unless the data array is empty
    or as long as [indices].  Otherwise the [csc_formatter] constructor
    does not throw; the formatter ranges over [shape[1]] pointers with
    [transpose = is_csr]; the header handed on is a general coordinate
    matrix of the given shape with [nnz = len(indices)] and field
    [pattern] exactly for an empty data array; and when [indptr] holds the
    running sums of the column lengths [lens] (the array sizes and
    [chunk_size_values] being 64-bit values, and [next_chunk]'s column
    count defined and at least 1), the chunks give exactly [nnz] lines,
    those of the entries in storage order. *)
Theorem write_csc_checked {VT : Type} (value_field : field_type)
    (cursor_header : matrix_market_header) (shape0 : Z * Z)
    (indptr indices : list Z) (data : list VT) (is_csr : bool) :
  (Z.of_nat (length indptr) <> snd shape0 + 1 ->
   write_csc value_field cursor_header shape0 indptr indices data is_csr
   = inl (std_invalid_argument "indptr length does not match matrix shape."))
  /\ (Z.of_nat (length indptr) = snd shape0 + 1 ->
      data <> [] -> length data <> length indices ->
      write_csc value_field cursor_header shape0 indptr indices data is_csr
      = inl (std_invalid_argument "len(indices) must equal len(data)."))
  /\ (Z.of_nat (length indptr) = snd shape0 + 1 ->
      data = [] \/ length data = length indices ->
      exists h f,
        write_csc value_field cursor_header shape0 indptr indices data is_csr
        = inr (h, inr f)
        /\ CscBody.formatter_of_arrays indptr indices data is_csr = inr f
        /\ h = {| object := ReadEngine.matrix;
                  format := ReadEngine.coordinate;
                  field := if Triplet.has_values data then value_field
                           else pattern;
                  symmetry := general;
                  nrows := fst shape0; ncols := snd shape0;
                  nnz := Z.of_nat (length indices);
                  comment := comment cursor_header |}
        /\ Csc.transpose f = is_csr
        /\ Csc.ptr_end f - Csc.ptr_iter f = snd shape0
        /\ forall (int_to_string : Z -> string)
                  (value_to_string : VT -> string)
                  (lens : list nat) (o : write_options) (fuel : nat),
             indptr = Z.of_nat <$> CscBody.offsets 0 lens ->
             length indices = sum_list lens ->
             Z.of_nat (length indices) < 2 ^ 63 ->
             Z.of_nat (length lens) < 2 ^ 63 ->
             - 2 ^ 63 <= chunk_size_values o < 2 ^ 63 ->
             (lens <> [] ->
              exists k,
                CscBody.columns_per_chunk (Csc.nnz_per_column f) o = Some k
                /\ 1 <= k) ->
             (length lens <= fuel)%nat ->
             exists cs f' strs lines,
               CscBody.drain fuel o f = Some (cs, f')
               /\ CscBody.run_chunks int_to_string value_to_string
                    indptr indices data cs = Some strs
               /\ concat_strings strs = concat_strings lines
               /\ lines
                  = (if is_csr
                     then Triplet.record_lines int_to_string value_to_string
                            (Triplet.has_values data)
                            (CscBody.entry_columns 0 lens) indices data
                     else Triplet.record_lines int_to_string value_to_string
                            (Triplet.has_values data) indices
                            (CscBody.entry_columns 0 lens) data)
               /\ Z.of_nat (length lines) = nnz h).
Proof.
  unfold write_csc. split; [| split].
  - intros Hne.
    destruct (Z.eqb_spec (Z.of_nat (length indptr)) (snd shape0 + 1));
      [lia | reflexivity].
  - intros Hp Hd Hlen. rewrite Hp, Z.eqb_refl. cbn [negb].
    destruct (Z.eqb_spec (Z.of_nat (length indices)) (Z.of_nat (length data)));
      [lia |].
    destruct (Z.eqb_spec (Z.of_nat (length data)) 0);
      [destruct data; [congruence | discriminate] | reflexivity].
  - intros Hp Hv.
    destruct (Z.eqb_spec (Z.of_nat (length indptr)) (snd shape0 + 1))
      as [_|E]; [| lia].
    cbn [negb].
    assert (negb (Z.of_nat (length indices) =? Z.of_nat (length data))
            && negb (Z.of_nat (length data) =? 0) = false) as Hcheck.
    { destruct Hv as [-> | ->]; [apply andb_false_r |].
      now rewrite Z.eqb_refl. }
    assert ((Z.of_nat (length data) =? 0) = negb (Triplet.has_values data))
      as Hpat by now destruct data.
    rewrite Hcheck, Hpat.
    unfold CscBody.formatter_of_arrays, Csc.make_csc_formatter.
    rewrite !Z.sub_0_r, Hcheck.
    eexists _, _. split; [reflexivity |]. split; [reflexivity |].
    split; [now destruct (Triplet.has_values data) |].
    split; [reflexivity |].
    split; [cbn [Csc.ptr_end Csc.ptr_iter]; lia |].
    intros its vts lens o fuel Hptr Hi _ _ _ Hk Hfuel.
    assert (Z.of_nat (length indptr) - 1 = Z.of_nat (length lens)) as Hcols.
    { rewrite Hptr, length_fmap, CscBody.offsets_length. lia. }
    cbn [Csc.nnz_per_column] in Hk. rewrite Hcols in Hk.
    pose proof (CscBody.csc_formatter_text its vts lens indices data is_csr
                  o fuel Hi Hv Hk Hfuel) as Htext.
    cbv zeta in Htext. rewrite <- Hptr in Htext.
    destruct Htext as (f & cs & f' & strs & Hmk & Hd & _ & Hr & Hcat).
    unfold CscBody.formatter_of_arrays, Csc.make_csc_formatter in Hmk.
    rewrite !Z.sub_0_r, Hcheck in Hmk. injection Hmk as <-.
    eexists cs, f', strs, _.
    split; [exact Hd |]. split; [exact Hr |].
    split; [exact Hcat |].
    split; [reflexivity |].
    cbn [nnz]. f_equal.
    assert (Triplet.has_values data = true -> length data = length indices)
      as Hhv.
    { intros Hhv. destruct Hv as [-> | Hv]; [discriminate | exact Hv]. }
    pose proof (CscBody.entry_columns_length lens 0) as Hec.
    destruct is_csr.
    + rewrite record_lines_length; [lia | lia |].
      intros H. rewrite (Hhv H). lia.
    + apply record_lines_length; [lia | exact Hhv].
Qed.

(** A square matrix given as CSR arrays with rows of 1 and 2 entries,
    written with [chunk_size_values = 2]: the estimate is [3 / 2] and
    [next_chunk] computes [1.5 * 2 + 1 = 4] columns. *)
Lemma write_csc_checked_witness :
  exists h f,
    write_csc real stale_header (2, 2) [0; 1; 3] [1; 0; 1] [7; 8; 9] true
    = inr (h, inr f)
    /\ CscBody.formatter_of_arrays [0; 1; 3] [1; 0; 1] [7; 8; 9] true = inr f
    /\ h = {| object := ReadEngine.matrix;
              format := ReadEngine.coordinate;
              field := if Triplet.has_values [7; 8; 9] then real
                       else pattern;
              symmetry := general;
              nrows := fst (2, 2); ncols := snd (2, 2);
              nnz := Z.of_nat (length [1; 0; 1]);
              comment := comment stale_header |}
    /\ Csc.transpose f = true
    /\ Csc.ptr_end f - Csc.ptr_iter f = snd (2, 2)
    /\ exists cs f' strs lines,
         CscBody.drain 2 Triplet.options2 f = Some (cs, f')
         /\ CscBody.run_chunks Triplet.decimal Triplet.decimal
              [0; 1; 3] [1; 0; 1] [7; 8; 9] cs = Some strs
         /\ concat_strings strs = concat_strings lines
         /\ lines
            = (if true
               then Triplet.record_lines Triplet.decimal Triplet.decimal
                      (Triplet.has_values [7; 8; 9])
                      (CscBody.entry_columns 0 [1; 2]%nat) [1; 0; 1]
                      [7; 8; 9]
               else Triplet.record_lines Triplet.decimal Triplet.decimal
                      (Triplet.has_values [7; 8; 9]) [1; 0; 1]
                      (CscBody.entry_columns 0 [1; 2]%nat) [7; 8; 9])
         /\ Z.of_nat (length lines) = nnz h.
Proof.
  destruct (write_csc_checked real stale_header (2, 2)
              [0; 1; 3] [1; 0; 1] [7; 8; 9] true) as (_ & _ & H).
  destruct H as (h & f & Hw & Hf & Hh & Ht & Hp & Htext);
    [reflexivity | right; reflexivity |].
  exists h, f. repeat (split; [assumption |]).
  apply (Htext Triplet.decimal Triplet.decimal [1; 2]%nat Triplet.options2
           2%nat).
  - reflexivity.
  - reflexivity.
  - simpl. lia.
  - simpl. lia.
  - simpl. lia.
  - intros _. exists 4. split; [| lia].
    vm_compute in Hf. injection Hf as <-. vm_compute. reflexivity.
  - simpl. lia.
Defined.

(** A square matrix given as CSR arrays, and the row pointers of a 2 by 3
    matrix, which the shape check refuses. *)
Example write_csc_csr :
  (exists h f cs f' strs,
      write_csc real stale_header
        (2, 2) [0; 1; 3] [1; 0; 1] [7; 8; 9] true = inr (h, inr f)
      /\ nnz h = 3
      /\ CscBody.drain 2 Triplet.options2 f = Some (cs, f')
      /\ CscBody.run_chunks Triplet.decimal Triplet.decimal
           [0; 1; 3] [1; 0; 1] [7; 8; 9] cs = Some strs
      /\ concat_strings strs
         = "1 2 7" +:+ kNewline +:+ "2 1 8" +:+ kNewline
             +:+ "2 2 9" +:+ kNewline)
  /\ write_csc real stale_header
       (2, 3) [0; 1; 3] [1; 0; 2] [7; 8; 9] true
     = inl (std_invalid_argument
              "indptr length does not match matrix shape.").
Proof.
  split; [| reflexivity].
  eexists _, _, _, _, _. split; [reflexivity |].
  split; [reflexivity |]. split; [vm_compute; reflexivity |].
  split; vm_compute; reflexivity.
Qed.

(** *** [read_body_triplet] *)

Lemma handle_all_app {IT VT : Type} (a b : list (IT * IT * VT)) :
  forall (h : NumpyHandler.triplet_numpy_parse_handler)
         (m : NumpyHandler.arrays IT VT),
    NumpyHandler.handle_all h (a ++ b) m
    = hm ← NumpyHandler.handle_all h a m;
      NumpyHandler.handle_all (fst hm) b (snd hm).
Proof.
  induction a as [|[[r c] v] a IH]; intros h m; [reflexivity |].
  cbn [app NumpyHandler.handle_all].
  destruct (NumpyHandler.handle h r c v m) as [[h1 m1]|]; [| reflexivity].
  cbn [mbind option_bind fst snd]. apply IH.
Qed.

(** X13. [read_body_triplet] throws [std::invalid_argument] unless each of
    the three arrays has exactly [nnz] entries.  Otherwise it hands the
    library a handler at offset 0; records delivered through it in file
    order, as many as [nnz] or fewer, are all stored, record [j] at
    position [j]; one record more than [nnz] is a write past the end of the
    arrays, which [handle] does not check. *)
Theorem read_body_triplet_checked {IT VT : Type} (header_nnz : Z)
    (m : NumpyHandler.arrays IT VT) :
  (Z.of_nat (length (NumpyHandler.rows m)) <> header_nnz
   \/ Z.of_nat (length (NumpyHandler.cols m)) <> header_nnz
   \/ Z.of_nat (length (NumpyHandler.values m)) <> header_nnz ->
   read_body_triplet header_nnz m
   = inl (std_invalid_argument "NumPy Array sizes need to equal matrix nnz"))
  /\ (Z.of_nat (length (NumpyHandler.rows m)) = header_nnz ->
      Z.of_nat (length (NumpyHandler.cols m)) = header_nnz ->
      Z.of_nat (length (NumpyHandler.values m)) = header_nnz ->
      read_body_triplet header_nnz m = inr {| NumpyHandler.offset := 0 |}
      /\ forall rs : list (IT * IT * VT),
           (Z.of_nat (length rs) <= header_nnz ->
            NumpyHandler.handle_all {| NumpyHandler.offset := 0 |} rs m
            = Some ({| NumpyHandler.offset := Z.of_nat (length rs) |},
                    {| NumpyHandler.rows :=
                         NumpyHandler.write_from (NumpyHandler.rows m) 0
                           (NumpyHandler.record_rows rs);
                       NumpyHandler.cols :=
                         NumpyHandler.write_from (NumpyHandler.cols m) 0
                           (NumpyHandler.record_cols rs);
                       NumpyHandler.values :=
                         NumpyHandler.write_from (NumpyHandler.values m) 0
                           (NumpyHandler.record_values rs) |}))
           /\ (header_nnz < Z.of_nat (length rs) ->
               NumpyHandler.handle_all {| NumpyHandler.offset := 0 |} rs m
               = None)).
Proof.
  unfold read_body_triplet. split.
  - intros H.
    destruct (Z.eqb_spec (Z.of_nat (length (NumpyHandler.rows m))) header_nnz);
      destruct (Z.eqb_spec (Z.of_nat (length (NumpyHandler.cols m)))
                           header_nnz);
      destruct (Z.eqb_spec (Z.of_nat (length (NumpyHandler.values m)))
                           header_nnz);
      try reflexivity.
    destruct H as [H | [H | H]]; contradiction.
  - intros Hr Hc Hv. rewrite Hr, Hc, Hv, Z.eqb_refl. cbn [negb orb].
    split; [reflexivity |]. intros rs. split.
    + intros Hlen.
      pose proof (NumpyHandler.handle_all_writes rs 0 m) as H.
      change (Z.of_nat 0) with 0 in H. rewrite Nat.add_0_l in H.
      apply H. unfold NumpyHandler.in_bounds. lia.
    + intros Hlen.
      set (n := length (NumpyHandler.rows m)).
      assert (n < length rs)%nat as Hn by lia.
      rewrite <- (take_drop n rs), handle_all_app.
      pose proof (NumpyHandler.handle_all_writes (take n rs) 0 m) as H.
      change (Z.of_nat 0) with 0 in H. rewrite Nat.add_0_l in H.
      rewrite H by (unfold NumpyHandler.in_bounds; rewrite length_take; lia).
      cbn [mbind option_bind fst snd].
      destruct (drop n rs) as [|[[r c] v] rest] eqn:Ed.
      { apply (f_equal length) in Ed. rewrite length_drop in Ed.
        cbn in Ed. lia. }
      cbn [NumpyHandler.handle_all]. unfold NumpyHandler.handle.
      cbn [NumpyHandler.offset NumpyHandler.rows].
      assert (NumpyHandler.store
                (NumpyHandler.write_from (NumpyHandler.rows m) 0
                   (NumpyHandler.record_rows (take n rs)))
                (Z.of_nat (length (take n rs))) r = None) as ->;
        [| reflexivity].
      unfold NumpyHandler.store.
      rewrite NumpyHandler.write_from_length, length_take.
      replace (n `min` length rs)%nat with n by lia.
      fold n. now rewrite Z.ltb_irrefl, andb_false_r.
Qed.

Lemma read_body_triplet_checked_witness :
  read_body_triplet 4 NumpyHandler.four_zeros
  = inr {| NumpyHandler.offset := 0 |}
  /\ forall rs : list (Z * Z * Z),
       (Z.of_nat (length rs) <= 4 ->
        NumpyHandler.handle_all {| NumpyHandler.offset := 0 |} rs
          NumpyHandler.four_zeros
        = Some ({| NumpyHandler.offset := Z.of_nat (length rs) |},
                {| NumpyHandler.rows :=
                     NumpyHandler.write_from
                       (NumpyHandler.rows NumpyHandler.four_zeros) 0
                       (NumpyHandler.record_rows rs);
                   NumpyHandler.cols :=
                     NumpyHandler.write_from
                       (NumpyHandler.cols NumpyHandler.four_zeros) 0
                       (NumpyHandler.record_cols rs);
                   NumpyHandler.values :=
                     NumpyHandler.write_from
                       (NumpyHandler.values NumpyHandler.four_zeros) 0
                       (NumpyHandler.record_values rs) |}))
       /\ (4 < Z.of_nat (length rs) ->
           NumpyHandler.handle_all {| NumpyHandler.offset := 0 |} rs
             NumpyHandler.four_zeros
           = None).
Proof.
  destruct (read_body_triplet_checked 4 NumpyHandler.four_zeros) as (_ & H).
  apply H; reflexivity.
Defined.

(** Arrays sized for [nnz = 2]: two records fill them, a third is written
    past their end; arrays of another size are refused. *)
Example read_body_triplet_two_records :
  let m := {| NumpyHandler.rows := [0; 0]; NumpyHandler.cols := [0; 0];
              NumpyHandler.values := [0; 0] |} in
  read_body_triplet 2 m = inr {| NumpyHandler.offset := 0 |}
  /\ NumpyHandler.handle_all {| NumpyHandler.offset := 0 |}
       [(0, 1, 5); (1, 0, 6)] m
     = Some ({| NumpyHandler.offset := 2 |},
             {| NumpyHandler.rows := [0; 1]; NumpyHandler.cols := [1; 0];
                NumpyHandler.values := [5; 6] |})
  /\ NumpyHandler.handle_all {| NumpyHandler.offset := 0 |}
       [(0, 1, 5); (1, 0, 6); (1, 1, 7)] m = None
  /\ read_body_triplet 3 m
     = inl (std_invalid_argument
              "NumPy Array sizes need to equal matrix nnz").
Proof. repeat split. Qed.

(** *** [write_array] *)

(** X14. [write_array] throws [std::invalid_argument] unless the array has
    two dimensions.  For an array of [R] rows and [C] columns it hands on
    a general array-format matrix header with that shape (the cursor's
    [nnz] and comment are kept) and a [dense_2d_call_formatter] that reads
    the array inside its bounds only and whose chunks give the elements in
    column-major order, one per line, for every 64-bit chunk size for
    which [next_chunk]'s column count is defined and at least 1 (the
    dimensions being 64-bit values). *)
Theorem write_array_checked {VT : Type} (value_field : field_type)
    (cursor_header : matrix_market_header) (array : py_array VT) :
  (length (shape array) <> 2%nat ->
   write_array value_field cursor_header array
   = inl (std_invalid_argument "Only 2D arrays supported."))
  /\ (forall (R C : nat) (get : nat -> nat -> VT),
        shape array = [Z.of_nat R; Z.of_nat C] ->
        (forall r c, (r < R)%nat -> (c < C)%nat ->
           element array (Z.of_nat r) (Z.of_nat c) = Some (get r c)) ->
        exists h f,
          write_array value_field cursor_header array = inr (h, f)
          /\ h = {| object := ReadEngine.matrix;
                    format := ReadEngine.array;
                    field := value_field;
                    symmetry := general;
                    nrows := Z.of_nat R; ncols := Z.of_nat C;
                    nnz := nnz cursor_header;
                    comment := comment cursor_header |}
          /\ forall (value_to_string : VT -> string)
                    (o : write_options) (fuel : nat),
               Z.of_nat R < 2 ^ 63 ->
               Z.of_nat C < 2 ^ 63 ->
               - 2 ^ 63 <= chunk_size_values o < 2 ^ 63 ->
               (C <> 0%nat ->
                exists k,
                  Dense2D.columns_per_chunk (Z.of_nat R) o = Some k
                  /\ 1 <= k) ->
               (C <= fuel)%nat ->
               exists cs f' strs,
                 Dense2D.drain fuel o f = Some (cs, f')
                 /\ Dense2D.run_chunks value_to_string (element array) cs
                    = Some strs
                 /\ concat_strings strs
                    = Dense2D.column_major_text value_to_string get R C).
Proof.
  unfold write_array. split.
  - intros Hne.
    destruct (Z.eqb_spec (Z.of_nat (length (shape array))) 2);
      [lia | reflexivity].
  - intros R C get Hshape Hget. rewrite Hshape. cbn [length nth negb].
    change (Z.of_nat 2 =? 2) with true. cbn [negb].
    eexists _, _. split; [reflexivity |]. split; [reflexivity |].
    intros vts o fuel _ _ _ Hk Hfuel.
    destruct (Dense2D.dense_2d_formatter_text vts (element array) get R C o
                fuel Hget Hk Hfuel) as (cs & f' & strs & Hd & _ & Hr & Hcat).
    exists cs, f', strs. repeat (split; [assumption |]). exact Hcat.
Qed.

(** A 2 by 3 array written with [chunk_size_values = 2]: [next_chunk]
    computes [2 * 2 + 1 = 5] columns. *)
Lemma write_array_checked_witness :
  exists h f,
    write_array integer stale_header
      {| shape := [Z.of_nat 2; Z.of_nat 3];
         element := Dense2D.mat_of_rows Dense2D.m23 |}
    = inr (h, f)
    /\ h = {| object := ReadEngine.matrix;
              format := ReadEngine.array;
              field := integer;
              symmetry := general;
              nrows := Z.of_nat 2; ncols := Z.of_nat 3;
              nnz := nnz stale_header;
              comment := comment stale_header |}
    /\ exists cs f' strs,
         Dense2D.drain 3 Triplet.options2 f = Some (cs, f')
         /\ Dense2D.run_chunks Triplet.decimal
              (element {| shape := [Z.of_nat 2; Z.of_nat 3];
                          element := Dense2D.mat_of_rows Dense2D.m23 |})
              cs = Some strs
         /\ concat_strings strs
            = Dense2D.column_major_text Triplet.decimal
                (fun r c => Z.of_nat (3 * r + c + 1)) 2 3.
Proof.
  destruct (write_array_checked integer stale_header
              {| shape := [Z.of_nat 2; Z.of_nat 3];
                 element := Dense2D.mat_of_rows Dense2D.m23 |}) as (_ & H).
  destruct (H 2%nat 3%nat (fun r c => Z.of_nat (3 * r + c + 1)))
    as (h & f & Hw & Hh & Htext).
  - reflexivity.
  - intros [|[|r]] [|[|[|c]]] Hr Hc; try lia; reflexivity.
  - exists h, f. repeat (split; [assumption |]).
    apply (Htext Triplet.decimal Triplet.options2 3%nat).
    + simpl. lia.
    + simpl. lia.
    + simpl. lia.
    + intros _. exists 5. split; [vm_compute; reflexivity | lia].
    + lia.
Defined.

(** A 2 by 3 array written through the binding, and a vector refused. *)
Example write_array_2x3 :
  (exists h f cs f' strs,
      write_array integer stale_header
        {| shape := [2; 3]; element := Dense2D.mat_of_rows Dense2D.m23 |}
      = inr (h, f)
      /\ (nrows h, ncols h) = (2, 3)
      /\ Dense2D.drain 3 Triplet.options2 f = Some (cs, f')
      /\ Dense2D.run_chunks Triplet.decimal
           (Dense2D.mat_of_rows Dense2D.m23) cs = Some strs
      /\ concat_strings strs
         = "1" +:+ kNewline +:+ "4" +:+ kNewline +:+ "2" +:+ kNewline
             +:+ "5" +:+ kNewline +:+ "3" +:+ kNewline +:+ "6"
             +:+ kNewline)
  /\ write_array integer stale_header
       {| shape := [6]; element := Dense2D.mat_of_rows Dense2D.m23 |}
     = inl (std_invalid_argument "Only 2D arrays supported.").
Proof.
  split; [| reflexivity].
  eexists _, _, _, _, _. split; [reflexivity |].
  split; [reflexivity |]. split; [vm_compute; reflexivity |].
  split; vm_compute; reflexivity.
Qed.

End Binding.

(** ** Triplet formatter with the column as a value *)

Module TripletColumn.
Import Triplet.

Section Lines.
Context {VT : Type}.
Variable int_to_string : Z -> string.
Variable value_to_string : VT -> string.
Variable column_value_to_string : Z -> string.
Variable cv : bool.

Local Abbreviation col_str :=
  (column_to_str int_to_string column_value_to_string cv).

(** One line per record, with the second field as [column_to_str] writes
    it: [col + 1] for an index, the value's own text for a value. *)
Fixpoint column_lines (with_values : bool) (rows cols : list Z)
    (vals : list VT) : list string :=
  match rows, cols with
  | r :: rows', c :: cols' =>
      if with_values then
        match vals with
        | v :: vals' =>
            (int_to_string (r + 1) +:+ kSpace +:+ col_str c +:+ kSpace
               +:+ value_to_string v +:+ kNewline)
              :: column_lines with_values rows' cols' vals'
        | [] => []
        end
      else (int_to_string (r + 1) +:+ kSpace +:+ col_str c +:+ kNewline)
             :: column_lines with_values rows' cols' vals
  | _, _ => []
  end.

Lemma column_lines_pattern (rs cs : list Z) (vs vs' : list VT) :
  column_lines false rs cs vs = column_lines false rs cs vs'.
Proof.
  revert cs. induction rs as [|r rs IH]; intros [|c cs]; simpl;
    try reflexivity.
  now rewrite IH.
Qed.

Lemma column_lines_no_cols (hv : bool) (rs : list Z) (vs : list VT) :
  column_lines hv rs [] vs = [].
Proof. destruct rs; reflexivity. Qed.

Lemma column_lines_no_vals (rs cs : list Z) :
  column_lines true rs cs [] = [].
Proof. destruct rs, cs; reflexivity. Qed.

Lemma column_lines_split (hv : bool) (m : nat) :
  forall (rs cs : list Z) (vs : list VT),
    column_lines hv rs cs vs
    = column_lines hv (take m rs) (take m cs) (take m vs)
        ++ column_lines hv (drop m rs) (drop m cs) (drop m vs).
Proof.
  induction m as [|m IH]; intros rs cs vs; [reflexivity |].
  destruct rs as [|r rs]; [reflexivity |].
  destruct cs as [|c cs]; [cbn; now rewrite column_lines_no_cols |].
  destruct hv.
  - destruct vs as [|v vs]; [cbn; now rewrite column_lines_no_vals |].
    cbn. now rewrite <- IH.
  - cbn [take drop column_lines]. rewrite (IH rs cs vs).
    rewrite <- app_comm_cons. f_equal. f_equal; apply column_lines_pattern.
Qed.

Lemma column_lines_length (hv : bool) (rs : list Z) :
  forall (cs : list Z) (vs : list VT),
    length cs = length rs ->
    (hv = true -> length vs = length rs) ->
    length (column_lines hv rs cs vs) = length rs.
Proof.
  induction rs as [|r rs IH]; intros [|c cs] vs Hc Hv;
    try discriminate; [reflexivity |].
  cbn [column_lines]. destruct hv.
  - specialize (Hv eq_refl). destruct vs as [|v vs]; [discriminate |].
    cbn [length] in *. rewrite IH; auto.
  - cbn [length] in *. rewrite IH; auto. discriminate.
Qed.

Lemma column_lines_lookup (hv : bool) (rs : list Z) :
  forall (cs : list Z) (vs : list VT) (j : nat) (r c : Z),
    (hv = true -> length vs = length rs) ->
    (hv = false -> vs = []) ->
    rs !! j = Some r -> cs !! j = Some c ->
    exists rest,
      column_lines hv rs cs vs !! j
      = Some (int_to_string (r + 1) +:+ kSpace +:+ col_str c +:+ rest)
      /\ match vs !! j with
         | Some v => rest = kSpace +:+ value_to_string v +:+ kNewline
         | None => rest = kNewline
         end.
Proof.
  induction rs as [|r0 rs IH]; intros cs vs j r c Ht Hf Hj Hcj;
    [discriminate |].
  destruct cs as [|c0 cs]; [discriminate |].
  destruct hv.
  - specialize (Ht eq_refl). destruct vs as [|v0 vs]; [discriminate |].
    cbn [column_lines]. destruct j as [|j].
    + cbn in Hj, Hcj. injection Hj as ->. injection Hcj as ->.
      exists (kSpace +:+ value_to_string v0 +:+ kNewline).
      split; [| reflexivity]. cbn. now rewrite ?append_assoc.
    + cbn in Hj, Hcj. cbn [length] in Ht.
      destruct (IH cs vs j r c ltac:(intros _; lia) ltac:(discriminate)
                   Hj Hcj) as (rest & Hl & Hrest).
      exists rest. split; [exact Hl | exact Hrest].
  - rewrite (Hf eq_refl). cbn [column_lines]. destruct j as [|j].
    + cbn in Hj, Hcj. injection Hj as ->. injection Hcj as ->.
      exists kNewline. split; reflexivity.
    + cbn in Hj, Hcj.
      destruct (IH cs [] j r c ltac:(discriminate) ltac:(reflexivity)
                   Hj Hcj) as (rest & Hl & Hrest).
      exists rest. split; [exact Hl |]. now rewrite lookup_nil in *.
Qed.

Variables (rows cols : list Z) (vals : list VT).

Lemma chunk_loop_column_lines (hv : bool) (m : nat) :
  forall (i : nat) (c : chunk) (out : string),
    chunk_on rows cols vals hv i m c ->
    chunk_loop int_to_string value_to_string column_value_to_string cv
               rows cols vals m c out
    = Some (out +:+ concat_strings
                      (column_lines hv (take m (drop i rows))
                         (take m (drop i cols)) (take m (drop i vals)))).
Proof.
  induction m as [|m IH]; intros i c out (Hri & Hre & Hci & Hlr & Hlc & Hv).
  - simpl. rewrite Hri, Hre, Nat.add_0_r, Z.eqb_refl. simpl.
    now rewrite append_nil_r.
  - cbn [chunk_loop].
    destruct (Z.eqb_spec (chunk_row_iter c) (chunk_row_end c)) as [E|_];
      [lia |]. cbn [negb].
    destruct (lookup_lt_is_Some_2 rows i ltac:(lia)) as [r Hr].
    destruct (lookup_lt_is_Some_2 cols i ltac:(lia)) as [cl Hcl].
    rewrite Hri, Hci, !deref_lookup, Hr, Hcl. cbn [mbind option_bind].
    rewrite (drop_S _ _ _ Hr), (drop_S _ _ _ Hcl). cbn [take].
    destruct hv.
    + destruct Hv as (Hvi & Hve & Hlv).
      destruct (lookup_lt_is_Some_2 vals i ltac:(lia)) as [v Hval].
      destruct (Z.eqb_spec (chunk_val_iter c) (chunk_val_end c)) as [E|_];
        [lia |]. cbn [negb].
      rewrite Hvi, deref_lookup, Hval. cbn [mbind option_bind fst snd].
      rewrite (drop_S _ _ _ Hval). cbn [take column_lines].
      rewrite (IH (S i)).
      * f_equal. cbn [concat_strings fold_right].
        now rewrite !append_assoc.
      * unfold chunk_on. cbn. repeat split; lia.
    + destruct (Z.eqb_spec (chunk_val_iter c) (chunk_val_end c)) as [_|E];
        [| congruence]. cbn [negb mbind option_bind fst snd column_lines].
      rewrite (IH (S i)).
      * f_equal. cbn [concat_strings fold_right].
        rewrite !append_assoc.
        now rewrite (column_lines_pattern _ _ (take (S m) (drop i vals))
                       (take m (drop (S i) vals))).
      * unfold chunk_on. cbn. repeat split; lia.
Qed.

Lemma drain_column_text (hv : bool) (o : write_options) (k : nat) :
  1 <= chunk_size_values o ->
  length cols = length rows ->
  (hv = true -> length vals = length rows) ->
  forall i : nat,
    (i <= length rows)%nat ->
    (Z.of_nat k - 1) * chunk_size_values o
      < Z.of_nat (length rows) - Z.of_nat i
      <= Z.of_nat k * chunk_size_values o ->
    exists cs f' strs,
      drain k o (formatter_at rows hv i) = Some (cs, f')
      /\ run_chunks int_to_string value_to_string column_value_to_string cv
                    rows cols vals cs = Some strs
      /\ concat_strings strs
         = concat_strings
             (column_lines hv (drop i rows) (drop i cols) (drop i vals)).
Proof.
  intros Hc Hcols Hvals. induction k as [|k IH]; intros i Hi Hk.
  - assert (i = length rows) as -> by lia.
    exists [], (formatter_at rows hv (length rows)), [].
    cbn [drain]. unfold has_next, formatter_at. cbn [row_iter row_end].
    rewrite Z.eqb_refl. cbn [negb].
    split; [reflexivity |]. split; [reflexivity |].
    now rewrite drop_all.
  - assert (i < length rows)%nat as Hlt by nia.
    destruct (next_chunk_at rows cols vals hv o i Hc Hcols Hvals Hlt)
      as (Hm0 & Hm & Hnext & Hon & Hspan).
    set (m := Z.to_nat _) in *.
    destruct (IH (i + m)%nat) as (cs & f' & strs & Hd & Hr & Hcat);
      [lia | nia |].
    pose proof (chunk_loop_column_lines hv m i _ EmptyString Hon) as Hloop.
    assert (chunk_call int_to_string value_to_string column_value_to_string
              cv rows cols vals (fst (next_chunk o (formatter_at rows hv i)))
            = Some (concat_strings
                      (column_lines hv (take m (drop i rows))
                         (take m (drop i cols)) (take m (drop i vals)))))
      as Hcall.
    { unfold chunk_call. rewrite Hspan, Nat2Z.id, Hloop. reflexivity. }
    eexists (_ :: cs), f', (_ :: strs).
    split; [| split].
    + cbn [drain].
      assert (has_next (formatter_at rows hv i) = true) as ->
        by (apply has_next_true; cbn; lia).
      now rewrite Hnext, Hd.
    + unfold run_chunks in *. cbn [mapM].
      rewrite Hcall. cbn [mbind option_bind]. rewrite Hr. reflexivity.
    + cbn [concat_strings fold_right]. fold (concat_strings strs).
      rewrite Hcat.
      rewrite (column_lines_split hv m (drop i rows)).
      rewrite concat_strings_app, !drop_drop. reflexivity.
Qed.

End Lines.

(** X15. The formatter instantiated with a value as second field
    ([COLUMN_IS_VALUE], the flag of [column_to_str]), over [n] records with
    equally long arrays and [chunk_size_values >= 1]: the chunks'
    strings concatenated are [n] lines [row+1 column] or
    [row+1 column value] in input order, where [column] is the second
    array's element written by its value printer, not incremented;
    without the flag it is the element plus one, written as an index.
    The text does not depend on [chunk_size_values]. *)
Theorem column_is_value_text {VT : Type}
    (int_to_string : Z -> string) (value_to_string : VT -> string)
    (column_value_to_string : Z -> string) (cv : bool)
    (rows cols : list Z) (vals : list VT)
    (o : write_options) (fuel : nat) :
  length rows = length cols ->
  vals = [] \/ length vals = length rows ->
  1 <= chunk_size_values o ->
  ceil_div (Z.of_nat (length rows)) (chunk_size_values o) <= Z.of_nat fuel ->
  exists f cs f' strs lines,
    formatter_of_arrays rows cols vals = inr f
    /\ drain fuel o f = Some (cs, f')
    /\ run_chunks int_to_string value_to_string column_value_to_string cv
                  rows cols vals cs = Some strs
    /\ concat_strings strs = concat_strings lines
    /\ length lines = length rows
    /\ forall j r c,
         rows !! j = Some r -> cols !! j = Some c ->
         exists rest,
           lines !! j
           = Some (int_to_string (r + 1) +:+ kSpace
                     +:+ (if cv then column_value_to_string c
                          else int_to_string (c + 1)) +:+ rest)
           /\ match vals !! j with
              | Some v => rest = kSpace +:+ value_to_string v +:+ kNewline
              | None => rest = kNewline
              end.
Proof.
  intros Hrc Hv Hc Hfuel.
  set (n := Z.of_nat (length rows)) in *.
  destruct (ceil_div_bounds n (chunk_size_values o) Hc ltac:(lia))
    as [Hk0 Hk].
  set (k := Z.to_nat (ceil_div n (chunk_size_values o))).
  set (hv := has_values vals).
  assert (hv = true -> length vals = length rows) as Hhv.
  { intros H. destruct Hv as [-> | Hv]; [discriminate | exact Hv]. }
  assert (formatter_of_arrays rows cols vals = inr (formatter_at rows hv 0))
    as Hmk.
  { unfold formatter_of_arrays, make_triplet_formatter, formatter_at.
    rewrite !Z.sub_0_r, <- Hrc, Z.eqb_refl. cbn [negb orb].
    destruct Hv as [-> | Hv'].
    - cbn. now rewrite andb_false_r.
    - rewrite Hv', Z.eqb_refl. cbn [negb andb].
      destruct vals; [destruct rows; [reflexivity | discriminate] |].
      subst hv. cbn [has_values]. now rewrite <- Hv'. }
  destruct (drain_column_text int_to_string value_to_string
              column_value_to_string cv rows cols vals hv o k Hc
              (eq_sym Hrc) Hhv 0%nat)
    as (cs & f' & strs & Hd & Hr & Hcat).
  - lia.
  - subst k. rewrite Z2Nat.id by lia. fold n. lia.
  - exists (formatter_at rows hv 0), cs, f', strs,
      (column_lines int_to_string value_to_string column_value_to_string cv
         hv rows cols vals).
    split; [exact Hmk |].
    split; [apply (drain_more_fuel o k); [exact Hd | lia] |].
    split; [exact Hr |]. split; [exact Hcat |].
    split; [apply column_lines_length; auto |].
    intros j r c Hj Hcj.
    destruct (column_lines_lookup int_to_string value_to_string
                column_value_to_string cv hv rows cols vals j r c)
      as (rest & Hl & Hrest); auto.
    { intros H. subst hv. now destruct vals. }
    exists rest. split; [| exact Hrest].
    rewrite Hl. unfold column_to_str. reflexivity.
Qed.

Lemma column_is_value_text_witness :
  exists f cs f' strs lines,
    formatter_of_arrays [0; 1; 2] [40; 50; 60] ([] : list Z) = inr f
    /\ drain 2 options2 f = Some (cs, f')
    /\ run_chunks decimal decimal decimal true
                  [0; 1; 2] [40; 50; 60] [] cs = Some strs
    /\ concat_strings strs = concat_strings lines
    /\ length lines = length [0; 1; 2]
    /\ forall j r c,
         [0; 1; 2] !! j = Some r -> [40; 50; 60] !! j = Some c ->
         exists rest,
           lines !! j
           = Some (decimal (r + 1) +:+ kSpace
                     +:+ (if true then decimal c else decimal (c + 1))
                     +:+ rest)
           /\ match ([] : list Z) !! j with
              | Some v => rest = kSpace +:+ decimal v +:+ kNewline
              | None => rest = kNewline
              end.
Proof.
  apply (column_is_value_text decimal decimal decimal true
           [0; 1; 2] [40; 50; 60] [] options2 2).
  - reflexivity.
  - left. reflexivity.
  - simpl. lia.
  - vm_compute. discriminate.
Defined.

(** A vector written as doublets: index and value. *)
Example doublet_text :
  forall c, In c [1; 2; 5] ->
    (let o := {| chunk_size_values := c |} in
     match formatter_of_arrays [0; 1; 2] [40; 50; 60] ([] : list Z) with
     | inr f =>
         match drain 3 o f with
         | Some (cs, _) =>
             option_map concat_strings
               (run_chunks decimal decimal decimal true
                           [0; 1; 2] [40; 50; 60] [] cs)
         | None => None
         end
     | inl _ => None
     end)
    = Some ("1 40" +:+ kNewline +:+ "2 50" +:+ kNewline
              +:+ "3 60" +:+ kNewline).
Proof.
  intros c [<- | [<- | [<- | []]]]; vm_compute; reflexivity.
Qed.

End TripletColumn.
